(** * The DRA plugin client of the kubelet: connection, version negotiation, dispatch

    A shallow embedding of [pkg/kubelet/cm/dra/plugin/plugin.go]
    ([getOrCreateGRPCConn], [NodePrepareResources], [NodeUnprepareResources],
    [newMetricsInterceptor]) and the properties of its connection cache, of
    its API-version fallback and of its metrics.

    The Go code talks to the outside (dialing, the transport, the remote
    plugin, the clock).  All of that is an explicit [World]: a clock, a
    supply of connection identities and the chronological log of everything
    the code did to the outside, and an [Env] that answers each interaction
    as a function of the world so far.  The receiver [*Plugin] is explicit
    state next to it. *)

From Stdlib Require Import ZArith List String Bool Lia PeanoNat.
Import ListNotations.
Open Scope string_scope.
Open Scope Z_scope.

Set Implicit Arguments.

(** ** gRPC status codes and errors *)

(** [google.golang.org/grpc/codes.Code] *)
Inductive Code : Type :=
| OK | Canceled | Unknown | InvalidArgument | DeadlineExceeded | NotFound
| AlreadyExists | PermissionDenied | ResourceExhausted | FailedPrecondition
| Aborted | OutOfRange | Unimplemented | Internal | Unavailable | DataLoss
| Unauthenticated.

Definition Code_eqb (a b : Code) : bool :=
  match a, b with
  | OK, OK | Canceled, Canceled | Unknown, Unknown
  | InvalidArgument, InvalidArgument | DeadlineExceeded, DeadlineExceeded
  | NotFound, NotFound | AlreadyExists, AlreadyExists
  | PermissionDenied, PermissionDenied
  | ResourceExhausted, ResourceExhausted
  | FailedPrecondition, FailedPrecondition | Aborted, Aborted
  | OutOfRange, OutOfRange | Unimplemented, Unimplemented
  | Internal, Internal | Unavailable, Unavailable | DataLoss, DataLoss
  | Unauthenticated, Unauthenticated => true
  | _, _ => false
  end.

(** [codes.Code.String()] *)
Definition Code_String (c : Code) : string :=
  match c with
  | OK => "OK" | Canceled => "Canceled" | Unknown => "Unknown"
  | InvalidArgument => "InvalidArgument"
  | DeadlineExceeded => "DeadlineExceeded" | NotFound => "NotFound"
  | AlreadyExists => "AlreadyExists"
  | PermissionDenied => "PermissionDenied"
  | ResourceExhausted => "ResourceExhausted"
  | FailedPrecondition => "FailedPrecondition" | Aborted => "Aborted"
  | OutOfRange => "OutOfRange" | Unimplemented => "Unimplemented"
  | Internal => "Internal" | Unavailable => "Unavailable"
  | DataLoss => "DataLoss" | Unauthenticated => "Unauthenticated"
  end.

(** A Go [error] value that is not nil: either one that carries a gRPC status
    or any other error (such as the one [errors.New] makes). *)
Inductive error : Type :=
| status_Error (c : Code) (msg : string)
| errors_New (msg : string).

(** [status.Code(err)], which is also [status.Convert(err).Code()]: [OK] for
    the nil error, the code of a status error, [Unknown] for any other. *)
Definition status_Code (err : option error) : Code :=
  match err with
  | None => OK
  | Some (status_Error c _) => c
  | Some (errors_New _) => Unknown
  end.

(** ** Contexts and deadlines *)

(** Time is a count of nanoseconds; [time.Duration] likewise. *)
Definition Time := Z.
Definition Duration := Z.
Definition time_Second : Duration := 1000000000.

(** The part of [context.Context] the code depends on: where a context comes
    from and which deadline it carries. *)
Inductive Context : Type :=
| context_Background
| callerCtx (id : nat) (deadline : option Time)
| cancelCtx (parent : Context)
| timerCtx (parent : Context) (deadline : Time).

Fixpoint Deadline (ctx : Context) : option Time :=
  match ctx with
  | context_Background => None
  | callerCtx _ d => d
  | cancelCtx parent => Deadline parent
  | timerCtx _ d => Some d
  end.

(** [context.WithDeadline]: when the parent's deadline is already earlier
    than [d] the result is only a cancellable child of the parent. *)
Definition context_WithDeadline (parent : Context) (d : Time) : Context :=
  match Deadline parent with
  | Some cur => if cur <? d then cancelCtx parent else timerCtx parent d
  | None => timerCtx parent d
  end.

(** [context.WithTimeout(parent, timeout)] is
    [WithDeadline(parent, time.Now().Add(timeout))]. *)
Definition context_WithTimeout (parent : Context) (timeout : Duration)
  (now : Time) : Context :=
  context_WithDeadline parent (now + timeout).

(** The tighter of an optional deadline and a deadline. *)
Definition tighter (d1 : option Time) (d2 : Time) : Time :=
  match d1 with
  | Some d => Z.min d d2
  | None => d2
  end.

(** ** Connections *)

Inductive UnaryClientInterceptor : Type :=
| newMetricsInterceptor (pluginName : string).

Inductive DialOption : Type :=
| grpc_WithTransportCredentials_insecure
| grpc_WithContextDialer (network : string)
| grpc_WithChainUnaryInterceptor (chain : list UnaryClientInterceptor).

(** A [*grpc.ClientConn]: [conn_id] is the identity of the object (two
    pointers are the same connection when the ids agree), the rest is what
    [grpc.Dial] was given. *)
Record ClientConn : Type := mkConn {
  conn_id : nat;
  conn_target : string;
  conn_dopts : list DialOption
}.

Fixpoint unaryInts (opts : list DialOption) : list UnaryClientInterceptor :=
  match opts with
  | [] => []
  | grpc_WithChainUnaryInterceptor ch :: rest => ch ++ unaryInts rest
  | _ :: rest => unaryInts rest
  end.

(** ** API versions and the Plugin *)

Definition apiVersion := string.
Definition apiV1alpha4 : apiVersion := "v1alpha4".
Definition apiV1beta1 : apiVersion := "v1beta1".

(** The negotiated version is unknown when it is neither constant (the zero
    value of the field is the empty string). *)
Definition isUnknown (v : apiVersion) : bool :=
  negb (v =? apiV1beta1)%string && negb (v =? apiV1alpha4)%string.

(** The fields of [Plugin] that the client functions read or write.  Only
    [conn] and [supportedAPI] are ever assigned. *)
Record Plugin : Type := mkPlugin {
  name : string;
  conn : option ClientConn;
  supportedAPI : apiVersion;
  endpoint : string;
  clientCallTimeout : Duration
}.

(** [with_conn p c] is [p] after [p.conn = c]; [with_version p v] is [p]
    after [p.supportedAPI = v]. *)
Definition with_conn (p : Plugin) (c : ClientConn) : Plugin :=
  mkPlugin (name p) (Some c) (supportedAPI p) (endpoint p)
           (clientCallTimeout p).

Definition with_version (p : Plugin) (v : apiVersion) : Plugin :=
  mkPlugin (name p) (conn p) v (endpoint p) (clientCallTimeout p).

(** The two remote operations and the two generated service clients. *)
Inductive Operation : Type := OpPrepare | OpUnprepare.

Inductive Service : Type := drapbv1alpha4 | drapbv1beta1.

Definition Service_eqb (a b : Service) : bool :=
  match a, b with
  | drapbv1alpha4, drapbv1alpha4 | drapbv1beta1, drapbv1beta1 => true
  | _, _ => false
  end.

Definition apiOf (s : Service) : apiVersion :=
  match s with
  | drapbv1alpha4 => apiV1alpha4
  | drapbv1beta1 => apiV1beta1
  end.

Record NodeClient : Type := NewNodeClient {
  nc_service : Service;
  nc_conn : ClientConn
}.

(** ** The world outside the Plugin *)

Section Client.

(** Request and response payloads are opaque to the client. *)
Variables Req Resp : Type.

(** The full gRPC method name a generated service client uses for an
    operation; the generated clients are not part of these sources. *)
Variable fullMethod : Service -> Operation -> string.

(** Everything the code does that is visible outside the call, in the order
    in which it happens. *)
Inductive Event : Type :=
| EvDial (target : string) (opts : list DialOption) (res : ClientConn + error)
| EvWaitForStateChange (c : ClientConn) (ctx : Context) (ok : bool)
| EvInvoke (c : ClientConn) (ctx : Context) (svc : Service) (op : Operation)
    (req : Req) (res : option Resp * option error) (elapsed : N)
| EvObserve (pluginName method code : string) (elapsed : Duration)
| EvSetConn (c : ClientConn)
| EvSetSupportedAPI (v : apiVersion).

Record World : Type := mkWorld {
  now : Time;
  fresh : nat;
  log : list Event
}.

(** The environment decides, from the world so far, whether a dial fails,
    whether the connection leaves the Connecting state in time, what the
    remote side answers, and how long each of these takes. *)
Record Env : Type := mkEnv {
  env_dial : World -> string -> list DialOption -> option error * N;
  env_wait : World -> ClientConn -> Context -> bool * N;
  env_invoke : World -> ClientConn -> Context -> Service -> Operation ->
               Req -> (Resp + error) * N
}.

Variable env : Env.

Record State : Type := mkState {
  plugin : Plugin;
  world : World
}.

(** *** A state monad over the Plugin and the world *)

Definition M (A : Type) : Type := State -> A * State.

Definition ret {A} (a : A) : M A := fun s => (a, s).

Definition bind {A B} (m : M A) (k : A -> M B) : M B :=
  fun s => let (a, s') := m s in k a s'.

Notation "x <- m ;; k" := (bind m (fun x => k))
  (at level 61, m at next level, right associativity).
Notation "' pat <- m ;; k" := (bind m (fun x => match x with pat => k end))
  (at level 61, pat pattern, m at next level, right associativity).
Notation "m ;;; k" := (bind m (fun _ => k))
  (at level 61, right associativity).

Definition get_plugin : M Plugin := fun s => (plugin s, s).

Definition time_Now : M Time := fun s => (now (world s), s).

(** Append an event and let [d] nanoseconds pass. *)
Definition record (e : Event) (d : N) (w : World) : World :=
  mkWorld (now w + Z.of_N d) (fresh w) (log w ++ [e]).

Definition emit (e : Event) (d : N) : M unit :=
  fun s => (tt, mkState (plugin s) (record e d (world s))).

(** [p.conn = c] *)
Definition set_conn (c : ClientConn) : M unit :=
  fun s =>
    (tt, mkState (with_conn (plugin s) c)
                 (record (EvSetConn c) 0 (world s))).

(** [p.supportedAPI = v] *)
Definition set_supportedAPI (v : apiVersion) : M unit :=
  fun s =>
    (tt, mkState (with_version (plugin s) v)
                 (record (EvSetSupportedAPI v) 0 (world s))).

(** [grpc.Dial(target, opts...)]: an error, or a new connection object. *)
Definition grpc_Dial (target : string) (opts : list DialOption)
  : M (ClientConn + error) :=
  fun s =>
    let w := world s in
    let (r, d) := env_dial env w target opts in
    match r with
    | Some err =>
        (inr err, mkState (plugin s) (record (EvDial target opts (inr err)) d w))
    | None =>
        let c := mkConn (fresh w) target opts in
        (inl c, mkState (plugin s)
                  (mkWorld (now w + Z.of_N d) (S (fresh w))
                           (log w ++ [EvDial target opts (inl c)])))
    end.

(** [conn.WaitForStateChange(ctx, connectivity.Connecting)] *)
Definition WaitForStateChange (c : ClientConn) (ctx : Context) : M bool :=
  fun s =>
    let w := world s in
    let (ok, d) := env_wait env w c ctx in
    (ok, mkState (plugin s) (record (EvWaitForStateChange c ctx ok) d w)).

(** What a generated client returns for the outcome of an invocation: the
    reply when the error is nil and a nil reply otherwise. *)
Definition stubResult (r : Resp + error) : option Resp * option error :=
  match r with
  | inl reply => (Some reply, None)
  | inr err => (None, Some err)
  end.

(** One unary invocation on the wire: what the [grpc.UnaryInvoker] at the end
    of the interceptor chain does. *)
Definition invoker (ctx : Context) (svc : Service) (op : Operation)
  (req : Req) (c : ClientConn) : M (option Resp * option error) :=
  fun s =>
    let w := world s in
    let (r, d) := env_invoke env w c ctx svc op req in
    let res := stubResult r in
    (res, mkState (plugin s) (record (EvInvoke c ctx svc op req res d) d w)).

(** The observation of [metrics.DRAGRPCOperationsDuration]; the elapsed time
    is kept as the nanosecond count from which the seconds are computed. *)
Definition Observe (pluginName method code : string) (elapsed : Duration)
  : M unit :=
  emit (EvObserve pluginName method code elapsed) 0.

(** [newMetricsInterceptor(pluginName)] applied to a call. *)
Definition runInterceptor (i : UnaryClientInterceptor) (method : string)
  (invoke : M (option Resp * option error))
  : M (option Resp * option error) :=
  match i with
  | newMetricsInterceptor pluginName =>
      start <- time_Now ;;
      res <- invoke ;;
      t <- time_Now ;;
      Observe pluginName method (Code_String (status_Code (snd res)))
              (t - start) ;;;
      ret res
  end.

(** The interceptors given to [grpc.WithChainUnaryInterceptor] wrap the
    invoker, the first one outermost. *)
Fixpoint chainUnary (ch : list UnaryClientInterceptor) (method : string)
  (invoke : M (option Resp * option error))
  : M (option Resp * option error) :=
  match ch with
  | [] => invoke
  | i :: rest => runInterceptor i method (chainUnary rest method invoke)
  end.

(** [nodeClient.NodePrepareResources(ctx, req)] and
    [nodeClient.NodeUnprepareResources(ctx, req)] of a generated client: one
    unary call on the client's connection, through its interceptors. *)
Definition NodeClient_call (nc : NodeClient) (op : Operation) (ctx : Context)
  (req : Req) : M (option Resp * option error) :=
  let c := nc_conn nc in
  chainUnary (unaryInts (conn_dopts c)) (fullMethod (nc_service nc) op)
             (invoker ctx (nc_service nc) op req c).

(** ** The client functions *)

(** [err != nil && status.Convert(err).Code() == codes.Unimplemented] *)
Definition isUnimplemented (err : option error) : bool :=
  match err with
  | None => false
  | Some _ => Code_eqb (status_Code err) Unimplemented
  end.

(** The options [getOrCreateGRPCConn] dials with. *)
Definition dialOptions (p : Plugin) : list DialOption :=
  [ grpc_WithTransportCredentials_insecure;
    grpc_WithContextDialer "unix";
    grpc_WithChainUnaryInterceptor [newMetricsInterceptor (name p)] ].

Definition errTimedOut : error :=
  errors_New "timed out waiting for gRPC connection to be ready".

(** The method [getOrCreateGRPCConn] of [Plugin]: the connection and the
    version to use, or an error.
    The whole body runs under [p.mutex] (locked on entry, unlocked by defer);
    the lock itself is modelled where calls overlap, in the thread machine
    below. *)
Definition getOrCreateGRPCConn : M ((ClientConn * apiVersion) + error) :=
  p <- get_plugin ;;
  match conn p with
  | Some c => ret (inl (c, supportedAPI p))
  | None =>
      r <- grpc_Dial (endpoint p) (dialOptions p) ;;
      match r with
      | inr err => ret (inr err)
      | inl c =>
          t <- time_Now ;;
          ok <- WaitForStateChange c
                  (context_WithTimeout context_Background time_Second t) ;;
          if negb ok then ret (inr errTimedOut)
          else set_conn c ;;; ret (inl (c, ""%string))
      end
  end.

(** The method [NodePrepareResources] of [Plugin]. *)
Definition NodePrepareResources (ctx : Context) (req : Req)
  : M (option Resp * option error) :=
  r <- getOrCreateGRPCConn ;;
  match r with
  | inr err => ret (None, Some err)
  | inl (conn, supportedAPI) =>
      p <- get_plugin ;;
      t <- time_Now ;;
      let ctx := context_WithTimeout ctx (clientCallTimeout p) t in
      if (supportedAPI =? apiV1beta1)%string then
        let nodeClient := NewNodeClient drapbv1beta1 conn in
        NodeClient_call nodeClient OpPrepare ctx req
      else if (supportedAPI =? apiV1alpha4)%string then
        let nodeClient := NewNodeClient drapbv1alpha4 conn in
        NodeClient_call nodeClient OpPrepare ctx req
      else
        (* Try it, fall back if necessary. *)
        let supportedAPI := apiV1beta1 in
        let nodeClient := NewNodeClient drapbv1beta1 conn in
        res <- NodeClient_call nodeClient OpPrepare ctx req ;;
        '(supportedAPI, res) <-
          (if isUnimplemented (snd res) then
             let supportedAPI := apiV1alpha4 in
             let nodeClient := NewNodeClient drapbv1alpha4 conn in
             res <- NodeClient_call nodeClient OpPrepare ctx req ;;
             ret (supportedAPI, res)
           else ret (supportedAPI, res)) ;;
        (if negb (isUnimplemented (snd res)) then
           (* Store discovered version for future use. *)
           set_supportedAPI supportedAPI
         else ret tt) ;;;
        ret res
  end.

(** The method [NodeUnprepareResources] of [Plugin]. *)
Definition NodeUnprepareResources (ctx : Context) (req : Req)
  : M (option Resp * option error) :=
  r <- getOrCreateGRPCConn ;;
  match r with
  | inr err => ret (None, Some err)
  | inl (conn, supportedAPI) =>
      p <- get_plugin ;;
      t <- time_Now ;;
      let ctx := context_WithTimeout ctx (clientCallTimeout p) t in
      if (supportedAPI =? apiV1beta1)%string then
        let nodeClient := NewNodeClient drapbv1beta1 conn in
        NodeClient_call nodeClient OpUnprepare ctx req
      else if (supportedAPI =? apiV1alpha4)%string then
        let nodeClient := NewNodeClient drapbv1alpha4 conn in
        NodeClient_call nodeClient OpUnprepare ctx req
      else
        (* Try it, fall back if necessary. *)
        let supportedAPI := apiV1beta1 in
        let nodeClient := NewNodeClient drapbv1beta1 conn in
        res <- NodeClient_call nodeClient OpUnprepare ctx req ;;
        '(supportedAPI, res) <-
          (if isUnimplemented (snd res) then
             let supportedAPI := apiV1alpha4 in
             let nodeClient := NewNodeClient drapbv1alpha4 conn in
             res <- NodeClient_call nodeClient OpUnprepare ctx req ;;
             ret (supportedAPI, res)
           else ret (supportedAPI, res)) ;;
        (if negb (isUnimplemented (snd res)) then
           (* Store discovered version for future use. *)
           set_supportedAPI supportedAPI
         else ret tt) ;;;
        ret res
  end.

(** Either dispatch function, by the operation it performs. *)
Definition dispatch (op : Operation) : Context -> Req ->
  M (option Resp * option error) :=
  match op with
  | OpPrepare => NodePrepareResources
  | OpUnprepare => NodeUnprepareResources
  end.

(** A Plugin as the registration code makes it: no connection, no version. *)
Definition coldPlugin (pluginName endpoint : string) (timeout : Duration)
  : Plugin :=
  mkPlugin pluginName None "" endpoint timeout.

(** ** Reading the log *)

(** One unary invocation as the log has it. *)
Record Attempt : Type := mkAttempt {
  at_conn : ClientConn;
  at_ctx : Context;
  at_service : Service;
  at_op : Operation;
  at_req : Req;
  at_res : option Resp * option error;
  at_elapsed : N
}.

Record Observation : Type := mkObservation {
  ob_plugin : string;
  ob_method : string;
  ob_code : string;
  ob_elapsed : Duration
}.

Definition invokesOf (e : Event) : list Attempt :=
  match e with
  | EvInvoke c ctx svc op req res d => [mkAttempt c ctx svc op req res d]
  | _ => []
  end.

Definition observationsOf (e : Event) : list Observation :=
  match e with
  | EvObserve n m c d => [mkObservation n m c d]
  | _ => []
  end.

Definition dialsOf (e : Event) : list (string * (ClientConn + error)) :=
  match e with
  | EvDial target _ res => [(target, res)]
  | _ => []
  end.

Definition waitsOf (e : Event) : list (ClientConn * Context * bool) :=
  match e with
  | EvWaitForStateChange c ctx ok => [(c, ctx, ok)]
  | _ => []
  end.

Definition setConnsOf (e : Event) : list ClientConn :=
  match e with
  | EvSetConn c => [c]
  | _ => []
  end.

Definition setVersionsOf (e : Event) : list apiVersion :=
  match e with
  | EvSetSupportedAPI v => [v]
  | _ => []
  end.

(** The invocations, observations, dials, waits and field writes of a log, in
    order. *)
Definition invokes (l : list Event) : list Attempt := flat_map invokesOf l.
Definition observations (l : list Event) : list Observation :=
  flat_map observationsOf l.
Definition dials (l : list Event) := flat_map dialsOf l.
Definition waits (l : list Event) := flat_map waitsOf l.
Definition setConns (l : list Event) : list ClientConn :=
  flat_map setConnsOf l.
Definition setVersions (l : list Event) : list apiVersion :=
  flat_map setVersionsOf l.

(** A dial that returned an error, a wait that timed out: the two ways in
    which the establishment of a connection fails. *)
Definition failedEstablishment (e : Event) : bool :=
  match e with
  | EvDial _ _ (inr _) => true
  | EvWaitForStateChange _ _ false => true
  | _ => false
  end.

Definition failures (l : list Event) : nat :=
  List.length (filter failedEstablishment l).

(** The observation the metrics interceptor of plugin [n] makes of an
    attempt. *)
Definition observationFor (n : string) (a : Attempt) : Observation :=
  mkObservation n (fullMethod (at_service a) (at_op a))
                (Code_String (status_Code (snd (at_res a))))
                (Z.of_N (at_elapsed a)).

(** The last invocation of a log, if it has one. *)
Definition finalAttempt (l : list Event) : option Attempt :=
  hd_error (rev (invokes l)).

(** The observations the interceptors of connection [c] make of an attempt,
    from the innermost interceptor outwards. *)
Definition connObservations (c : ClientConn) (a : Attempt)
  : list Observation :=
  map (fun i => match i with
                | newMetricsInterceptor n => observationFor n a
                end) (rev (unaryInts (conn_dopts c))).

(** ** The state of a Plugin between calls *)

(** What holds of a Plugin that started cold and was only touched by the
    client functions: a version is cached only once there is a connection,
    and the connection is one that [getOrCreateGRPCConn] dialed. *)
Definition PluginInv (p : Plugin) : Prop :=
  match conn p with
  | None => isUnknown (supportedAPI p) = true
  | Some c => conn_target c = endpoint p /\ conn_dopts c = dialOptions p
  end.

(** A dispatch call: the operation and its arguments. *)
Record Call : Type := mkCall {
  call_op : Operation;
  call_ctx : Context;
  call_req : Req
}.

(** Calls made one after the other, each returning before the next starts. *)
Fixpoint runCalls (calls : list Call)
  : M (list (option Resp * option error)) :=
  match calls with
  | [] => ret []
  | c :: rest =>
      res <- dispatch (call_op c) (call_ctx c) (call_req c) ;;
      ress <- runCalls rest ;;
      ret (res :: ress)
  end.

(** ** One attempt in closed form *)

(** The event an interceptor appends once the invocation under it has
    returned [res] after [d] nanoseconds. *)
Definition observeEvent (svc : Service) (op : Operation)
  (res : option Resp * option error) (d : N) (i : UnaryClientInterceptor)
  : Event :=
  match i with
  | newMetricsInterceptor n =>
      EvObserve n (fullMethod svc op) (Code_String (status_Code (snd res)))
                (Z.of_N d)
  end.

(** The world after one call of a generated client on connection [c]: the
    invocation, then the observations of the interceptors from the innermost
    outwards. *)
Definition attemptWorld (c : ClientConn) (ctx : Context) (svc : Service)
  (op : Operation) (req : Req) (w : World) : World :=
  let (r, d) := env_invoke env w c ctx svc op req in
  let res := stubResult r in
  mkWorld (now w + Z.of_N d) (fresh w)
          (log w ++ EvInvoke c ctx svc op req res d
                 :: map (observeEvent svc op res d)
                        (rev (unaryInts (conn_dopts c)))).

Definition attemptResult (c : ClientConn) (ctx : Context) (svc : Service)
  (op : Operation) (req : Req) (w : World) : option Resp * option error :=
  stubResult (fst (env_invoke env w c ctx svc op req)).

Definition attemptElapsed (c : ClientConn) (ctx : Context) (svc : Service)
  (op : Operation) (req : Req) (w : World) : N :=
  snd (env_invoke env w c ctx svc op req).

(** The attempt on service [svc] started in world [w], as the log has it. *)
Definition attemptOn (c : ClientConn) (ctx : Context) (svc : Service)
  (op : Operation) (req : Req) (w : World) : Attempt :=
  mkAttempt c ctx svc op req (attemptResult c ctx svc op req w)
            (attemptElapsed c ctx svc op req w).

(** ** The dispatch after [getOrCreateGRPCConn], in closed form *)

Definition negotiate (op : Operation) (c : ClientConn) (v : apiVersion)
  (ctx : Context) (req : Req) (s : State)
  : (option Resp * option error) * State :=
  let p := plugin s in
  let w := world s in
  if (v =? apiV1beta1)%string then
    (attemptResult c ctx drapbv1beta1 op req w,
     mkState p (attemptWorld c ctx drapbv1beta1 op req w))
  else if (v =? apiV1alpha4)%string then
    (attemptResult c ctx drapbv1alpha4 op req w,
     mkState p (attemptWorld c ctx drapbv1alpha4 op req w))
  else
    let rB := attemptResult c ctx drapbv1beta1 op req w in
    let wB := attemptWorld c ctx drapbv1beta1 op req w in
    if isUnimplemented (snd rB) then
      let rA := attemptResult c ctx drapbv1alpha4 op req wB in
      let wA := attemptWorld c ctx drapbv1alpha4 op req wB in
      if isUnimplemented (snd rA) then (rA, mkState p wA)
      else (rA, mkState (with_version p apiV1alpha4)
                  (record (EvSetSupportedAPI apiV1alpha4) 0 wA))
    else (rB, mkState (with_version p apiV1beta1)
                (record (EvSetSupportedAPI apiV1beta1) 0 wB)).

(** The context a dispatch function derives once it has its connection. *)
Definition callCtx (ctx : Context) (s : State) : Context :=
  context_WithTimeout ctx (clientCallTimeout (plugin s)) (now (world s)).

(** ** The four ways through [getOrCreateGRPCConn] *)

(** The connection object a successful dial in world [w] returns. *)
Definition dialed (p : Plugin) (w : World) : ClientConn :=
  mkConn (fresh w) (endpoint p) (dialOptions p).

(** The world after a successful dial that took [d] nanoseconds. *)
Definition dialedWorld (p : Plugin) (w : World) (d : N) : World :=
  mkWorld (now w + Z.of_N d) (S (fresh w))
          (log w ++ [EvDial (endpoint p) (dialOptions p) (inl (dialed p w))]).

(** The context of the wait for the state change, started in world [w]. *)
Definition waitCtx (w : World) : Context :=
  context_WithTimeout context_Background time_Second (now w).

Inductive ConnOutcome (s : State)
  : (ClientConn * apiVersion) + error -> State -> Prop :=
| Reused c :
    conn (plugin s) = Some c ->
    ConnOutcome s (inl (c, supportedAPI (plugin s))) s
| DialFailed err d :
    conn (plugin s) = None ->
    env_dial env (world s) (endpoint (plugin s)) (dialOptions (plugin s))
      = (Some err, d) ->
    ConnOutcome s (inr err)
      (mkState (plugin s)
         (record (EvDial (endpoint (plugin s)) (dialOptions (plugin s))
                         (inr err)) d (world s)))
| WaitTimedOut d d' :
    conn (plugin s) = None ->
    env_dial env (world s) (endpoint (plugin s)) (dialOptions (plugin s))
      = (None, d) ->
    let c := dialed (plugin s) (world s) in
    let w1 := dialedWorld (plugin s) (world s) d in
    env_wait env w1 c (waitCtx w1) = (false, d') ->
    ConnOutcome s (inr errTimedOut)
      (mkState (plugin s)
         (record (EvWaitForStateChange c (waitCtx w1) false) d' w1))
| Created d d' :
    conn (plugin s) = None ->
    env_dial env (world s) (endpoint (plugin s)) (dialOptions (plugin s))
      = (None, d) ->
    let c := dialed (plugin s) (world s) in
    let w1 := dialedWorld (plugin s) (world s) d in
    env_wait env w1 c (waitCtx w1) = (true, d') ->
    ConnOutcome s (inl (c, ""%string))
      (mkState (with_conn (plugin s) c)
         (record (EvSetConn c) 0
            (record (EvWaitForStateChange c (waitCtx w1) true) d' w1))).

(** ** Overlapping calls: the thread machine *)

(** Where a goroutine stands inside a dispatch function.  The points follow
    the statements of the source; a point that needs [p.mutex] is named so. *)
Inductive PC : Type :=
| pcLock                                   (* getOrCreateGRPCConn: p.mutex.Lock() *)
| pcCheck                                  (* locked: if p.conn != nil *)
| pcDial                                   (* locked: grpc.Dial *)
| pcWait (c : ClientConn)                  (* locked: conn.WaitForStateChange *)
| pcSetConn (c : ClientConn)               (* locked: p.conn = conn *)
| pcUnlock (r : (ClientConn * apiVersion) + error)
                                           (* deferred p.mutex.Unlock(), return *)
| pcTimeout (c : ClientConn) (v : apiVersion)
                                           (* context.WithTimeout, switch *)
| pcCallDirect (svc : Service) (c : ClientConn) (ctx : Context)
                                           (* a confirmed version: the call *)
| pcCallB (c : ClientConn) (ctx : Context) (* default: the v1beta1 attempt *)
| pcCallA (c : ClientConn) (ctx : Context) (* default: the v1alpha4 attempt *)
| pcStoreLock (v : apiVersion) (res : option Resp * option error)
                                           (* p.mutex.Lock() *)
| pcStore (v : apiVersion) (res : option Resp * option error)
                                           (* locked: p.supportedAPI = supportedAPI *)
| pcStoreUnlock (res : option Resp * option error)
                                           (* p.mutex.Unlock() *)
| pcDone (res : option Resp * option error).

Record Thread : Type := mkThread {
  th_call : Call;
  th_pc : PC
}.

(** The Plugin shared by the goroutines, the holder of its mutex, the world,
    and the goroutines by index. *)
Record Config : Type := mkConfig {
  c_plugin : Plugin;
  c_mutex : option nat;
  c_world : World;
  c_threads : list Thread
}.

(** One statement of goroutine [tid]; [None] when it is blocked on the mutex
    or has returned. *)
Definition stepThread (tid : nat) (call : Call) (pc : PC) (mutex : option nat)
  (s : State) : option (PC * option nat * State) :=
  let p := plugin s in
  match pc with
  | pcLock =>
      match mutex with
      | None => Some (pcCheck, Some tid, s)
      | Some _ => None
      end
  | pcCheck =>
      match conn p with
      | Some c => Some (pcUnlock (inl (c, supportedAPI p)), mutex, s)
      | None => Some (pcDial, mutex, s)
      end
  | pcDial =>
      let (r, s') := grpc_Dial (endpoint p) (dialOptions p) s in
      match r with
      | inr err => Some (pcUnlock (inr err), mutex, s')
      | inl c => Some (pcWait c, mutex, s')
      end
  | pcWait c =>
      let (ok, s') :=
        WaitForStateChange c
          (context_WithTimeout context_Background time_Second (now (world s)))
          s in
      if negb ok then Some (pcUnlock (inr errTimedOut), mutex, s')
      else Some (pcSetConn c, mutex, s')
  | pcSetConn c =>
      let (_, s') := set_conn c s in
      Some (pcUnlock (inl (c, ""%string)), mutex, s')
  | pcUnlock r =>
      match mutex with
      | None => None
      | Some _ =>
          match r with
          | inr err => Some (pcDone (None, Some err), None, s)
          | inl (c, v) => Some (pcTimeout c v, None, s)
          end
      end
  | pcTimeout c v =>
      let ctx := context_WithTimeout (call_ctx call) (clientCallTimeout p)
                                     (now (world s)) in
      if (v =? apiV1beta1)%string then
        Some (pcCallDirect drapbv1beta1 c ctx, mutex, s)
      else if (v =? apiV1alpha4)%string then
        Some (pcCallDirect drapbv1alpha4 c ctx, mutex, s)
      else Some (pcCallB c ctx, mutex, s)
  | pcCallDirect svc c ctx =>
      let (res, s') :=
        NodeClient_call (NewNodeClient svc c) (call_op call) ctx
                        (call_req call) s in
      Some (pcDone res, mutex, s')
  | pcCallB c ctx =>
      let (res, s') :=
        NodeClient_call (NewNodeClient drapbv1beta1 c) (call_op call) ctx
                        (call_req call) s in
      if isUnimplemented (snd res) then Some (pcCallA c ctx, mutex, s')
      else Some (pcStoreLock apiV1beta1 res, mutex, s')
  | pcCallA c ctx =>
      let (res, s') :=
        NodeClient_call (NewNodeClient drapbv1alpha4 c) (call_op call) ctx
                        (call_req call) s in
      if negb (isUnimplemented (snd res))
      then Some (pcStoreLock apiV1alpha4 res, mutex, s')
      else Some (pcDone res, mutex, s')
  | pcStoreLock v res =>
      match mutex with
      | None => Some (pcStore v res, Some tid, s)
      | Some _ => None
      end
  | pcStore v res =>
      let (_, s') := set_supportedAPI v s in
      Some (pcStoreUnlock res, mutex, s')
  | pcStoreUnlock res =>
      match mutex with
      | None => None
      | Some _ => Some (pcDone res, None, s)
      end
  | pcDone _ => None
  end.

Fixpoint updateNth {A} (n : nat) (x : A) (l : list A) : list A :=
  match l, n with
  | [], _ => []
  | _ :: rest, O => x :: rest
  | y :: rest, S n' => y :: updateNth n' x rest
  end.

Definition step (tid : nat) (cfg : Config) : option Config :=
  match nth_error (c_threads cfg) tid with
  | None => None
  | Some th =>
      match stepThread tid (th_call th) (th_pc th) (c_mutex cfg)
                       (mkState (c_plugin cfg) (c_world cfg)) with
      | None => None
      | Some (pc', mutex', s') =>
          Some (mkConfig (plugin s') mutex' (world s')
                  (updateNth tid (mkThread (th_call th) pc') (c_threads cfg)))
      end
  end.

(** A schedule names the goroutine to run next; a goroutine that cannot move
    lets its turn pass. *)
Fixpoint run (sched : list nat) (cfg : Config) : Config :=
  match sched with
  | [] => cfg
  | tid :: rest =>
      run rest (match step tid cfg with
                | Some cfg' => cfg'
                | None => cfg
                end)
  end.

(** All goroutines about to enter their dispatch function. *)
Definition initial (p : Plugin) (w : World) (calls : list Call) : Config :=
  mkConfig p None w (map (fun c => mkThread c pcLock) calls).

(** The connection a goroutine got, or is about to get, from
    [getOrCreateGRPCConn]. *)
Definition pcConn (pc : PC) : option ClientConn :=
  match pc with
  | pcUnlock (inl (c, _)) => Some c
  | pcTimeout c _ => Some c
  | pcCallDirect _ c _ => Some c
  | pcCallB c _ => Some c
  | pcCallA c _ => Some c
  | _ => None
  end.

(** The goroutine runs the part of [getOrCreateGRPCConn] that has found no
    connection. *)
Definition establishing (pc : PC) : bool :=
  match pc with
  | pcDial | pcWait _ | pcSetConn _ => true
  | _ => false
  end.

(** The goroutine is between a Lock and the matching Unlock. *)
Definition holdsLock (pc : PC) : bool :=
  match pc with
  | pcCheck | pcDial | pcWait _ | pcSetConn _ | pcUnlock _
  | pcStore _ _ | pcStoreUnlock _ => true
  | _ => false
  end.

Definition isDone (pc : PC) : bool :=
  match pc with
  | pcDone _ => true
  | _ => false
  end.

(** The goroutine has dialed successfully and has not yet stored or given up
    the connection. *)
Definition inflightPC (pc : PC) : bool :=
  match pc with
  | pcWait _ | pcSetConn _ => true
  | _ => false
  end.

(** The version a goroutine is about to store. *)
Definition pcVersion (pc : PC) : option apiVersion :=
  match pc with
  | pcStoreLock v _ | pcStore v _ => Some v
  | _ => None
  end.

Definition b2n (b : bool) : nat := if b then 1 else 0.

(** 1 when the holder of the mutex has a dialed connection in flight. *)
Definition holderInflight (cfg : Config) : nat :=
  match c_mutex cfg with
  | Some t =>
      match nth_error (c_threads cfg) t with
      | Some th => b2n (inflightPC (th_pc th))
      | None => 0
      end
  | None => 0
  end.

(** What holds of every configuration that the goroutines reach from a cold
    Plugin; [l0] is the log at the start. *)
Record MachineInv (l0 : list Event) (cfg : Config) : Prop := mkMachineInv {
  inv_mutex :
    forall t th, nth_error (c_threads cfg) t = Some th ->
                 (holdsLock (th_pc th) = true <-> c_mutex cfg = Some t);
  inv_holder :
    forall t, c_mutex cfg = Some t -> nth_error (c_threads cfg) t <> None;
  inv_establishing :
    forall t th, nth_error (c_threads cfg) t = Some th ->
                 establishing (th_pc th) = true ->
                 conn (c_plugin cfg) = None;
  inv_conn :
    forall t th c, nth_error (c_threads cfg) t = Some th ->
                   pcConn (th_pc th) = Some c ->
                   conn (c_plugin cfg) = Some c;
  inv_version :
    forall t th v, nth_error (c_threads cfg) t = Some th ->
                   pcVersion (th_pc th) = Some v ->
                   v = apiV1alpha4 \/ v = apiV1beta1;
  inv_log :
    exists evs,
      log (c_world cfg) = (l0 ++ evs)%list /\
      (List.length (dials evs)
       = failures evs + List.length (setConns evs) + holderInflight cfg)%nat /\
      setConns evs = match conn (c_plugin cfg) with
                     | Some c => [c]
                     | None => []
                     end /\
      (forall a, In a (invokes evs) ->
                 conn (c_plugin cfg) = Some (at_conn a)) /\
      (forall v, In v (setVersions evs) ->
                 v = apiV1alpha4 \/ v = apiV1beta1)
}.

(** The number of statements a goroutine at [pc] has left at most. *)
Definition remaining (pc : PC) : nat :=
  match pc with
  | pcLock => 12
  | pcCheck => 11
  | pcDial => 10
  | pcWait _ => 9
  | pcSetConn _ => 8
  | pcUnlock _ => 7
  | pcTimeout _ _ => 6
  | pcCallB _ _ => 5
  | pcCallA _ _ => 4
  | pcCallDirect _ _ _ => 4
  | pcStoreLock _ _ => 3
  | pcStore _ _ => 2
  | pcStoreUnlock _ => 1
  | pcDone _ => 0
  end.

(** The number of turns of a schedule in which the goroutine moved. *)
Fixpoint effective (sched : list nat) (cfg : Config) : nat :=
  match sched with
  | [] => 0
  | tid :: rest =>
      match step tid cfg with
      | Some cfg' => S (effective rest cfg')
      | None => effective rest cfg
      end
  end.

(** Every goroutine has returned. *)
Definition allDone (cfg : Config) : bool :=
  forallb (fun th => isDone (th_pc th)) (c_threads cfg).

Definition remainingAll (cfg : Config) : nat :=
  list_sum (map (fun th => remaining (th_pc th)) (c_threads cfg)).

End Client.

Arguments EvDial {Req Resp} target opts res.
Arguments EvWaitForStateChange {Req Resp} c ctx ok.
Arguments EvObserve {Req Resp} pluginName method code elapsed.
Arguments EvSetConn {Req Resp} c.
Arguments EvSetSupportedAPI {Req Resp} v.
Arguments mkWorld {Req Resp} now fresh log.
Arguments pcLock {Resp}.
Arguments pcCheck {Resp}.
Arguments pcDial {Resp}.
Arguments pcWait {Resp} c.
Arguments pcSetConn {Resp} c.
Arguments pcUnlock {Resp} r.
Arguments pcTimeout {Resp} c v.
Arguments pcCallDirect {Resp} svc c ctx.
Arguments pcCallB {Resp} c ctx.
Arguments pcCallA {Resp} c ctx.
Arguments mkCall {Req} call_op call_ctx call_req.
Arguments observeEvent {Req Resp} fullMethod svc op res d i.

(** ** Concrete plugins and environments *)

Module Scenario.

Definition Req := string.
Definition Resp := string.

(** Method names in the style of the generated clients. *)
Definition methodName (svc : Service) (op : Operation) : string :=
  match svc, op with
  | drapbv1beta1, OpPrepare => "/v1beta1.DRAPlugin/NodePrepareResources"
  | drapbv1beta1, OpUnprepare => "/v1beta1.DRAPlugin/NodeUnprepareResources"
  | drapbv1alpha4, OpPrepare => "/v1alpha3.Node/NodePrepareResources"
  | drapbv1alpha4, OpUnprepare => "/v1alpha3.Node/NodeUnprepareResources"
  end.

Definition reply (op : Operation) : Resp :=
  match op with
  | OpPrepare => "granted"
  | OpUnprepare => "released"
  end.

Definition unimplemented : error :=
  status_Error Unimplemented "unknown service".

(** A world at time 0 in which nothing has happened yet. *)
Definition w0 : World Req Resp := mkWorld 0 0 [].

Definition driverA : Plugin :=
  coldPlugin "driver-A" "/run/plugins/driver-A.sock" (45 * time_Second).

(** A driver that serves only the older contract. *)
Definition alphaOnly : Env Req Resp :=
  mkEnv (fun _ _ _ => (None, 1000%N))
        (fun _ _ _ => (true, 2000%N))
        (fun _ _ _ svc op _ =>
           match svc with
           | drapbv1beta1 => (inr unimplemented, 300%N)
           | drapbv1alpha4 => (inl (reply op), 500%N)
           end).

(** A driver that serves the newer contract. *)
Definition betaOK : Env Req Resp :=
  mkEnv (fun _ _ _ => (None, 1000%N))
        (fun _ _ _ => (true, 2000%N))
        (fun _ _ _ _ op _ => (inl (reply op), 500%N)).

(** A driver that serves neither contract. *)
Definition neither : Env Req Resp :=
  mkEnv (fun _ _ _ => (None, 1000%N))
        (fun _ _ _ => (true, 2000%N))
        (fun _ _ _ _ _ _ => (inr unimplemented, 300%N)).

(** An endpoint at which nothing listens. *)
Definition down : Env Req Resp :=
  mkEnv (fun _ _ _ => (Some (errors_New "dial failed"), 10%N))
        (fun _ _ _ => (true, 2000%N))
        (fun _ _ _ _ op _ => (inl (reply op), 500%N)).

(** A connection that stays in the Connecting state for the whole second. *)
Definition stuck : Env Req Resp :=
  mkEnv (fun _ _ _ => (None, 1000%N))
        (fun _ _ _ => (false, 1000000000%N))
        (fun _ _ _ _ op _ => (inl (reply op), 500%N)).

(** An endpoint whose first dial fails and whose later dials succeed. *)
Definition downOnce : Env Req Resp :=
  mkEnv (fun w _ _ =>
           match dials (log w) with
           | [] => (Some (errors_New "dial failed"), 10%N)
           | _ => (None, 1000%N)
           end)
        (fun _ _ _ => (true, 2000%N))
        (fun _ _ _ _ op _ => (inl (reply op), 500%N)).

(** A driver that serves only the older contract; a call whose context has
    already expired fails with DeadlineExceeded before it reaches the driver. *)
Definition alphaOnlyWithDeadlines : Env Req Resp :=
  mkEnv (fun _ _ _ => (None, 1000%N))
        (fun _ _ _ => (true, 2000%N))
        (fun w _ ctx svc op _ =>
           match Deadline ctx with
           | Some d =>
               if d <=? now w
               then (inr (status_Error DeadlineExceeded
                            "context deadline exceeded"), 0%N)
               else match svc with
                    | drapbv1beta1 => (inr unimplemented, 300%N)
                    | drapbv1alpha4 => (inl (reply op), 500%N)
                    end
           | None =>
               match svc with
               | drapbv1beta1 => (inr unimplemented, 300%N)
               | drapbv1alpha4 => (inl (reply op), 500%N)
               end
           end).

Definition prepare : Call Req :=
  mkCall OpPrepare context_Background "claim-1".
Definition unprepare : Call Req :=
  mkCall OpUnprepare context_Background "claim-1".

(** A caller whose own deadline has passed at time 0. *)
Definition prepareExpired : Call Req :=
  mkCall OpPrepare (callerCtx 7 (Some 0)) "claim-2".

(** The cold driver in the world in which nothing has happened. *)
Definition s0 : State Req Resp := mkState driverA w0.

(** The connection the first dial of [driverA] gives. *)
Definition conn0 : ClientConn := dialed driverA w0.

(** [driverA] after a first prepare against the driver that serves only the
    older contract: connected, v1alpha4 cached. *)
Definition sAlpha : State Req Resp :=
  snd (NodePrepareResources methodName alphaOnly context_Background
         "claim-1" s0).

(** A Plugin with a cached version and no connection: nothing in the client
    functions makes one, some other code would have to. *)
Definition staleAlpha : Plugin :=
  mkPlugin "driver-A" None apiV1alpha4 "/run/plugins/driver-A.sock"
           (45 * time_Second).

(** A caller whose own deadline is at ten seconds. *)
Definition tenSeconds : Context := callerCtx 1 (Some (10 * time_Second)).

(** Two callers on the cold driver; the second asks for the mutex while the
    first holds it and gets it once the first has returned. *)
Definition twoCallers : list (Call Req) := [prepare; prepare].
Definition oneAfterTheOther : list nat :=
  [0; 1; 0; 0; 0; 0; 0; 0; 0; 0; 0; 0; 1; 1; 1; 1; 1; 1; 1; 1; 1; 1; 1; 1]%nat.

Definition bothReadFirst : list nat :=
  [0; 0; 0; 0; 0; 0; 1; 1; 1; 0; 0; 0; 0; 0; 1; 1; 1; 1; 1; 1]%nat.

End Scenario.

(** ** The lookup of a registered plugin *)

Section Lookup.

(** The handle the registry holds for a name, a pointer to a Plugin in the
    source; [draPlugins_get] is the [get] of the package's registry, which is
    not part of these sources. *)
Variable Handle : Type.
Variable draPlugins_get : string -> option Handle.

(** [NewDRAPluginClient(pluginName)]: the registered handle, or an error. *)
Definition NewDRAPluginClient (pluginName : string) : Handle + error :=
  if (pluginName =? "")%string then
    inr (errors_New "plugin name is empty")
  else
    match draPlugins_get pluginName with
    | None =>
        inr (errors_New
               ("plugin name " ++ pluginName
                ++ " not found in the list of registered DRA plugins"))
    | Some existingPlugin => inl existingPlugin
    end.

End Lookup.

(** ** More about the goroutines *)

Section Goroutines.

Variables Req Resp : Type.
Variable env : Env Req Resp.

(** The goroutine is about to make a remote call. *)
Definition atCall (pc : PC Resp) : bool :=
  match pc with
  | pcCallDirect _ _ _ | pcCallB _ _ | pcCallA _ _ => true
  | _ => false
  end.

(** The goroutine is about to ask for the mutex. *)
Definition atLock (pc : PC Resp) : bool :=
  match pc with
  | pcLock | pcStoreLock _ _ => true
  | _ => false
  end.

(** The remote side answers every v1beta1 invocation the same way as far as
    the fallback is concerned: always unimplemented ([b] true) or never. *)
Definition answersV1beta1 (b : bool) : Prop :=
  forall w c ctx op req,
    isUnimplemented (snd (attemptResult env c ctx drapbv1beta1 op req w)) = b.

(** The version such a remote side makes the client store. *)
Definition storedFor (b : bool) : apiVersion :=
  if b then apiV1alpha4 else apiV1beta1.

(** The goroutine leaves [getOrCreateGRPCConn] with an error. *)
Definition gaveUp (pc : PC Resp) : bool :=
  match pc with
  | pcUnlock (inr _) => true
  | _ => false
  end.

(** The goroutine leaves [getOrCreateGRPCConn] with a connection, or has
    left it. *)
Definition pastEstablishment (pc : PC Resp) : bool :=
  match pc with
  | pcUnlock (inl _) | pcTimeout _ _ | pcCallDirect _ _ _ | pcCallB _ _
  | pcCallA _ _ | pcStoreLock _ _ | pcStore _ _ | pcStoreUnlock _
  | pcDone _ => true
  | _ => false
  end.

(** The goroutine has failed to get a connection, or has made its first
    invocation. *)
Definition accounted (pc : PC Resp) : bool :=
  match pc with
  | pcUnlock (inr _) | pcCallA _ _ | pcStoreLock _ _ | pcStore _ _
  | pcStoreUnlock _ | pcDone _ => true
  | _ => false
  end.

Definition accountedAll (cfg : Config Req Resp) : nat :=
  list_sum (map (fun th => b2n (accounted (th_pc th))) (c_threads cfg)).

(** What holds of every configuration that the goroutines reach, whatever
    the Plugin at the start: a goroutine leaves [getOrCreateGRPCConn] with an
    error only after a failed establishment, and otherwise with the
    connection stored; and every goroutine that has failed or has got past
    its first invocation has a failed establishment or an invocation in the
    log. *)
Definition AccountInv (l0 : list (Event Req Resp)) (cfg : Config Req Resp)
  : Prop :=
  exists evs,
    log (c_world cfg) = (l0 ++ evs)%list /\
    (forall t th, nth_error (c_threads cfg) t = Some th ->
                  (gaveUp (th_pc th) = true -> (1 <= failures evs)%nat) /\
                  (pastEstablishment (th_pc th) = true ->
                   conn (c_plugin cfg) <> None \/ (1 <= failures evs)%nat)) /\
    (accountedAll cfg <= failures evs + List.length (invokes evs))%nat.

(** The goroutine is about to make the v1alpha4 attempt of the fallback. *)
Definition atFallback (pc : PC Resp) : bool :=
  match pc with
  | pcCallA _ _ => true
  | _ => false
  end.

(** The mutex is held by exactly the goroutine that is between a Lock and
    the matching Unlock. *)
Definition LockInv (cfg : Config Req Resp) : Prop :=
  (forall t th, nth_error (c_threads cfg) t = Some th ->
                (holdsLock (th_pc th) = true <-> c_mutex cfg = Some t)) /\
  (forall t, c_mutex cfg = Some t -> nth_error (c_threads cfg) t <> None).

(** What holds of every configuration that the goroutines reach from a
    Plugin that has its connection [c0]; [l0] is the log at the start. *)
Definition WarmInv (c0 : ClientConn) (l0 : list (Event Req Resp))
  (cfg : Config Req Resp) : Prop :=
  conn (c_plugin cfg) = Some c0 /\
  (forall t th, nth_error (c_threads cfg) t = Some th ->
                establishing (th_pc th) = false /\
                forall c, pcConn (th_pc th) = Some c -> c = c0) /\
  exists evs,
    log (c_world cfg) = (l0 ++ evs)%list /\
    dials evs = [] /\ waits evs = [] /\ setConns evs = [] /\
    forall a, In a (invokes evs) -> at_conn a = c0.

(** What holds of every configuration that the goroutines reach when the
    remote side answers v1beta1 the same way throughout; [v0] is the version
    the Plugin had at the start. *)
Definition AgreeInv (b : bool) (v0 : apiVersion) (l0 : list (Event Req Resp))
  (cfg : Config Req Resp) : Prop :=
  (supportedAPI (c_plugin cfg) = v0 \/
   supportedAPI (c_plugin cfg) = storedFor b) /\
  (forall t th, nth_error (c_threads cfg) t = Some th ->
                (forall v, pcVersion (th_pc th) = Some v -> v = storedFor b) /\
                (atFallback (th_pc th) = true -> b = true)) /\
  exists evs,
    log (c_world cfg) = (l0 ++ evs)%list /\
    forall v, In v (setVersions evs) -> v = storedFor b.

(** The places a goroutine is at when it found the connection stored and the
    version of service [svc] cached: it holds that version and goes to the
    direct call on that service. *)
Definition directOnly (svc : Service) (pc : PC Resp) : bool :=
  match pc with
  | pcLock | pcCheck | pcDone _ => true
  | pcUnlock (inl (_, v)) | pcTimeout _ v => (v =? apiOf svc)%string
  | pcCallDirect svc' _ _ => Service_eqb svc' svc
  | _ => false
  end.

(** What holds of every configuration that the goroutines reach from a
    Plugin [p] that has its connection [c0] and the version of [svc]
    cached. *)
Definition ConfirmedInv (svc : Service) (c0 : ClientConn) (p : Plugin)
  (l0 : list (Event Req Resp)) (cfg : Config Req Resp) : Prop :=
  c_plugin cfg = p /\
  (forall t th, nth_error (c_threads cfg) t = Some th ->
                directOnly svc (th_pc th) = true /\
                forall c, pcConn (th_pc th) = Some c -> c = c0) /\
  exists evs,
    log (c_world cfg) = (l0 ++ evs)%list /\
    dials evs = [] /\ setConns evs = [] /\ setVersions evs = [] /\
    forall a, In a (invokes evs) -> at_conn a = c0 /\ at_service a = svc.

End Goroutines.

(** ** The cache of node usage of the dynamic-weight scheduler plugin

    [pkg/scheduler/framework/plugins/dynamicweight/cache.go].  The cache maps
    node names to pointers to [NodeUsage] objects; [Set] writes the time
    stamp into the caller's object and stores the pointer, [Get] hands the
    stored pointer out.  Objects live in a heap addressed by [addr]; the nil
    pointer is [None]. *)

Module dynamicweight.

Section Cache.

(** The usage figures are floating-point numbers that the cache only
    carries. *)
Variable float64 : Type.

Record NodeUsage : Type := mkNodeUsage {
  CPU : float64;
  Memory : float64;
  DiskIO : float64;
  Network : float64;
  Timestamp : Time
}.

Definition addr := nat.

(** The [NodeUsage] objects by address. *)
Definition Heap := addr -> NodeUsage.

(** [NodeUsageCache]: the map from node names to pointers, and the timeout.
    The read-write lock only matters between overlapping calls and is left
    out. *)
Record NodeUsageCache : Type := mkCache {
  data : string -> option addr;
  timeout : Duration
}.

(** [NewNodeUsageCache(timeout)] *)
Definition NewNodeUsageCache (timeout : Duration) : NodeUsageCache :=
  mkCache (fun _ => None) timeout.

(** [c.Get(node)] at time [now]: the stored pointer when the entry is younger
    than the timeout, nil otherwise. *)
Definition Get (c : NodeUsageCache) (h : Heap) (now : Time) (node : string)
  : option addr :=
  match data c node with
  | Some entry =>
      if now - Timestamp (h entry) <? timeout c then Some entry else None
  | None => None
  end.

(** [usage.Timestamp = t] *)
Definition stamp (h : Heap) (usage : addr) (t : Time) : Heap :=
  fun a =>
    if Nat.eqb a usage
    then mkNodeUsage (CPU (h a)) (Memory (h a)) (DiskIO (h a)) (Network (h a)) t
    else h a.

(** [c.data[node] = usage] *)
Definition store (c : NodeUsageCache) (node : string) (usage : addr)
  : NodeUsageCache :=
  mkCache (fun n => if (n =? node)%string then Some usage else data c n)
          (timeout c).

(** [c.Set(node, usage)] at time [now]: the cache and the heap afterwards;
    [None] is the panic of the nil pointer dereference, which happens before
    anything is stored. *)
Definition NodeUsageCache_Set (c : NodeUsageCache) (h : Heap) (now : Time)
  (node : string) (usage : option addr) : option (NodeUsageCache * Heap) :=
  match usage with
  | None => None
  | Some u => Some (store c node u, stamp h u now)
  end.

End Cache.

End dynamicweight.

(** ** More concrete plugins and environments *)

Module MoreScenario.
Import Scenario.

(** A registry that holds [driverA] under its name, and, which the
    registration code never does, a plugin under the empty name. *)
Definition registry (n : string) : option Plugin :=
  if (n =? "driver-A")%string then Some driverA
  else if (n =? "")%string then Some staleAlpha
  else None.

(** [driverA] connected, with no version cached yet. *)
Definition sWarm : State Req Resp :=
  snd (getOrCreateGRPCConn alphaOnly s0).

(** Three callers on the connected driver. *)
Definition threeCallers : list (Call Req) := [prepare; unprepare; prepare].
Definition roundRobin : list nat :=
  [0; 1; 2; 0; 1; 2; 0; 1; 2; 0; 1; 2; 0; 1; 2; 0; 1; 2; 0; 1; 2; 0; 1; 2;
   0; 1; 2; 0; 1; 2; 0; 1; 2; 0; 1; 2]%nat.

(** The first caller dials while the second already asks for the mutex. *)
Definition firstDials : list nat := [0; 0; 0]%nat.

(** The first caller is about to make its v1beta1 attempt when the second
    takes the mutex. *)
Definition secondLocksDuringCall : list nat := [0; 0; 0; 0; 0; 0; 0; 1]%nat.

(** Usage figures as percentages, and a heap with two objects. *)
Definition usageHeap : dynamicweight.Heap nat :=
  fun a => dynamicweight.mkNodeUsage 10%nat 20%nat 30%nat 40%nat
             (Z.of_nat a * 1000).

Definition fiveMinutes : Duration := 300 * time_Second.

End MoreScenario.

(** * Properties of the sequential client *)

Section Sequential.

Variables Req Resp : Type.
Variable fullMethod : Service -> Operation -> string.
Variable env : Env Req Resp.

Local Abbreviation St := (State Req Resp).
Local Abbreviation Ev := (Event Req Resp).

(** ** The log projections distribute over concatenation *)

Lemma invokes_app (l1 l2 : list Ev) :
  invokes (l1 ++ l2) = (invokes l1 ++ invokes l2)%list.
Proof. apply flat_map_app. Qed.

Lemma observations_app (l1 l2 : list Ev) :
  observations (l1 ++ l2) = (observations l1 ++ observations l2)%list.
Proof. apply flat_map_app. Qed.

Lemma dials_app (l1 l2 : list Ev) :
  dials (l1 ++ l2) = (dials l1 ++ dials l2)%list.
Proof. apply flat_map_app. Qed.

Lemma waits_app (l1 l2 : list Ev) :
  waits (l1 ++ l2) = (waits l1 ++ waits l2)%list.
Proof. apply flat_map_app. Qed.

Lemma setConns_app (l1 l2 : list Ev) :
  setConns (l1 ++ l2) = (setConns l1 ++ setConns l2)%list.
Proof. apply flat_map_app. Qed.

Lemma setVersions_app (l1 l2 : list Ev) :
  setVersions (l1 ++ l2) = (setVersions l1 ++ setVersions l2)%list.
Proof. apply flat_map_app. Qed.

Lemma failures_app (l1 l2 : list Ev) :
  failures (l1 ++ l2) = (failures l1 + failures l2)%nat.
Proof. unfold failures. now rewrite filter_app, length_app. Qed.

(** ** One attempt *)

(** The interceptor chain around the invoker: the invocation happens once,
    in the world in which the call started, and every interceptor observes
    it afterwards. *)
Lemma chainUnary_eq (ch : list UnaryClientInterceptor) (c : ClientConn)
  (ctx : Context) (svc : Service) (op : Operation) (req : Req) (s : St) :
  chainUnary ch (fullMethod svc op) (invoker env ctx svc op req c) s =
  (let w := world s in
   let (r, d) := env_invoke env w c ctx svc op req in
   let res := stubResult r in
   (res, mkState (plugin s)
           (mkWorld (now w + Z.of_N d) (fresh w)
              (log w ++ EvInvoke c ctx svc op req res d
                     :: map (observeEvent fullMethod svc op res d) (rev ch))))).
Proof.
  induction ch as [|i ch IH]; simpl.
  - unfold invoker, record. destruct (env_invoke env (world s) c ctx svc op req).
    reflexivity.
  - destruct i as [n]. unfold runInterceptor, bind, time_Now at 1.
    rewrite IH. simpl.
    destruct (env_invoke env (world s) c ctx svc op req) as [r d].
    unfold Observe, emit, ret, time_Now, record. simpl.
    f_equal. f_equal.
    rewrite Z.add_0_r, map_app, <- app_assoc. simpl.
    replace (now (world s) + Z.of_N d - now (world s)) with (Z.of_N d) by lia.
    reflexivity.
Qed.

Lemma NodeClient_call_eq (svc : Service) (c : ClientConn) (op : Operation)
  (ctx : Context) (req : Req) (s : St) :
  NodeClient_call fullMethod env (NewNodeClient svc c) op ctx req s =
  (attemptResult env c ctx svc op req (world s),
   mkState (plugin s) (attemptWorld fullMethod env c ctx svc op req (world s))).
Proof.
  unfold NodeClient_call. simpl. rewrite chainUnary_eq.
  unfold attemptResult, attemptWorld. simpl.
  destruct (env_invoke env (world s) c ctx svc op req). reflexivity.
Qed.

Lemma attemptWorld_log (c : ClientConn) (ctx : Context) (svc : Service)
  (op : Operation) (req : Req) (w : World Req Resp) :
  log (attemptWorld fullMethod env c ctx svc op req w) =
  (log w ++
   EvInvoke c ctx svc op req (attemptResult env c ctx svc op req w)
            (attemptElapsed env c ctx svc op req w)
   :: map (observeEvent fullMethod svc op
             (attemptResult env c ctx svc op req w)
             (attemptElapsed env c ctx svc op req w))
          (rev (unaryInts (conn_dopts c))))%list.
Proof.
  unfold attemptWorld, attemptResult, attemptElapsed.
  destruct (env_invoke env w c ctx svc op req). reflexivity.
Qed.

Lemma attemptWorld_now (c : ClientConn) (ctx : Context) (svc : Service)
  (op : Operation) (req : Req) (w : World Req Resp) :
  now (attemptWorld fullMethod env c ctx svc op req w)
  = now w + Z.of_N (attemptElapsed env c ctx svc op req w).
Proof.
  unfold attemptWorld, attemptElapsed.
  destruct (env_invoke env w c ctx svc op req). reflexivity.
Qed.

Lemma invokes_cons (e : Ev) l : invokes (e :: l) = (invokesOf e ++ invokes l)%list.
Proof. reflexivity. Qed.

Lemma observations_cons (e : Ev) l :
  observations (e :: l) = (observationsOf e ++ observations l)%list.
Proof. reflexivity. Qed.

Lemma setVersions_cons (e : Ev) l :
  setVersions (e :: l) = (setVersionsOf e ++ setVersions l)%list.
Proof. reflexivity. Qed.

Lemma dials_cons (e : Ev) l : dials (e :: l) = (dialsOf e ++ dials l)%list.
Proof. reflexivity. Qed.

Lemma setConns_cons (e : Ev) l :
  setConns (e :: l) = (setConnsOf e ++ setConns l)%list.
Proof. reflexivity. Qed.

Lemma failures_cons (e : Ev) l :
  failures (e :: l)
  = ((if failedEstablishment e then 1 else 0) + failures l)%nat.
Proof. unfold failures. simpl. now destruct (failedEstablishment e). Qed.

(** What the interceptors append is observations only. *)
Lemma observe_only svc op (res : option Resp * option error) d l :
  invokes (map (observeEvent (Req:=Req) fullMethod svc op res d) l) = [] /\
  setVersions (map (observeEvent (Req:=Req) fullMethod svc op res d) l) = [] /\
  dials (map (observeEvent (Req:=Req) fullMethod svc op res d) l) = [] /\
  setConns (map (observeEvent (Req:=Req) fullMethod svc op res d) l) = [] /\
  failures (map (observeEvent (Req:=Req) fullMethod svc op res d) l) = 0%nat.
Proof.
  induction l as [|[n] l IH]; cbn [map].
  - now repeat split.
  - rewrite invokes_cons, setVersions_cons, dials_cons, setConns_cons,
      failures_cons.
    exact IH.
Qed.

Lemma observe_observations svc op (res : option Resp * option error) d l :
  observations (map (observeEvent (Req:=Req) fullMethod svc op res d) l)
  = map (fun i => match i with
                  | newMetricsInterceptor n =>
                      mkObservation n (fullMethod svc op)
                        (Code_String (status_Code (snd res))) (Z.of_N d)
                  end) l.
Proof.
  induction l as [|[n] l IH]; cbn [map]; trivial.
  rewrite observations_cons, IH. reflexivity.
Qed.

(** The events one attempt appends: one invocation, and one observation for
    each interceptor of the connection. *)
Lemma attemptWorld_events (c : ClientConn) (ctx : Context) (svc : Service)
  (op : Operation) (req : Req) (w : World Req Resp) :
  exists evs,
    log (attemptWorld fullMethod env c ctx svc op req w) = (log w ++ evs)%list /\
    invokes evs = [attemptOn env c ctx svc op req w] /\
    observations evs
    = connObservations fullMethod c (attemptOn env c ctx svc op req w) /\
    setVersions evs = [] /\ dials evs = [] /\ setConns evs = [] /\
    failures evs = 0%nat.
Proof.
  eexists. split; [apply attemptWorld_log|].
  rewrite invokes_cons, observations_cons, setVersions_cons, dials_cons,
    setConns_cons, failures_cons, observe_observations.
  destruct (observe_only svc op (attemptResult env c ctx svc op req w)
              (attemptElapsed env c ctx svc op req w)
              (rev (unaryInts (conn_dopts c)))) as (-> & -> & -> & -> & ->).
  simpl. repeat split; trivial.
Qed.

(** ** The negotiation *)

Lemma isUnknown_tests (v : apiVersion) :
  isUnknown v = true ->
  (v =? apiV1beta1)%string = false /\ (v =? apiV1alpha4)%string = false.
Proof.
  unfold isUnknown. intros H. apply andb_prop in H. destruct H as [H1 H2].
  split; now apply negb_true_iff.
Qed.

Lemma isUnknown_confirmed (v : apiVersion) :
  isUnknown v = false -> exists svc, apiOf svc = v.
Proof.
  unfold isUnknown. intros H. apply andb_false_iff in H.
  destruct H as [H|H]; apply negb_false_iff, String.eqb_eq in H.
  - now exists drapbv1beta1.
  - now exists drapbv1alpha4.
Qed.

(** With a confirmed version the negotiation is one attempt on that
    version, and the Plugin stays as it is. *)
Lemma negotiate_confirmed (op : Operation) (c : ClientConn) (svc : Service)
  (ctx : Context) (req : Req) (s : St) :
  negotiate fullMethod env op c (apiOf svc) ctx req s
  = (attemptResult env c ctx svc op req (world s),
     mkState (plugin s) (attemptWorld fullMethod env c ctx svc op req (world s))).
Proof. destruct svc; reflexivity. Qed.

(** With an unknown version: the v1beta1 attempt, the v1alpha4 attempt when
    the first one was unimplemented, and the store of the version whose
    attempt was not. *)
Lemma negotiate_unknown (op : Operation) (c : ClientConn) (v : apiVersion)
  (ctx : Context) (req : Req) (s : St) :
  isUnknown v = true ->
  let b := attemptOn env c ctx drapbv1beta1 op req (world s) in
  let wB := attemptWorld fullMethod env c ctx drapbv1beta1 op req (world s) in
  let a := attemptOn env c ctx drapbv1alpha4 op req wB in
  let r := negotiate fullMethod env op c v ctx req s in
  exists evs,
    log (world (snd r)) = (log (world s) ++ evs)%list /\
    dials evs = [] /\ setConns evs = [] /\ failures evs = 0%nat /\
    observations evs = flat_map (connObservations fullMethod c) (invokes evs) /\
    if isUnimplemented (snd (at_res b)) then
      invokes evs = [b; a] /\ fst r = at_res a /\
      if isUnimplemented (snd (at_res a)) then
        setVersions evs = [] /\ plugin (snd r) = plugin s
      else
        setVersions evs = [apiV1alpha4] /\
        plugin (snd r) = with_version (plugin s) apiV1alpha4
    else
      invokes evs = [b] /\ fst r = at_res b /\
      setVersions evs = [apiV1beta1] /\
      plugin (snd r) = with_version (plugin s) apiV1beta1.
Proof.
  intros Hv b wB a r. subst r. unfold negotiate.
  destruct (isUnknown_tests _ Hv) as [-> ->].
  fold wB. change (attemptResult env c ctx drapbv1beta1 op req (world s))
    with (at_res b).
  change (attemptResult env c ctx drapbv1alpha4 op req wB) with (at_res a).
  destruct (attemptWorld_events c ctx drapbv1beta1 op req (world s))
    as (eB & LB & IB & OB & VB & DB & CB & FB).
  destruct (attemptWorld_events c ctx drapbv1alpha4 op req wB)
    as (eA & LA & IA & OA & VA & DA & CA & FA).
  fold wB in LB. fold b in IB, OB. fold a in IA, OA.
  destruct (isUnimplemented (snd (at_res b))).
  - destruct (isUnimplemented (snd (at_res a))); cbn [snd fst world plugin].
    + exists (eB ++ eA)%list.
      rewrite LA, LB, <- app_assoc, dials_app, setConns_app, failures_app,
        observations_app, invokes_app, setVersions_app.
      rewrite DB, DA, CB, CA, FB, FA, OB, OA, IB, IA, VB, VA. simpl.
      rewrite app_nil_r. repeat split; trivial.
    + exists (eB ++ eA ++ [EvSetSupportedAPI apiV1alpha4])%list.
      unfold record. cbn [log].
      rewrite LA, LB, <- !app_assoc.
      rewrite !dials_app, !setConns_app, !failures_app,
        !observations_app, !invokes_app, !setVersions_app.
      rewrite DB, DA, CB, CA, FB, FA, OB, OA, IB, IA, VB, VA. simpl.
      rewrite !app_nil_r. repeat split; trivial.
  - cbn [snd fst world plugin].
    exists (eB ++ [EvSetSupportedAPI apiV1beta1])%list.
    unfold record. cbn [log].
    rewrite LB, <- !app_assoc.
    rewrite !dials_app, !setConns_app, !failures_app,
      !observations_app, !invokes_app, !setVersions_app.
    rewrite DB, CB, FB, OB, IB, VB. simpl.
    rewrite !app_nil_r. repeat split; trivial.
Qed.

(** ** The connection manager *)

Lemma getOrCreateGRPCConn_outcome (s : St) :
  ConnOutcome env s (fst (getOrCreateGRPCConn env s))
              (snd (getOrCreateGRPCConn env s)).
Proof.
  unfold getOrCreateGRPCConn, bind, get_plugin.
  destruct (conn (plugin s)) as [c|] eqn:Hc.
  - simpl. now apply Reused.
  - unfold grpc_Dial.
    destruct (env_dial env (world s) (endpoint (plugin s))
                (dialOptions (plugin s))) as [[err|] d] eqn:Hd.
    + simpl. now apply DialFailed.
    + unfold time_Now, WaitForStateChange. cbn [world plugin now].
      destruct (env_wait env
                  (mkWorld (now (world s) + Z.of_N d) (S (fresh (world s)))
                     (log (world s) ++
                      [EvDial (endpoint (plugin s)) (dialOptions (plugin s))
                         (inl (mkConn (fresh (world s)) (endpoint (plugin s))
                                      (dialOptions (plugin s))))]))
                  (mkConn (fresh (world s)) (endpoint (plugin s))
                          (dialOptions (plugin s)))
                  (context_WithTimeout context_Background time_Second
                     (now (world s) + Z.of_N d))) as [[|] d'] eqn:Hw.
      * simpl. now apply (Created env s Hc Hd).
      * simpl. now apply (WaitTimedOut env s Hc Hd).
Qed.

Lemma getOrCreateGRPCConn_cases (s : St) r s1 :
  getOrCreateGRPCConn env s = (r, s1) -> ConnOutcome env s r s1.
Proof.
  intros H. pose proof (getOrCreateGRPCConn_outcome s) as O.
  now rewrite H in O.
Qed.

(** Either dispatch function is [getOrCreateGRPCConn] followed by the
    negotiation in the derived context. *)
Lemma dispatch_eq (op : Operation) (ctx : Context) (req : Req) (s : St) :
  dispatch fullMethod env op ctx req s =
  match getOrCreateGRPCConn env s with
  | (inr err, s1) => ((None, Some err), s1)
  | (inl (c, v), s1) =>
      negotiate fullMethod env op c v (callCtx ctx s1) req s1
  end.
Proof.
  destruct op; unfold dispatch, NodePrepareResources, NodeUnprepareResources;
    unfold bind at 1;
    destruct (getOrCreateGRPCConn env s) as [[[c v]|err] s1];
    try reflexivity;
    unfold negotiate, callCtx, bind, get_plugin, time_Now;
    destruct (v =? apiV1beta1)%string;
    try (rewrite NodeClient_call_eq; reflexivity);
    destruct (v =? apiV1alpha4)%string;
    try (rewrite NodeClient_call_eq; reflexivity);
    rewrite NodeClient_call_eq; cbv zeta; cbn [snd fst plugin world];
    destruct (isUnimplemented
                (snd (attemptResult env c
                        (context_WithTimeout ctx (clientCallTimeout (plugin s1))
                           (now (world s1)))
                        drapbv1beta1 _ req (world s1)))) eqn:HB;
    try rewrite NodeClient_call_eq; unfold ret; cbn [snd fst plugin world];
    try rewrite HB; cbn [negb];
    try (destruct (isUnimplemented
                (snd (attemptResult env c
                        (context_WithTimeout ctx (clientCallTimeout (plugin s1))
                           (now (world s1)))
                        drapbv1alpha4 _ req _))) eqn:HA; cbn [negb]);
    reflexivity.
Qed.

(** What a successful [getOrCreateGRPCConn] leaves behind: the returned
    connection is the stored one, no other field changed, and nothing but
    connection establishment went to the log. *)
Lemma ConnOutcome_ok (s s1 : St) (c : ClientConn) (v : apiVersion) :
  ConnOutcome env s (inl (c, v)) s1 ->
  conn (plugin s1) = Some c /\
  name (plugin s1) = name (plugin s) /\
  supportedAPI (plugin s1) = supportedAPI (plugin s) /\
  endpoint (plugin s1) = endpoint (plugin s) /\
  clientCallTimeout (plugin s1) = clientCallTimeout (plugin s) /\
  v = match conn (plugin s) with
      | Some _ => supportedAPI (plugin s)
      | None => ""%string
      end /\
  exists evs, log (world s1) = (log (world s) ++ evs)%list /\
              invokes evs = [] /\ observations evs = [] /\
              setVersions evs = [] /\ failures evs = 0%nat.
Proof.
  intros O. inversion O; subst.
  - rewrite H2. repeat split; trivial.
    exists []. now rewrite app_nil_r.
  - rewrite H1. simpl. repeat split; trivial.
    eexists. split.
    + rewrite <- !app_assoc. reflexivity.
    + now simpl.
Qed.

(** What a failed one leaves behind: the Plugin as it was, and one dial in
    the log, followed by one wait when the dial itself succeeded. *)
Lemma ConnOutcome_err (s s1 : St) (err : error) :
  ConnOutcome env s (inr err) s1 ->
  plugin s1 = plugin s /\ conn (plugin s) = None /\
  exists evs, log (world s1) = (log (world s) ++ evs)%list /\
              invokes evs = [] /\ observations evs = [] /\
              setVersions evs = [] /\ setConns evs = [] /\
              failures evs = 1%nat /\
              ((dials evs = [(endpoint (plugin s), inr err)] /\ waits evs = [])
               \/
               (exists c ctx d,
                   dials evs = [(endpoint (plugin s), inl c)] /\
                   waits evs = [(c, ctx, false)] /\
                   Deadline ctx
                     = Some (now (world s) + Z.of_N d + time_Second) /\
                   err = errTimedOut)).
Proof.
  intros O. inversion O; subst.
  - repeat split; trivial.
    eexists. split; [reflexivity|]. simpl. repeat split; trivial.
    left. now split.
  - repeat split; trivial.
    eexists. split.
    + simpl. rewrite <- app_assoc. reflexivity.
    + simpl. repeat split; trivial.
      right. exists c, (waitCtx w1), d. repeat split; trivial.
Qed.

(** With no connection stored, [getOrCreateGRPCConn] dials, once. *)
Lemma ConnOutcome_dials_once (s s1 : St) r :
  conn (plugin s) = None ->
  ConnOutcome env s r s1 ->
  exists evs, log (world s1) = (log (world s) ++ evs)%list /\
              List.length (dials evs) = 1%nat.
Proof.
  intros Hc O. inversion O; subst; try congruence.
  - eexists. split; [reflexivity|]. reflexivity.
  - eexists. split; [simpl; rewrite <- app_assoc; reflexivity|]. reflexivity.
  - eexists. split; [simpl; rewrite <- !app_assoc; reflexivity|]. reflexivity.
Qed.

Lemma getOrCreateGRPCConn_reuse (s : St) c :
  conn (plugin s) = Some c ->
  getOrCreateGRPCConn env s = (inl (c, supportedAPI (plugin s)), s).
Proof.
  intros Hc. unfold getOrCreateGRPCConn, bind, get_plugin. now rewrite Hc.
Qed.


(** C6.  When [getOrCreateGRPCConn] fails, because the dial returned an
    error or because the wait of one second for the state change expired,
    it returns the error and leaves the Plugin as it was, without a
    connection, so that the next call dials again; and either dispatch
    function returns that error with a nil response in the very state
    [getOrCreateGRPCConn] left: one dial, no invocation, no second try. *)
Theorem C6_connection_error_returned_unchanged
  (s s1 : St) (err : error) :
  getOrCreateGRPCConn env s = (inr err, s1) ->
  (exists evs, log (world s1) = (log (world s) ++ evs)%list /\
               List.length (dials evs) = 1%nat /\
               invokes evs = [] /\ setConns evs = [] /\
               ((dials evs = [(endpoint (plugin s), inr err)] /\ waits evs = [])
                \/
                (exists c ctx d,
                    dials evs = [(endpoint (plugin s), inl c)] /\
                    waits evs = [(c, ctx, false)] /\
                    Deadline ctx
                      = Some (now (world s) + Z.of_N d + time_Second) /\
                    err = errTimedOut))) /\
  plugin s1 = plugin s /\
  conn (plugin s1) = None /\
  (exists evs', log (world (snd (getOrCreateGRPCConn env s1)))
                  = (log (world s1) ++ evs')%list /\
                List.length (dials evs') = 1%nat) /\
  forall op ctx req,
    dispatch fullMethod env op ctx req s = ((None, Some err), s1).
Proof.
  intros H. pose proof H as O. apply getOrCreateGRPCConn_cases in O.
  apply ConnOutcome_err in O.
  destruct O as (Hp & Hc & evs & Hlog & Hi & _ & _ & Hs & _ & Hd).
  split; [|split; [|split; [|split]]]; trivial.
  - exists evs. repeat split; trivial.
    destruct Hd as [[-> _]|(c & ctx & d & -> & _)]; reflexivity.
  - now rewrite Hp.
  - apply ConnOutcome_dials_once with (r := fst (getOrCreateGRPCConn env s1)).
    + now rewrite Hp.
    + apply getOrCreateGRPCConn_outcome.
  - intros op ctx req. rewrite dispatch_eq, H. reflexivity.
Qed.

(** C9.  With a connection stored, [getOrCreateGRPCConn] returns that very
    connection and leaves the Plugin and the world untouched: no dial, no
    wait, no time passes.  Hence after a first call that succeeded, a second
    call returns the identical connection object. *)
Theorem C9_stored_connection_is_reused :
  (forall (s : St) c,
      conn (plugin s) = Some c ->
      getOrCreateGRPCConn env s = (inl (c, supportedAPI (plugin s)), s)) /\
  (forall (s s1 : St) c v,
      getOrCreateGRPCConn env s = (inl (c, v), s1) ->
      getOrCreateGRPCConn env s1 = (inl (c, supportedAPI (plugin s1)), s1)).
Proof.
  pose proof getOrCreateGRPCConn_reuse as R.
  split; trivial.
  intros s s1 c v H. apply R.
  apply getOrCreateGRPCConn_cases in H. now apply ConnOutcome_ok in H.
Qed.

(** ** The dispatch functions *)

Lemma dispatch_ok (op : Operation) (ctx : Context) (req : Req) (s s1 : St)
  c v :
  getOrCreateGRPCConn env s = (inl (c, v), s1) ->
  dispatch fullMethod env op ctx req s
  = negotiate fullMethod env op c v (callCtx ctx s1) req s1.
Proof. intros H. now rewrite dispatch_eq, H. Qed.

(** The version [getOrCreateGRPCConn] returns for a Plugin whose cached
    version is unknown is unknown. *)
Lemma returned_version_unknown (s s1 : St) c v :
  isUnknown (supportedAPI (plugin s)) = true ->
  ConnOutcome env s (inl (c, v)) s1 -> isUnknown v = true.
Proof.
  intros Hu O. apply ConnOutcome_ok in O.
  destruct O as (_ & _ & _ & _ & _ & -> & _).
  now destruct (conn (plugin s)).
Qed.

(** C1.  A call to either dispatch function on a Plugin whose cached version
    is unknown, once it has its connection [c], invokes v1beta1 first; if and
    only if that attempt is unimplemented it invokes v1alpha4, once, on the
    same connection with the same derived context, and returns the response
    and error of that second attempt; otherwise the first attempt is the
    only one and its response and error are returned. *)
Theorem C1_unknown_version_tries_v1beta1_then_v1alpha4
  (op : Operation) (ctx : Context) (req : Req) (s s1 : St) c v :
  isUnknown (supportedAPI (plugin s)) = true ->
  getOrCreateGRPCConn env s = (inl (c, v), s1) ->
  let r := dispatch fullMethod env op ctx req s in
  let ctx' := callCtx ctx s1 in
  let b := attemptOn env c ctx' drapbv1beta1 op req (world s1) in
  let a := attemptOn env c ctx' drapbv1alpha4 op req
             (attemptWorld fullMethod env c ctx' drapbv1beta1 op req
                (world s1)) in
  exists evs,
    log (world (snd r)) = (log (world s) ++ evs)%list /\
    if isUnimplemented (snd (at_res b))
    then invokes evs = [b; a] /\ fst r = at_res a
    else invokes evs = [b] /\ fst r = at_res b.
Proof.
  intros Hu H r ctx' b a. subst r.
  erewrite dispatch_ok by eassumption. fold ctx'.
  apply getOrCreateGRPCConn_cases in H.
  assert (Hv : isUnknown v = true)
    by (eapply returned_version_unknown; eassumption).
  apply ConnOutcome_ok in H.
  destruct H as (_ & _ & _ & _ & _ & _ & e1 & L1 & I1 & _).
  destruct (@negotiate_unknown op c v ctx' req s1 Hv)
    as (e2 & L2 & _ & _ & _ & _ & N).
  fold b in N. fold a in N.
  exists (e1 ++ e2)%list. rewrite L2, L1, <- app_assoc, invokes_app, I1.
  split; trivial. cbn [app].
  revert N.
  destruct (isUnimplemented (snd (at_res b))); intros (N1 & N2 & _);
    now split.
Qed.

Lemma isUnimplemented_true (err : option error) :
  isUnimplemented err = true ->
  exists e, err = Some e /\ status_Code (Some e) = Unimplemented.
Proof.
  destruct err as [e|]; [|discriminate].
  unfold isUnimplemented. intros H. exists e. split; trivial.
  destruct (status_Code (Some e)); try discriminate H; reflexivity.
Qed.

(** C2.  A dispatch on a Plugin whose cached version is unknown.  When
    [getOrCreateGRPCConn] returns a connection, the dispatch makes the
    v1beta1 attempt, and the v1alpha4 attempt exactly when the first one is
    unimplemented, and returns the outcome of the last of them; it writes the
    cached version exactly when that last attempt is not unimplemented, and
    writes the version of that attempt; when both attempts are unimplemented
    nothing is written, the version stays as it was and the unimplemented
    error of the second attempt is returned.  Only when
    [getOrCreateGRPCConn] returns an error is no attempt made: then nothing
    is written, the Plugin is left as it was and that error is returned. *)
Theorem C2_version_stored_unless_unimplemented
  (op : Operation) (ctx : Context) (req : Req) (s : St) :
  isUnknown (supportedAPI (plugin s)) = true ->
  let r := dispatch fullMethod env op ctx req s in
  let s1 := snd (getOrCreateGRPCConn env s) in
  exists evs,
    log (world (snd r)) = (log (world s) ++ evs)%list /\
    match fst (getOrCreateGRPCConn env s) with
    | inl (c, v) =>
        let b := attemptOn env c (callCtx ctx s1) drapbv1beta1 op req
                           (world s1) in
        let a2 := attemptOn env c (callCtx ctx s1) drapbv1alpha4 op req
                    (attemptWorld fullMethod env c (callCtx ctx s1)
                       drapbv1beta1 op req (world s1)) in
        let a := if isUnimplemented (snd (at_res b)) then a2 else b in
        invokes evs
        = (if isUnimplemented (snd (at_res b)) then [b; a2] else [b]) /\
        finalAttempt evs = Some a /\
        fst r = at_res a /\
        (setVersions evs <> [] <-> isUnimplemented (snd (at_res a)) = false) /\
        if isUnimplemented (snd (at_res a)) then
          setVersions evs = [] /\
          supportedAPI (plugin (snd r)) = supportedAPI (plugin s) /\
          isUnimplemented (snd (at_res b)) = true /\
          at_service a = drapbv1alpha4 /\
          (exists e, snd (fst r) = Some e /\
                     status_Code (Some e) = Unimplemented)
        else
          setVersions evs = [apiOf (at_service a)] /\
          supportedAPI (plugin (snd r)) = apiOf (at_service a)
    | inr err =>
        invokes evs = [] /\ finalAttempt evs = None /\
        setVersions evs = [] /\
        plugin (snd r) = plugin s /\
        fst r = (None, Some err)
    end.
Proof.
  intros Hu r s1. subst r s1.
  destruct (getOrCreateGRPCConn env s) as [[[c v]|err] s1] eqn:H.
  - erewrite dispatch_ok by eassumption. cbn [fst snd].
    apply getOrCreateGRPCConn_cases in H.
    assert (Hv : isUnknown v = true)
      by (eapply returned_version_unknown; eassumption).
    apply ConnOutcome_ok in H.
    destruct H as (_ & _ & HS & _ & _ & _ & e1 & L1 & I1 & _ & V1 & _).
    destruct (@negotiate_unknown op c v (callCtx ctx s1) req s1 Hv)
      as (e2 & L2 & _ & _ & _ & _ & N).
    exists (e1 ++ e2)%list. rewrite L2, L1, <- app_assoc.
    split; trivial.
    unfold finalAttempt. rewrite invokes_app, setVersions_app, I1, V1.
    cbn [app]. revert N.
    destruct (isUnimplemented
                (snd (at_res (attemptOn env c (callCtx ctx s1) drapbv1beta1
                                op req (world s1))))) eqn:EB.
    + intros (-> & -> & N). cbn [rev app hd_error].
      split; trivial. split; trivial. split; trivial.
      revert N.
      destruct (isUnimplemented
                  (snd (at_res (attemptOn env c (callCtx ctx s1)
                                  drapbv1alpha4 op req _)))) eqn:EA.
      * intros (-> & ->). split; [split; congruence|].
        repeat split; trivial. now apply isUnimplemented_true.
      * intros (-> & ->). split; [split; congruence|]. now split.
    + intros (-> & -> & -> & ->). cbn [rev app hd_error].
      split; trivial. split; trivial. split; trivial.
      rewrite EB. split; [split; congruence|]. now split.
  - rewrite dispatch_eq, H. cbn [fst snd].
    apply getOrCreateGRPCConn_cases, ConnOutcome_err in H.
    destruct H as (P & _ & evs & L & I & _ & V & _).
    exists evs. split; trivial.
    unfold finalAttempt. rewrite I. cbn [rev hd_error].
    repeat split; trivial.
Qed.

(** Whatever the version, the negotiation invokes at least once, always on
    the connection, in the context and with the request it was given; every
    invocation is observed by the interceptors of the connection; and of the
    Plugin only the cached version can change. *)
Lemma negotiate_any (op : Operation) (c : ClientConn) (v : apiVersion)
  (ctx : Context) (req : Req) (s : St) :
  let r := negotiate fullMethod env op c v ctx req s in
  exists evs,
    log (world (snd r)) = (log (world s) ++ evs)%list /\
    invokes evs <> [] /\
    (forall a, In a (invokes evs) ->
               at_conn a = c /\ at_ctx a = ctx /\ at_op a = op /\
               at_req a = req) /\
    observations evs = flat_map (connObservations fullMethod c) (invokes evs) /\
    dials evs = [] /\ setConns evs = [] /\ failures evs = 0%nat /\
    (plugin (snd r) = plugin s \/
     exists v', plugin (snd r) = with_version (plugin s) v').
Proof.
  intros r. subst r. destruct (isUnknown v) eqn:Hv.
  - destruct (@negotiate_unknown op c v ctx req s Hv)
      as (evs & L & D & C & F & O & N).
    exists evs.
    split; [exact L|].
    split; [|split; [|split; [exact O|split; [exact D|split;
      [exact C|split; [exact F|]]]]]];
      revert N;
      destruct (isUnimplemented
                  (snd (at_res (attemptOn env c ctx drapbv1beta1 op req
                                  (world s))))).
    + intros (-> & _). discriminate.
    + intros (-> & _). discriminate.
    + intros (-> & _) x [<-|[<-|[]]]; now repeat split.
    + intros (-> & _) x [<-|[]]; now repeat split.
    + intros (_ & _ & N).
      destruct (isUnimplemented
                  (snd (at_res (attemptOn env c ctx drapbv1alpha4 op req _))));
        destruct N as [_ ->]; [now left|right; now eexists].
    + intros (_ & _ & _ & ->). right. now eexists.
  - destruct (isUnknown_confirmed _ Hv) as [svc <-].
    rewrite negotiate_confirmed. cbn [snd fst world plugin].
    destruct (attemptWorld_events c ctx svc op req (world s))
      as (evs & L & I & O & V & D & C & F).
    exists evs. rewrite I.
    split; [exact L|].
    split; [discriminate|].
    split; [intros x [<-|[]]; now repeat split|].
    split; [simpl; now rewrite app_nil_r|].
    repeat split; trivial. now left.
Qed.


Lemma PluginInv_cold (n e : string) (t : Duration) :
  PluginInv (coldPlugin n e t).
Proof. reflexivity. Qed.

(** C3.  A call to either dispatch function on a Plugin whose cached version
    is confirmed (the Plugin being one that the client functions made: it has
    its connection) makes exactly one invocation, on the service of the
    cached version, returns the outcome of that invocation whatever it is,
    dials nothing and leaves the Plugin as it was.  In particular no attempt
    is made on the other version. *)
Theorem C3_confirmed_version_dispatches_directly
  (op : Operation) (ctx : Context) (req : Req) (s : St) :
  PluginInv (plugin s) ->
  isUnknown (supportedAPI (plugin s)) = false ->
  let r := dispatch fullMethod env op ctx req s in
  exists c svc,
    conn (plugin s) = Some c /\
    apiOf svc = supportedAPI (plugin s) /\
    let a := attemptOn env c (callCtx ctx s) svc op req (world s) in
    fst r = at_res a /\
    plugin (snd r) = plugin s /\
    exists evs,
      log (world (snd r)) = (log (world s) ++ evs)%list /\
      invokes evs = [a] /\ dials evs = [] /\ setVersions evs = [].
Proof.
  intros I Hv r. subst r.
  destruct (conn (plugin s)) as [c|] eqn:Hc.
  - destruct (isUnknown_confirmed _ Hv) as [svc Hs].
    assert (E : dispatch fullMethod env op ctx req s
                = negotiate fullMethod env op c (apiOf svc) (callCtx ctx s)
                            req s).
    { rewrite Hs. apply dispatch_ok. now apply getOrCreateGRPCConn_reuse. }
    rewrite E, negotiate_confirmed.
    exists c, svc. repeat split; trivial.
    cbn [snd fst world plugin].
    destruct (attemptWorld_events c (callCtx ctx s) svc op req (world s))
      as (evs & L & Iv & O & V & D & C & F).
    exists evs. now repeat split.
  - unfold PluginInv in I. rewrite Hc in I. congruence.
Qed.

Lemma Deadline_WithTimeout (ctx : Context) (d : Duration) (t : Time) :
  Deadline (context_WithTimeout ctx d t)
  = Some (tighter (Deadline ctx) (t + d)).
Proof.
  unfold context_WithTimeout, context_WithDeadline, tighter.
  destruct (Deadline ctx) as [cur|] eqn:E; trivial.
  destruct (cur <? t + d) eqn:L; simpl.
  - rewrite E. apply Z.ltb_lt in L. f_equal. lia.
  - apply Z.ltb_ge in L. f_equal. lia.
Qed.

(** C7.  Every invocation a dispatch makes carries the context derived from
    the caller's context with the Plugin's call timeout, at the time at which
    [getOrCreateGRPCConn] had returned; its deadline is the tighter of the
    caller's deadline, if any, and that time plus the call timeout. *)
Theorem C7_call_deadline_is_the_tighter_one
  (op : Operation) (ctx : Context) (req : Req) (s s1 : St) c v :
  getOrCreateGRPCConn env s = (inl (c, v), s1) ->
  let r := dispatch fullMethod env op ctx req s in
  exists evs,
    log (world (snd r)) = (log (world s) ++ evs)%list /\
    invokes evs <> [] /\
    forall a, In a (invokes evs) ->
      at_ctx a = context_WithTimeout ctx (clientCallTimeout (plugin s))
                                     (now (world s1)) /\
      Deadline (at_ctx a)
      = Some (tighter (Deadline ctx)
                      (now (world s1) + clientCallTimeout (plugin s))).
Proof.
  intros H r. subst r.
  erewrite dispatch_ok by eassumption.
  apply getOrCreateGRPCConn_cases, ConnOutcome_ok in H.
  destruct H as (_ & _ & _ & _ & HT & _ & e1 & L1 & I1 & _).
  destruct (negotiate_any op c v (callCtx ctx s1) req s1)
    as (e2 & L2 & NE & A & _).
  exists (e1 ++ e2)%list.
  rewrite L2, L1, <- app_assoc, invokes_app, I1. cbn [app].
  repeat split; trivial.
  - apply A in H. destruct H as (_ & -> & _).
    unfold callCtx. now rewrite HT.
  - apply A in H. destruct H as (_ & -> & _).
    unfold callCtx. rewrite HT. apply Deadline_WithTimeout.
Qed.




(** C10.  When [getOrCreateGRPCConn] establishes the connection it returns
    the empty version, whatever [supportedAPI] holds, so that the dispatch it
    serves starts with the v1beta1 attempt; the cached version is returned
    only together with a connection that was already stored. *)
Theorem C10_fresh_connection_returns_unknown_version
  (s s1 : St) c v :
  getOrCreateGRPCConn env s = (inl (c, v), s1) ->
  (conn (plugin s) = None ->
   v = ""%string /\ isUnknown v = true /\
   forall op ctx req,
     exists evs rest,
       log (world (snd (dispatch fullMethod env op ctx req s)))
       = (log (world s) ++ evs)%list /\
       invokes evs
       = attemptOn env c (callCtx ctx s1) drapbv1beta1 op req (world s1)
         :: rest) /\
  (forall c0, conn (plugin s) = Some c0 ->
              c = c0 /\ v = supportedAPI (plugin s) /\ s1 = s).
Proof.
  intros H. split.
  - intros Hc. pose proof H as O.
    apply getOrCreateGRPCConn_cases, ConnOutcome_ok in O.
    destruct O as (_ & _ & _ & _ & _ & Hv & e1 & L1 & I1 & _).
    rewrite Hc in Hv. subst v. repeat split; trivial.
    intros op ctx req. erewrite dispatch_ok by eassumption.
    destruct (@negotiate_unknown op c ""%string (callCtx ctx s1) req s1
                eq_refl) as (e2 & L2 & _ & _ & _ & _ & N).
    exists (e1 ++ e2)%list. revert N.
    destruct (isUnimplemented _).
    + intros (N & _). eexists.
      rewrite L2, L1, <- app_assoc, invokes_app, I1, N. now split.
    + intros (N & _). eexists.
      rewrite L2, L1, <- app_assoc, invokes_app, I1, N. now split.
  - intros c0 Hc. rewrite (getOrCreateGRPCConn_reuse _ Hc) in H.
    now inversion H.
Qed.

(** ** Calls one after the other *)




End Sequential.

(** * Properties of overlapping calls *)

Section Concurrent.

Variables Req Resp : Type.
Variable fullMethod : Service -> Operation -> string.
Variable env : Env Req Resp.

Local Abbreviation St := (State Req Resp).
Local Abbreviation Ev := (Event Req Resp).
Local Abbreviation Cfg := (Config Req Resp).

Lemma nth_error_updateNth_eq {A} (l : list A) (t : nat) (x y : A) :
  nth_error l t = Some y -> nth_error (updateNth t x l) t = Some x.
Proof.
  revert t. induction l as [|z l IH]; intros [|t]; simpl; try discriminate;
    auto.
Qed.

Lemma nth_error_updateNth_neq {A} (l : list A) (t t' : nat) (x : A) :
  t <> t' -> nth_error (updateNth t x l) t' = nth_error l t'.
Proof.
  revert t t'. induction l as [|z l IH]; intros [|t] [|t'] N; simpl; trivial;
    try congruence.
  apply IH. congruence.
Qed.

Lemma inflight_establishing (pc : PC Resp) :
  inflightPC pc = true -> establishing pc = true.
Proof. now destruct pc. Qed.

Lemma establishing_holdsLock (pc : PC Resp) :
  establishing pc = true -> holdsLock pc = true.
Proof. now destruct pc. Qed.

Ltac step_cases H :=
  repeat match type of H with
    | context [match ?x with _ => _ end] =>
        lazymatch x with
        | context [match _ with _ => _ end] => fail
        | _ => destruct x eqn:?
        end
    | Some _ = Some _ => inversion H; subst; clear H
    | None = Some _ => discriminate H
    end.

(** What one statement of a goroutine does to the mutex, to the Plugin and to
    the log. *)
Lemma stepThread_summary (t : nat) (call : Call Req) (pc pc' : PC Resp)
  (mutex mutex' : option nat) (s s' : St) :
  stepThread fullMethod env t call pc mutex s = Some (pc', mutex', s') ->
  ((holdsLock pc = false /\ holdsLock pc' = true /\
    mutex = None /\ mutex' = Some t)
   \/ (holdsLock pc = true /\ holdsLock pc' = false /\ mutex' = None)
   \/ (holdsLock pc' = holdsLock pc /\ mutex' = mutex)) /\
  (establishing pc' = true ->
   establishing pc = true \/
   (holdsLock pc = true /\ conn (plugin s) = None)) /\
  (forall c, pcConn pc' = Some c ->
             pcConn pc = Some c \/ conn (plugin s') = Some c) /\
  (forall v, pcVersion pc' = Some v ->
             pcVersion pc = Some v \/ v = apiV1alpha4 \/ v = apiV1beta1) /\
  exists new,
    log (world s') = (log (world s) ++ new)%list /\
    (forall a, In a (invokes new) -> pcConn pc = Some (at_conn a)) /\
    (forall v, In v (setVersions new) -> pcVersion pc = Some v) /\
    ((conn (plugin s') = conn (plugin s) /\ setConns new = [])
     \/ (establishing pc = true /\ establishing pc' = false /\
         exists c, conn (plugin s') = Some c /\ setConns new = [c])) /\
    (List.length (dials new) + b2n (inflightPC pc)
     = failures new + List.length (setConns new) + b2n (inflightPC pc'))%nat.
Proof.
  intros H.
  destruct pc; cbn [stepThread] in H;
    try rewrite NodeClient_call_eq in H;
    unfold grpc_Dial, WaitForStateChange, set_conn, set_supportedAPI in H;
    step_cases H.
  all: cbn [holdsLock establishing pcConn pcVersion inflightPC b2n plugin world
            log record conn with_conn with_version].
  all: split; [intuition congruence|].
  all: split; [intuition congruence|].
  all: split; [intros c0 E; try discriminate E; injection E as <-;
               intuition congruence|].
  all: split; [intros v0 E; try discriminate E; injection E as <-;
               intuition congruence|].
  all: first
    [ match goal with
      | |- context [attemptWorld ?f ?e ?c ?ctx ?svc ?op ?req ?w] =>
          destruct (attemptWorld_events f e c ctx svc op req w)
            as (new & L & I & O & V & D & C & F);
          exists new; rewrite I, V, C, D, F; split; [exact L|]
      end
    | exists []; split; [now rewrite app_nil_r|]
    | eexists; split; [reflexivity|] ].
  all: try match goal with
           | H : negb ?b = _ |- _ => destruct b; try discriminate H
           end.
  all: simpl; intuition (subst; simpl; try congruence; eauto).
Qed.

Lemma pcConn_not_establishing (pc : PC Resp) c :
  pcConn pc = Some c -> establishing pc = false.
Proof. destruct pc; simpl; congruence. Qed.

Lemma holdsLock_false_not_inflight (pc : PC Resp) :
  holdsLock pc = false -> inflightPC pc = false.
Proof. now destruct pc. Qed.

(** A statement of a goroutine, seen from the configuration. *)
Lemma step_inversion (t : nat) (cfg cfg' : Cfg) :
  step fullMethod env t cfg = Some cfg' ->
  exists th pc',
    nth_error (c_threads cfg) t = Some th /\
    stepThread fullMethod env t (th_call th) (th_pc th) (c_mutex cfg)
               (mkState (c_plugin cfg) (c_world cfg))
    = Some (pc', c_mutex cfg', mkState (c_plugin cfg') (c_world cfg')) /\
    c_threads cfg'
    = updateNth t (mkThread (th_call th) pc') (c_threads cfg).
Proof.
  unfold step. intros H.
  destruct (nth_error (c_threads cfg) t) as [th|] eqn:Ht; [|discriminate].
  destruct (stepThread fullMethod env t (th_call th) (th_pc th) (c_mutex cfg)
              (mkState (c_plugin cfg) (c_world cfg)))
    as [[[pc' mutex'] s']|] eqn:Hs; [|discriminate].
  inversion H; subst; clear H. exists th, pc'. simpl.
  destruct s'. now repeat split.
Qed.

(** The invariant is kept by every statement of every goroutine. *)
Lemma step_invariant (l0 : list Ev) (t : nat) (cfg cfg' : Cfg) :
  MachineInv l0 cfg ->
  step fullMethod env t cfg = Some cfg' ->
  MachineInv l0 cfg'.
Proof.
  intros [IM IH IE IC IV IL] H.
  apply step_inversion in H.
  destruct H as (th & pc' & Ht & Hs & Hth).
  apply stepThread_summary in Hs.
  cbn [plugin world] in Hs.
  destruct Hs as (Hm & He & Hc & Hv & new & Hl & Hi & Hsv & Hcn & Hacc).
  pose proof (IM _ _ Ht) as F1.
  assert (U : forall t0 th0,
             nth_error (c_threads cfg') t0 = Some th0 ->
             (t0 = t /\ th0 = mkThread (th_call th) pc') \/
             (t0 <> t /\ nth_error (c_threads cfg) t0 = Some th0)).
  { intros t0 th0 E. rewrite Hth in E.
    destruct (Nat.eq_dec t0 t) as [->|N].
    - rewrite (nth_error_updateNth_eq _ _ _ Ht) in E. left. split; congruence.
    - rewrite nth_error_updateNth_neq in E by congruence. now right. }
  assert (K : conn (c_plugin cfg') = conn (c_plugin cfg) \/
              (establishing (th_pc th) = true /\
               conn (c_plugin cfg) = None /\ c_mutex cfg = Some t)).
  { destruct Hcn as [[Hcn _]|(Hcn & _)]; [now left|right].
    repeat split; trivial.
    - eapply IE; eassumption.
    - apply F1. now apply establishing_holdsLock. }
  assert (HI : (holderInflight cfg' + b2n (inflightPC (th_pc th))
                = holderInflight cfg + b2n (inflightPC pc'))%nat).
  { unfold holderInflight.
    destruct Hm as [(L1 & L2 & M1 & M2)|[(L1 & L2 & M2)|(L & M)]].
    - rewrite M1, M2, Hth, (nth_error_updateNth_eq _ _ _ Ht). simpl.
      now rewrite (holdsLock_false_not_inflight _ L1).
    - apply F1 in L1. rewrite L1, M2, Ht.
      rewrite (holdsLock_false_not_inflight _ L2). simpl. lia.
    - rewrite M. destruct (holdsLock (th_pc th)) eqn:HL.
      + assert (E : c_mutex cfg = Some t) by now apply F1.
        rewrite E, Ht, Hth, (nth_error_updateNth_eq _ _ _ Ht). simpl. lia.
      + rewrite (holdsLock_false_not_inflight _ HL).
        rewrite (holdsLock_false_not_inflight _ L). simpl.
        destruct (c_mutex cfg) as [t1|] eqn:E; trivial.
        assert (t <> t1).
        { intros ->. destruct F1 as [_ F1]. specialize (F1 eq_refl).
          discriminate. }
        rewrite Hth, nth_error_updateNth_neq by trivial. lia. }
  constructor.
  - (* the mutex *)
    intros t0 th0 E. apply U in E. destruct E as [[-> ->]|[N E]]; simpl.
    + destruct Hm as [(L1 & L2 & M1 & M2)|[(L1 & L2 & M2)|(L & M)]].
      * rewrite L2, M2. tauto.
      * rewrite L2, M2. split; congruence.
      * rewrite L, M. exact F1.
    + pose proof (IM _ _ E) as F0.
      destruct Hm as [(L1 & L2 & M1 & M2)|[(L1 & L2 & M2)|(L & M)]].
      * rewrite M2. rewrite M1 in F0. split; intros X.
        -- apply F0 in X. discriminate.
        -- congruence.
      * apply F1 in L1. rewrite M2. rewrite L1 in F0. split; intros X.
        -- apply F0 in X. congruence.
        -- discriminate.
      * now rewrite M.
  - (* the holder of the mutex is a goroutine *)
    intros t0 E.
    assert (X : t0 = t \/ (t0 <> t /\ c_mutex cfg = Some t0)).
    { destruct (Nat.eq_dec t0 t) as [->|N]; [now left|right; split; trivial].
      destruct Hm as [(_ & _ & _ & M)|[(_ & _ & M)|(_ & M)]]; congruence. }
    rewrite Hth. destruct X as [->|[N X]].
    + rewrite (nth_error_updateNth_eq _ _ _ Ht). discriminate.
    + rewrite nth_error_updateNth_neq by congruence. now apply IH.
  - (* establishing *)
    intros t0 th0 E X. apply U in E. destruct E as [[-> ->]|[N E]]; simpl in X.
    + destruct Hcn as [[-> _]|(_ & Y & _)]; [|congruence].
      destruct (He X) as [Z|[_ Z]]; trivial. eapply IE; eassumption.
    + destruct K as [->|(_ & _ & M)]; [eapply IE; eassumption|].
      apply establishing_holdsLock, (IM _ _ E) in X. congruence.
  - (* the connection of a goroutine is the stored one *)
    intros t0 th0 c E X. apply U in E. destruct E as [[-> ->]|[N E]]; simpl in X.
    + destruct (Hc _ X) as [Y|Y]; trivial.
      destruct K as [->|(Z & _)]; [eapply IC; eassumption|].
      apply pcConn_not_establishing in Y. congruence.
    + pose proof (IC _ _ _ E X) as Y.
      destruct K as [->|(_ & Z & _)]; congruence.
  - (* versions about to be stored *)
    intros t0 th0 v E X. apply U in E. destruct E as [[-> ->]|[N E]]; simpl in X.
    + destruct (Hv _ X) as [Y|Y]; trivial. eapply IV; eassumption.
    + eapply IV; eassumption.
  - (* the log *)
    destruct IL as (evs & L & A & SC & IN & SV).
    exists (evs ++ new)%list. split; [|split; [|split; [|split]]].
    + now rewrite Hl, L, app_assoc.
    + rewrite dials_app, failures_app, setConns_app, !length_app. lia.
    + rewrite setConns_app, SC.
      destruct Hcn as [[-> ->]|(X & _ & c & -> & ->)].
      * now rewrite app_nil_r.
      * now rewrite (IE _ _ Ht X).
    + intros a X. rewrite invokes_app in X. apply in_app_or in X.
      assert (Y : conn (c_plugin cfg) = Some (at_conn a)).
      { destruct X as [X|X]; [now apply IN|].
        eapply IC; [eassumption|]. now apply Hi. }
      destruct K as [->|(_ & Z & _)]; congruence.
    + intros v X. rewrite setVersions_app in X. apply in_app_or in X.
      destruct X as [X|X]; [now apply SV|].
      eapply IV; [eassumption|]. now apply Hsv.
Qed.
(** The invariant holds when the goroutines start on a cold Plugin. *)
Lemma initial_invariant (p : Plugin) (w : World Req Resp)
  (calls : list (Call Req)) :
  conn p = None ->
  MachineInv (log w) (initial p w calls).
Proof.
  intros Hc.
  assert (T : forall t th,
             nth_error (c_threads (initial p w calls)) t = Some th ->
             th_pc th = pcLock).
  { intros t th E. simpl in E. rewrite nth_error_map in E.
    destruct (nth_error calls t); simpl in E; [|discriminate].
    now inversion E. }
  constructor.
  - intros t th E. rewrite (T _ _ E). simpl. split; discriminate.
  - discriminate.
  - intros t th E. rewrite (T _ _ E). discriminate.
  - intros t th c E. rewrite (T _ _ E). discriminate.
  - intros t th v E. rewrite (T _ _ E). discriminate.
  - exists []. simpl. rewrite app_nil_r, Hc. repeat split; trivial;
      intros ? [].
Qed.

Lemma run_invariant (l0 : list Ev) (sched : list nat) (cfg : Cfg) :
  MachineInv l0 cfg -> MachineInv l0 (run fullMethod env sched cfg).
Proof.
  revert cfg. induction sched as [|t sched IH]; intros cfg I; simpl; trivial.
  apply IH. destruct (step fullMethod env t cfg) eqn:E; trivial.
  eapply step_invariant; eassumption.
Qed.

(** ** A goroutine alone runs the dispatch function *)

Ltac crunch :=
  repeat first
    [ progress cbn [run step stepThread nth_error c_threads c_plugin c_mutex
                    c_world th_call th_pc updateNth plugin world fst snd
                    call_op call_ctx call_req negb conn supportedAPI name
                    endpoint clientCallTimeout with_conn with_version
                    repeat map initial record now fresh log]
    | rewrite NodeClient_call_eq
    | progress unfold set_conn, set_supportedAPI, grpc_Dial,
        WaitForStateChange
    | match goal with
      | |- context [match ?x with _ => _ end] =>
          lazymatch x with
          | context [match _ with _ => _ end] => fail
          | _ => destruct x eqn:?
          end
      end ].

(** Twelve turns of a single goroutine on a free mutex end in the state, and
    with the result, of the dispatch function it runs. *)
Lemma single_goroutine_runs_dispatch (p : Plugin) (w : World Req Resp)
  (call : Call Req) :
  let r := dispatch fullMethod env (call_op call) (call_ctx call)
                    (call_req call) (mkState p w) in
  run fullMethod env (repeat 0%nat 12) (initial p w [call])
  = mkConfig (plugin (snd r)) None (world (snd r))
             [mkThread call (pcDone (fst r))].
Proof.
  intros r. subst r. rewrite dispatch_eq.
  unfold getOrCreateGRPCConn, negotiate, callCtx, bind, get_plugin, ret,
    grpc_Dial, WaitForStateChange, time_Now, set_conn, set_supportedAPI.
  destruct p as [n c v e tmo]. destruct call as [op ctx req].
  crunch.
  all: repeat match goal with
              | H : (_, _) = (_, _) |- _ => inversion H; subst; clear H
              end.
  all: try reflexivity; try congruence.
  all: try (simpl in *; congruence).
Qed.

(** ** Every call finishes *)

Lemma stepThread_remaining (t : nat) (call : Call Req) (pc pc' : PC Resp)
  (mutex mutex' : option nat) (s s' : St) :
  stepThread fullMethod env t call pc mutex s = Some (pc', mutex', s') ->
  (remaining pc' < remaining pc)%nat.
Proof.
  intros H.
  destruct pc; cbn [stepThread] in H; step_cases H; simpl; lia.
Qed.

Lemma list_sum_updateNth {A} (f : A -> nat) (l : list A) (t : nat) (x y : A) :
  nth_error l t = Some y -> (f x < f y)%nat ->
  (list_sum (map f (updateNth t x l)) < list_sum (map f l))%nat.
Proof.
  revert t. induction l as [|z l IH]; intros [|t] E L; simpl in *;
    try discriminate.
  - inversion E; subst. lia.
  - specialize (IH _ E L). lia.
Qed.

Lemma step_decreases (t : nat) (cfg cfg' : Cfg) :
  step fullMethod env t cfg = Some cfg' ->
  (remainingAll cfg' < remainingAll cfg)%nat.
Proof.
  intros H. apply step_inversion in H.
  destruct H as (th & pc' & Ht & Hs & Hth).
  apply stepThread_remaining in Hs.
  unfold remainingAll. rewrite Hth.
  now apply list_sum_updateNth with (y := th).
Qed.

(** A schedule moves the goroutines at most as often as they have
    statements left. *)
Lemma effective_bounded (sched : list nat) (cfg : Cfg) :
  (effective fullMethod env sched cfg
   + remainingAll (run fullMethod env sched cfg) <= remainingAll cfg)%nat.
Proof.
  revert cfg. induction sched as [|t sched IH]; intros cfg; simpl; [lia|].
  destruct (step fullMethod env t cfg) as [cfg'|] eqn:E; [|apply IH].
  apply step_decreases in E. specialize (IH cfg'). lia.
Qed.

Lemma remainingAll_initial (p : Plugin) (w : World Req Resp)
  (calls : list (Call Req)) :
  remainingAll (initial p w calls) = (12 * List.length calls)%nat.
Proof.
  unfold remainingAll, initial. simpl. rewrite map_map. simpl.
  induction calls as [|c calls IH]; simpl; lia.
Qed.

Lemma holder_enabled (t : nat) (call : Call Req) (pc : PC Resp) (s : St) :
  holdsLock pc = true ->
  stepThread fullMethod env t call pc (Some t) s <> None.
Proof.
  intros H. destruct pc; try discriminate H; cbn [stepThread];
    unfold grpc_Dial, WaitForStateChange, set_conn, set_supportedAPI;
    repeat match goal with
      | |- context [match ?x with _ => _ end] =>
          lazymatch x with
          | context [match _ with _ => _ end] => fail
          | _ => destruct x
          end
      end; discriminate.
Qed.

Lemma free_enabled (t : nat) (call : Call Req) (pc : PC Resp) (s : St) :
  holdsLock pc = false -> isDone pc = false ->
  stepThread fullMethod env t call pc None s <> None.
Proof.
  intros H D. destruct pc; try discriminate H; try discriminate D;
    cbn [stepThread]; try rewrite NodeClient_call_eq;
    repeat match goal with
      | |- context [match ?x with _ => _ end] =>
          lazymatch x with
          | context [match _ with _ => _ end] => fail
          | _ => destruct x
          end
      end; discriminate.
Qed.

Lemma stepThread_enabled_step (t : nat) (cfg : Cfg) th :
  nth_error (c_threads cfg) t = Some th ->
  stepThread fullMethod env t (th_call th) (th_pc th) (c_mutex cfg)
             (mkState (c_plugin cfg) (c_world cfg)) <> None ->
  step fullMethod env t cfg <> None.
Proof.
  intros Ht H. unfold step. rewrite Ht.
  destruct (stepThread fullMethod env t (th_call th) (th_pc th) (c_mutex cfg)
              (mkState (c_plugin cfg) (c_world cfg)))
    as [[[pc' m'] s']|]; congruence.
Qed.

Lemma not_allDone (cfg : Cfg) :
  allDone cfg = false ->
  exists t th, nth_error (c_threads cfg) t = Some th /\
               isDone (th_pc th) = false.
Proof.
  unfold allDone. induction (c_threads cfg) as [|th l IH]; simpl;
    [discriminate|].
  destruct (isDone (th_pc th)) eqn:D; simpl.
  - intros H. destruct (IH H) as (t & th' & E & D').
    now exists (S t), th'.
  - intros _. now exists 0%nat, th.
Qed.

(** No deadlock: while some goroutine has not returned, some goroutine can
    move. *)
Lemma progress (l0 : list Ev) (cfg : Cfg) :
  MachineInv l0 cfg -> allDone cfg = false ->
  exists t, step fullMethod env t cfg <> None.
Proof.
  intros I H. apply not_allDone in H. destruct H as (t & th & Ht & D).
  destruct I as [IM IH _ _ _ _].
  destruct (c_mutex cfg) as [t1|] eqn:M.
  - pose proof (IH _ eq_refl) as X.
    destruct (nth_error (c_threads cfg) t1) as [th1|] eqn:E1; [|congruence].
    exists t1. apply stepThread_enabled_step with (th := th1); trivial.
    rewrite M. apply holder_enabled. now apply (IM _ _ E1).
  - exists t. apply stepThread_enabled_step with (th := th); trivial.
    rewrite M. apply free_enabled; trivial.
    destruct (holdsLock (th_pc th)) eqn:L; trivial.
    apply (IM _ _ Ht) in L. congruence.
Qed.

(** From every configuration the goroutines reach, some schedule lets all of
    them return. *)
Lemma completion (l0 : list Ev) (cfg : Cfg) :
  MachineInv l0 cfg ->
  exists sched, allDone (run fullMethod env sched cfg) = true.
Proof.
  remember (remainingAll cfg) as n eqn:N. revert cfg N.
  induction n as [n IH] using lt_wf_ind. intros cfg N I.
  destruct (allDone cfg) eqn:D.
  - now exists [].
  - destruct (progress I D) as [t P].
    destruct (step fullMethod env t cfg) as [cfg'|] eqn:E; [|congruence].
    pose proof (step_decreases _ _ E) as L.
    destruct (IH (remainingAll cfg')) with (cfg := cfg') as [sched S];
      try lia; trivial.
    + eapply step_invariant; eassumption.
    + exists (t :: sched). simpl. now rewrite E.
Qed.

(** ** One connection for all callers *)

Lemma holderInflight_le (cfg : Cfg) : (holderInflight cfg <= 1)%nat.
Proof.
  unfold holderInflight.
  destruct (c_mutex cfg) as [t|]; [|lia].
  destruct (nth_error (c_threads cfg) t) as [th|]; [|lia].
  destruct (inflightPC (th_pc th)); simpl; lia.
Qed.

Lemma holderInflight_stored (l0 : list Ev) (cfg : Cfg) c :
  MachineInv l0 cfg -> conn (c_plugin cfg) = Some c ->
  holderInflight cfg = 0%nat.
Proof.
  intros [_ _ IE _ _ _] Hc. unfold holderInflight.
  destruct (c_mutex cfg) as [t|]; trivial.
  destruct (nth_error (c_threads cfg) t) as [th|] eqn:Ht; trivial.
  destruct (inflightPC (th_pc th)) eqn:F; trivial.
  apply inflight_establishing in F. apply (IE _ _ Ht) in F. congruence.
Qed.

(** ** Who has failed, who has a connection, who has invoked *)

(** What one statement of a goroutine does to the account. *)
Lemma stepThread_account (t : nat) (call : Call Req) (pc pc' : PC Resp)
  (mutex mutex' : option nat) (s s' : St) :
  stepThread fullMethod env t call pc mutex s = Some (pc', mutex', s') ->
  (conn (plugin s) <> None -> conn (plugin s') <> None) /\
  (pastEstablishment pc' = true ->
   pastEstablishment pc = true \/ conn (plugin s') <> None \/
   gaveUp pc = true) /\
  exists new,
    log (world s') = (log (world s) ++ new)%list /\
    (gaveUp pc' = true -> gaveUp pc = true \/ (1 <= failures new)%nat) /\
    (b2n (accounted pc')
     <= b2n (accounted pc) + failures new + List.length (invokes new))%nat.
Proof.
  intros H.
  destruct pc; cbn [stepThread] in H;
    try rewrite NodeClient_call_eq in H;
    unfold grpc_Dial, WaitForStateChange, set_conn, set_supportedAPI in H;
    step_cases H.
  all: cbn [gaveUp pastEstablishment accounted b2n plugin world log record
            conn with_conn with_version].
  all: split; [intuition congruence|].
  all: split; [intuition congruence|].
  all: first
    [ match goal with
      | |- context [attemptWorld ?f ?e ?c ?ctx ?svc ?op ?req ?w] =>
          destruct (attemptWorld_events f e c ctx svc op req w)
            as (new & L & I & O & V & D & C & F);
          exists new; rewrite I, F; split; [exact L|]
      end
    | exists []; split; [now rewrite app_nil_r|]
    | eexists; split; [reflexivity|] ].
  all: try match goal with
           | H : negb ?b = _ |- _ => destruct b; try discriminate H
           end.
  all: simpl; split; [intuition (try congruence; try lia)|lia].
  all: right; unfold failures; simpl; lia.
Qed.

Lemma list_sum_map_updateNth {A} (f : A -> nat) (l : list A) (t : nat)
  (x y : A) :
  nth_error l t = Some y ->
  (list_sum (map f (updateNth t x l)) + f y = list_sum (map f l) + f x)%nat.
Proof.
  revert t. induction l as [|z l IH]; intros [|t] E; simpl in *;
    try discriminate.
  - inversion E; subst. lia.
  - specialize (IH _ E). lia.
Qed.

Lemma step_AccountInv (l0 : list Ev) (t : nat) (cfg cfg' : Cfg) :
  AccountInv l0 cfg -> step fullMethod env t cfg = Some cfg' ->
  AccountInv l0 cfg'.
Proof.
  intros (evs & L & IT & IA) H.
  apply step_inversion in H.
  destruct H as (th & pc' & Ht & Hs & Hth).
  apply stepThread_account in Hs. cbn [plugin world] in Hs.
  destruct Hs as (Hk & Hp & new & Hl & Hg & Ha).
  destruct (IT _ _ Ht) as [G0 P0].
  exists (evs ++ new)%list. rewrite failures_app, invokes_app, length_app.
  split; [now rewrite Hl, L, app_assoc|]. split.
  - intros t0 th0 E. rewrite Hth in E.
    destruct (Nat.eq_dec t0 t) as [->|N].
    + rewrite (nth_error_updateNth_eq _ _ _ Ht) in E.
      inversion E; subst; clear E. cbn [th_pc]. split.
      * intros X. destruct (Hg X) as [Y|Y]; [specialize (G0 Y)|]; lia.
      * intros X. destruct (Hp X) as [Y|[Y|Y]].
        -- destruct (P0 Y) as [Z|Z]; [left; now apply Hk|right; lia].
        -- now left.
        -- right. specialize (G0 Y). lia.
    + rewrite nth_error_updateNth_neq in E by congruence.
      destruct (IT _ _ E) as [G1 P1]. split.
      * intros X. specialize (G1 X). lia.
      * intros X. destruct (P1 X) as [Z|Z]; [left; now apply Hk|right; lia].
  - unfold accountedAll in *. rewrite Hth.
    pose proof (list_sum_map_updateNth
                  (fun th => b2n (accounted (th_pc th))) (c_threads cfg) t
                  (mkThread (th_call th) pc') Ht) as X.
    cbn [th_pc] in X. lia.
Qed.

Lemma initial_AccountInv (p : Plugin) (w : World Req Resp)
  (calls : list (Call Req)) :
  AccountInv (log w) (initial p w calls).
Proof.
  exists []. rewrite app_nil_r. split; [reflexivity|]. split.
  - intros t th E. simpl in E. rewrite nth_error_map in E.
    destruct (nth_error calls t); simpl in E; [|discriminate].
    inversion E; subst. simpl. split; discriminate.
  - unfold accountedAll. simpl. rewrite map_map. simpl.
    induction calls as [|c calls IH]; simpl; lia.
Qed.

Lemma run_AccountInv (l0 : list Ev) (sched : list nat) (cfg : Cfg) :
  AccountInv l0 cfg -> AccountInv l0 (run fullMethod env sched cfg).
Proof.
  revert cfg. induction sched as [|t sched IH]; intros cfg I; simpl; trivial.
  apply IH. destruct (step fullMethod env t cfg) eqn:E; trivial.
  eapply step_AccountInv; eassumption.
Qed.

Lemma updateNth_length {A} (l : list A) (t : nat) (x : A) :
  List.length (updateNth t x l) = List.length l.
Proof.
  revert t. induction l as [|y l IH]; intros [|t]; simpl; auto.
Qed.

Lemma run_threads_length (sched : list nat) (cfg : Cfg) :
  List.length (c_threads (run fullMethod env sched cfg))
  = List.length (c_threads cfg).
Proof.
  revert cfg. induction sched as [|t sched IH]; intros cfg; simpl; trivial.
  rewrite IH. destruct (step fullMethod env t cfg) as [cfg'|] eqn:E; trivial.
  apply step_inversion in E. destruct E as (th & pc' & _ & _ & ->).
  apply updateNth_length.
Qed.

Lemma allDone_accountedAll (cfg : Cfg) :
  allDone cfg = true -> accountedAll cfg = List.length (c_threads cfg).
Proof.
  unfold allDone, accountedAll.
  induction (c_threads cfg) as [|th l IH]; simpl; trivial.
  intros H. apply andb_true_iff in H. destruct H as [D H].
  rewrite (IH H). destruct (th_pc th); try discriminate D. reflexivity.
Qed.

(** C4.  Goroutines that overlap in their first call on a cold Plugin.  When
    no establishment of a connection fails, exactly one dial is made: never
    more than one, and one as soon as a connection is stored; the connection
    is stored while the goroutine that stores it still holds the mutex;
    every goroutine that has left [getOrCreateGRPCConn] found the connection
    stored, and none left with an error; every goroutine that holds a
    connection holds the stored one and every invocation is made on it; and
    once all N goroutines have returned there is one dial, one stored
    connection and at least N invocations, all on that connection.  In
    general, when establishments may fail (a failed one stores nothing, and
    the next goroutine dials again), the dials are the failed establishments
    plus the stored connection.  Whatever the schedule, the goroutines move
    at most twelve times each, and some schedule lets all of them return. *)
Theorem C4_one_stored_connection_for_overlapping_callers
  (p : Plugin) (w : World Req Resp) (calls : list (Call Req))
  (sched : list nat) :
  conn p = None ->
  let cfg := run fullMethod env sched (initial p w calls) in
  exists evs,
    log (c_world cfg) = (log w ++ evs)%list /\
    (failures evs = 0%nat ->
     (List.length (dials evs) <= 1)%nat /\
     (forall c, conn (c_plugin cfg) = Some c ->
                setConns evs = [c] /\ List.length (dials evs) = 1%nat) /\
     (forall t th, nth_error (c_threads cfg) t = Some th ->
                   gaveUp (th_pc th) = false /\
                   (pastEstablishment (th_pc th) = true ->
                    exists c, conn (c_plugin cfg) = Some c)) /\
     (allDone cfg = true -> calls <> [] ->
      exists c, conn (c_plugin cfg) = Some c /\
                setConns evs = [c] /\
                List.length (dials evs) = 1%nat /\
                (List.length calls <= List.length (invokes evs))%nat /\
                forall a, In a (invokes evs) -> at_conn a = c)) /\
    (List.length (dials evs) <= S (failures evs))%nat /\
    (forall c, conn (c_plugin cfg) = Some c ->
               setConns evs = [c] /\
               List.length (dials evs) = S (failures evs)) /\
    (conn (c_plugin cfg) = None -> setConns evs = []) /\
    (forall t th c v,
        nth_error (c_threads cfg) t = Some th ->
        th_pc th = pcUnlock (inl (c, v)) ->
        c_mutex cfg = Some t /\ conn (c_plugin cfg) = Some c) /\
    (forall t th c,
        nth_error (c_threads cfg) t = Some th ->
        pcConn (th_pc th) = Some c ->
        conn (c_plugin cfg) = Some c) /\
    (forall a, In a (invokes evs) ->
               conn (c_plugin cfg) = Some (at_conn a)) /\
    (effective fullMethod env sched (initial p w calls)
     <= 12 * List.length calls)%nat /\
    exists sched', allDone (run fullMethod env sched' cfg) = true.
Proof.
  intros Hc cfg.
  assert (I : MachineInv (log w) cfg)
    by (apply run_invariant, initial_invariant; exact Hc).
  assert (J : AccountInv (log w) cfg)
    by (apply run_AccountInv, initial_AccountInv).
  assert (Len : List.length (c_threads cfg) = List.length calls).
  { unfold cfg. rewrite run_threads_length. simpl. apply length_map. }
  pose proof (holderInflight_le cfg) as HL.
  assert (HS : forall c, conn (c_plugin cfg) = Some c ->
                         holderInflight cfg = 0%nat)
    by (intros c E; eapply holderInflight_stored; eassumption).
  pose proof (completion I) as Cmp.
  destruct I as [IM IH IE IC IV (evs & L & A & SC & IN & SV)].
  destruct J as (evs' & L' & JT & JA).
  assert (evs' = evs) as ->
    by (rewrite L in L'; now apply app_inv_head in L').
  exists evs. split; [exact L|].
  assert (Stored : forall c, conn (c_plugin cfg) = Some c ->
                             setConns evs = [c] /\
                             List.length (dials evs) = S (failures evs)).
  { intros c E. rewrite E in SC. split; trivial.
    rewrite A, SC, (HS c); trivial. simpl. lia. }
  assert (Bound : (List.length (dials evs) <= S (failures evs))%nat).
  { destruct (conn (c_plugin cfg)) as [c|] eqn:E.
    - rewrite A, SC, (HS c); trivial. simpl. lia.
    - rewrite A, SC. simpl. lia. }
  split; [|split; [|split; [|split; [|split; [|split; [|split; [|split]]]]]]].
  - intros F.
    assert (Past : forall t th, nth_error (c_threads cfg) t = Some th ->
                     gaveUp (th_pc th) = false /\
                     (pastEstablishment (th_pc th) = true ->
                      exists c, conn (c_plugin cfg) = Some c)).
    { intros t th E. destruct (JT _ _ E) as [G P]. split.
      - destruct (gaveUp (th_pc th)); trivial. specialize (G eq_refl). lia.
      - intros X. destruct (P X) as [Y|Y]; [|lia].
        destruct (conn (c_plugin cfg)) as [c|]; [now exists c|congruence]. }
    split; [lia|]. split; [|split; [exact Past|]].
    + intros c E. destruct (Stored c E) as [S1 S2]. split; trivial. lia.
    + intros D N.
      assert (X : exists th, nth_error (c_threads cfg) 0 = Some th).
      { destruct (c_threads cfg) as [|th l] eqn:T.
        - destruct calls; [congruence|discriminate Len].
        - now exists th. }
      destruct X as [th E].
      assert (Dn : isDone (th_pc th) = true).
      { pose proof D as D'. unfold allDone in D'.
        rewrite forallb_forall in D'. apply D'.
        eapply nth_error_In; eassumption. }
      destruct (Past _ _ E) as [_ P].
      destruct P as [c Ec]; [now destruct (th_pc th)|].
      destruct (Stored c Ec) as [S1 S2].
      exists c. repeat split; trivial; try lia.
      * rewrite (allDone_accountedAll _ D), Len in JA. lia.
      * intros a Ha. specialize (IN a Ha). congruence.
  - exact Bound.
  - exact Stored.
  - intros E. now rewrite E in SC.
  - intros t th c v Ht Hpc. split.
    + apply (IM _ _ Ht). now rewrite Hpc.
    + apply (IC _ _ _ Ht). now rewrite Hpc.
  - exact IC.
  - exact IN.
  - pose proof (effective_bounded sched (initial p w calls)) as B.
    rewrite remainingAll_initial in B. fold cfg in B. lia.
  - exact Cmp.
Qed.


End Concurrent.

(** * The theorems at work on concrete plugins *)

Module Examples.
Import Scenario.

(** Against a driver that serves only v1alpha4, the first prepare on the
    cold driver invokes v1beta1, then v1alpha4, and returns the v1alpha4
    response. *)
Lemma C1_witness :
  isUnknown (supportedAPI (plugin s0)) = true /\
  getOrCreateGRPCConn alphaOnly s0
  = (inl (conn0, ""), snd (getOrCreateGRPCConn alphaOnly s0)) /\
  exists evs,
    log (world (snd (NodePrepareResources methodName alphaOnly
                       context_Background "claim-1" s0)))
    = (log (world s0) ++ evs)%list /\
    map (@at_service _ _) (invokes evs) = [drapbv1beta1; drapbv1alpha4] /\
    fst (NodePrepareResources methodName alphaOnly context_Background
           "claim-1" s0)
    = (Some "granted", None).
Proof.
  split; [reflexivity|]. split; [reflexivity|].
  destruct (@C1_unknown_version_tries_v1beta1_then_v1alpha4
              Req Resp methodName alphaOnly OpPrepare context_Background
              "claim-1" s0 (snd (getOrCreateGRPCConn alphaOnly s0))
              conn0 "" eq_refl eq_refl) as (evs & L & H).
  exists evs. split; [exact L|].
  destruct H as [I R]. split; [now rewrite I|exact R].
Defined.


(** A prepare on the cold driver.  Against a driver that serves only
    v1alpha4 the fallback answers and v1alpha4 is stored; against a driver
    that serves v1beta1 the first attempt answers and v1beta1 is stored;
    against a driver that serves neither contract both attempts are
    unimplemented, nothing is stored and the error comes back; at an
    endpoint at which nothing listens no attempt is made, nothing is stored
    and the dial error comes back. *)
Lemma C2_witness :
  isUnknown (supportedAPI (plugin s0)) = true /\
  (exists evs,
      log (world (snd (NodePrepareResources methodName alphaOnly
                         context_Background "claim-1" s0)))
      = (log (world s0) ++ evs)%list /\
      map (@at_service _ _) (invokes evs) = [drapbv1beta1; drapbv1alpha4] /\
      setVersions evs = [apiV1alpha4] /\
      supportedAPI (plugin (snd (NodePrepareResources methodName alphaOnly
                                   context_Background "claim-1" s0)))
      = apiV1alpha4 /\
      fst (NodePrepareResources methodName alphaOnly context_Background
             "claim-1" s0)
      = (Some "granted", None)) /\
  (exists evs,
      log (world (snd (NodePrepareResources methodName betaOK
                         context_Background "claim-1" s0)))
      = (log (world s0) ++ evs)%list /\
      map (@at_service _ _) (invokes evs) = [drapbv1beta1] /\
      setVersions evs = [apiV1beta1] /\
      supportedAPI (plugin (snd (NodePrepareResources methodName betaOK
                                   context_Background "claim-1" s0)))
      = apiV1beta1 /\
      fst (NodePrepareResources methodName betaOK context_Background
             "claim-1" s0)
      = (Some "granted", None)) /\
  (exists evs,
      log (world (snd (NodePrepareResources methodName neither
                         context_Background "claim-1" s0)))
      = (log (world s0) ++ evs)%list /\
      map (@at_service _ _) (invokes evs) = [drapbv1beta1; drapbv1alpha4] /\
      setVersions evs = [] /\
      supportedAPI (plugin (snd (NodePrepareResources methodName neither
                                   context_Background "claim-1" s0))) = "" /\
      fst (NodePrepareResources methodName neither context_Background
             "claim-1" s0)
      = (None, Some unimplemented)) /\
  (exists evs,
      log (world (snd (NodePrepareResources methodName down
                         context_Background "claim-1" s0)))
      = (log (world s0) ++ evs)%list /\
      invokes evs = [] /\ setVersions evs = [] /\
      plugin (snd (NodePrepareResources methodName down context_Background
                     "claim-1" s0)) = plugin s0 /\
      fst (NodePrepareResources methodName down context_Background
             "claim-1" s0)
      = (None, Some (errors_New "dial failed"))).
Proof.
  split; [reflexivity|]. split; [|split; [|split]].
  - destruct (C2_version_stored_unless_unimplemented methodName alphaOnly
                OpPrepare context_Background "claim-1" s0 eq_refl)
      as (evs & L & H).
    exists evs. split; [exact L|].
    change (log (world s0) ++ evs)%list with evs in L. subst evs.
    vm_compute in H. destruct H as (I & _ & R & _ & V & S).
    split; [exact (f_equal (map (@at_service _ _)) I)|].
    split; [exact V|]. split; [exact S|exact R].
  - destruct (C2_version_stored_unless_unimplemented methodName betaOK
                OpPrepare context_Background "claim-1" s0 eq_refl)
      as (evs & L & H).
    exists evs. split; [exact L|].
    change (log (world s0) ++ evs)%list with evs in L. subst evs.
    vm_compute in H. destruct H as (I & _ & R & _ & V & S).
    split; [exact (f_equal (map (@at_service _ _)) I)|].
    split; [exact V|]. split; [exact S|exact R].
  - destruct (C2_version_stored_unless_unimplemented methodName neither
                OpPrepare context_Background "claim-1" s0 eq_refl)
      as (evs & L & H).
    exists evs. split; [exact L|].
    change (log (world s0) ++ evs)%list with evs in L. subst evs.
    vm_compute in H. destruct H as (I & _ & R & _ & V & S & _).
    split; [exact (f_equal (map (@at_service _ _)) I)|].
    split; [exact V|]. split; [exact S|exact R].
  - destruct (C2_version_stored_unless_unimplemented methodName down
                OpPrepare context_Background "claim-1" s0 eq_refl)
      as (evs & L & H).
    exists evs. split; [exact L|].
    change (log (world s0) ++ evs)%list with evs in L. subst evs.
    vm_compute in H. destruct H as (I & _ & V & P & R).
    split; [exact I|]. split; [exact V|]. split; [exact P|exact R].
Defined.

(** With v1alpha4 cached, an unprepare goes to v1alpha4 only. *)
Lemma C3_witness :
  PluginInv (plugin sAlpha) /\
  isUnknown (supportedAPI (plugin sAlpha)) = false /\
  plugin (snd (NodeUnprepareResources methodName alphaOnly
                 context_Background "claim-1" sAlpha))
  = plugin sAlpha /\
  exists evs,
    log (world (snd (NodeUnprepareResources methodName alphaOnly
                       context_Background "claim-1" sAlpha)))
    = (log (world sAlpha) ++ evs)%list /\
    map (@at_service _ _) (invokes evs) = [drapbv1alpha4] /\
    dials evs = [].
Proof.
  assert (I : PluginInv (plugin sAlpha)) by (split; reflexivity).
  split; [exact I|]. split; [reflexivity|].
  destruct (C3_confirmed_version_dispatches_directly methodName alphaOnly
              OpUnprepare context_Background "claim-1" sAlpha I eq_refl)
    as (c & svc & Hc & Hs & R & P & evs & L & Iv & D & _).
  split; [exact P|]. exists evs. split; [exact L|]. split; [|exact D].
  rewrite Iv. destruct svc; [reflexivity|discriminate Hs].
Defined.

(** Two callers that overlap on the cold driver, no establishment failing:
    both have returned, one dial was made, its connection is the one stored
    and both callers invoked on it.  And two callers of which the first
    fails to dial: the connection of the second dial is the one stored, and
    the dials are one more than the failed establishments. *)
Lemma C4_witness :
  let cfg := run methodName betaOK bothReadFirst
                 (initial driverA w0 twoCallers) in
  conn driverA = None /\
  allDone cfg = true /\
  (exists evs,
      log (c_world cfg) = (log w0 ++ evs)%list /\
      failures evs = 0%nat /\
      conn (c_plugin cfg) = Some conn0 /\
      setConns evs = [conn0] /\
      List.length (dials evs) = 1%nat /\
      (List.length twoCallers <= List.length (invokes evs))%nat /\
      forall a, In a (invokes evs) -> at_conn a = conn0) /\
  exists evs,
    log (c_world (run methodName downOnce oneAfterTheOther
                    (initial driverA w0 twoCallers)))
    = (log w0 ++ evs)%list /\
    setConns evs = [conn0] /\
    List.length (dials evs) = S (failures evs).
Proof.
  intros cfg. split; [reflexivity|]. split; [reflexivity|]. split.
  - destruct (C4_one_stored_connection_for_overlapping_callers methodName
                betaOK driverA w0 twoCallers bothReadFirst eq_refl)
      as (evs & L & S & _).
    fold cfg in L, S.
    assert (F : failures evs = 0%nat).
    { change (log w0 ++ evs)%list with evs in L. now rewrite <- L. }
    assert (N : twoCallers <> []) by discriminate.
    destruct S as (_ & _ & _ & Fin); [exact F|].
    destruct (Fin eq_refl N) as (c & Ec & SC & D & Le & I).
    assert (c = conn0) as -> by (vm_compute in Ec; now inversion Ec).
    exists evs. repeat split; trivial.
  - destruct (C4_one_stored_connection_for_overlapping_callers methodName
                downOnce driverA w0 twoCallers oneAfterTheOther eq_refl)
      as (evs & L & _ & _ & H & _).
    exists evs. split; [exact L|]. apply H. reflexivity.
Defined.


(** Two callers on the cold driver, the first dial failing: two dials, and
    the first caller returns the dial error without a connection. *)
Lemma failed_first_dial_is_followed_by_a_second_dial :
  let cfg := run methodName downOnce oneAfterTheOther
                 (initial driverA w0 twoCallers) in
  conn driverA = None /\
  List.length (dials (log (c_world cfg))) = 2%nat /\
  List.length (dials (log (c_world cfg))) <> 1%nat /\
  map (@th_pc _ _) (c_threads cfg)
  = [pcDone (None, Some (errors_New "dial failed"));
     pcDone (Some "granted", None)].
Proof. vm_compute. repeat split. discriminate. Qed.


(** Nothing listens at the endpoint, or the connection stays in Connecting:
    the error comes back from the dispatch function and no connection is
    stored. *)
Lemma C6_witness :
  getOrCreateGRPCConn down s0
  = (inr (errors_New "dial failed"), snd (getOrCreateGRPCConn down s0)) /\
  getOrCreateGRPCConn stuck s0
  = (inr errTimedOut, snd (getOrCreateGRPCConn stuck s0)) /\
  NodePrepareResources methodName down context_Background "claim-1" s0
  = ((None, Some (errors_New "dial failed")),
     snd (getOrCreateGRPCConn down s0)) /\
  NodeUnprepareResources methodName stuck context_Background "claim-1" s0
  = ((None, Some errTimedOut), snd (getOrCreateGRPCConn stuck s0)) /\
  conn (plugin (snd (getOrCreateGRPCConn down s0))) = None /\
  conn (plugin (snd (getOrCreateGRPCConn stuck s0))) = None.
Proof.
  split; [reflexivity|]. split; [reflexivity|].
  destruct (C6_connection_error_returned_unchanged methodName down s0
              (s1 := snd (getOrCreateGRPCConn down s0))
              (err := errors_New "dial failed") eq_refl)
    as (_ & _ & N1 & _ & D1).
  destruct (C6_connection_error_returned_unchanged methodName stuck s0
              (s1 := snd (getOrCreateGRPCConn stuck s0))
              (err := errTimedOut) eq_refl)
    as (_ & _ & N2 & _ & D2).
  split; [exact (D1 OpPrepare context_Background "claim-1")|].
  split; [exact (D2 OpUnprepare context_Background "claim-1")|].
  split; [exact N1|exact N2].
Defined.

(** A caller with ten seconds left and a call timeout of forty-five: the
    invocations carry the caller's deadline. *)
Lemma C7_witness :
  getOrCreateGRPCConn alphaOnly s0
  = (inl (conn0, ""), snd (getOrCreateGRPCConn alphaOnly s0)) /\
  exists evs,
    log (world (snd (NodePrepareResources methodName alphaOnly tenSeconds
                       "claim-1" s0)))
    = (log (world s0) ++ evs)%list /\
    invokes evs <> [] /\
    forall a, In a (invokes evs) ->
              Deadline (at_ctx a) = Some (10 * time_Second).
Proof.
  split; [reflexivity|].
  destruct (C7_call_deadline_is_the_tighter_one methodName alphaOnly
              OpPrepare tenSeconds "claim-1" s0
              (s1 := snd (getOrCreateGRPCConn alphaOnly s0))
              (c := conn0) (v := "") eq_refl)
    as (evs & L & N & H).
  exists evs. split; [exact L|]. split; [exact N|].
  intros a Ha. destruct (H a Ha) as [_ D]. exact D.
Defined.


(** The connected driver returns its connection and is left as it is; after
    the first call on the cold driver, so does the second. *)
Lemma C9_witness :
  conn (plugin sAlpha) = Some conn0 /\
  getOrCreateGRPCConn alphaOnly sAlpha = (inl (conn0, apiV1alpha4), sAlpha) /\
  getOrCreateGRPCConn alphaOnly (snd (getOrCreateGRPCConn alphaOnly s0))
  = (inl (conn0, ""), snd (getOrCreateGRPCConn alphaOnly s0)).
Proof.
  split; [reflexivity|]. split.
  - exact (proj1 (C9_stored_connection_is_reused alphaOnly) sAlpha conn0
                 eq_refl).
  - exact (proj2 (C9_stored_connection_is_reused alphaOnly) s0
                 (snd (getOrCreateGRPCConn alphaOnly s0)) conn0 "" eq_refl).
Defined.

(** A Plugin that holds v1alpha4 and no connection: the fresh connection
    comes with the empty version and the dispatch starts on v1beta1. *)
Lemma C10_witness :
  conn staleAlpha = None /\ supportedAPI staleAlpha = apiV1alpha4 /\
  getOrCreateGRPCConn betaOK (mkState staleAlpha w0)
  = (inl (conn0, ""), snd (getOrCreateGRPCConn betaOK (mkState staleAlpha w0)))
  /\
  exists evs rest,
    log (world (snd (NodePrepareResources methodName betaOK
                       context_Background "claim-1"
                       (mkState staleAlpha w0))))
    = (log w0 ++ evs)%list /\
    map (@at_service _ _) (invokes evs) = drapbv1beta1 :: rest.
Proof.
  split; [reflexivity|]. split; [reflexivity|]. split; [reflexivity|].
  destruct (proj1 (C10_fresh_connection_returns_unknown_version methodName
                     betaOK (mkState staleAlpha w0)
                     (s1 := snd (getOrCreateGRPCConn betaOK
                                   (mkState staleAlpha w0)))
                     (c := conn0) (v := "") eq_refl) eq_refl)
    as (_ & _ & H).
  destruct (H OpPrepare context_Background "claim-1")
    as (evs & rest & L & I).
  exists evs, (map (@at_service _ _) rest). split; [exact L|].
  now rewrite I.
Defined.

(** ** Further runs *)

(** A Plugin in a state that the client functions do not make, a cached
    version without a connection: the dispatch stores v1beta1 over the
    cached v1alpha4.  This is why the theorems about a cached version ask
    for the invariant of the Plugin. *)
Lemma cached_version_without_connection_is_overwritten :
  supportedAPI
    (plugin (snd (NodePrepareResources methodName betaOK context_Background
                    "claim-1" (mkState staleAlpha w0))))
  = apiV1beta1.
Proof. reflexivity. Qed.

(** The scenario of the specification: the first prepare falls back to
    v1alpha4, the unprepare that follows goes to v1alpha4 at once; three
    observations in all. *)
Lemma fallback_then_direct_gives_three_observations :
  let r1 := NodePrepareResources methodName alphaOnly context_Background
              "claim-1" s0 in
  let r2 := NodeUnprepareResources methodName alphaOnly context_Background
              "claim-1" (snd r1) in
  fst r1 = (Some "granted", None) /\
  fst r2 = (Some "released", None) /\
  map (fun o => (ob_method o, ob_code o))
      (observations (log (world (snd r2))))
  = [("/v1beta1.DRAPlugin/NodePrepareResources", "Unimplemented");
     ("/v1alpha3.Node/NodePrepareResources", "OK");
     ("/v1alpha3.Node/NodeUnprepareResources", "OK")] /\
  List.length (dials (log (world (snd r2)))) = 1%nat.
Proof. vm_compute. repeat split. Qed.

End Examples.

(** * Sequences of calls *)

Section SequentialMore.

Variables Req Resp : Type.
Variable fullMethod : Service -> Operation -> string.
Variable env : Env Req Resp.

Local Abbreviation St := (State Req Resp).
Local Abbreviation Ev := (Event Req Resp).

(** What [getOrCreateGRPCConn] does at most, and what it leaves alone. *)
Lemma ConnOutcome_effects (s s1 : St) r :
  ConnOutcome env s r s1 ->
  name (plugin s1) = name (plugin s) /\
  supportedAPI (plugin s1) = supportedAPI (plugin s) /\
  endpoint (plugin s1) = endpoint (plugin s) /\
  clientCallTimeout (plugin s1) = clientCallTimeout (plugin s) /\
  (forall c, conn (plugin s) = Some c -> s1 = s /\ exists v, r = inl (c, v)) /\
  (forall c v, r = inl (c, v) -> conn (plugin s1) = Some c) /\
  exists evs,
    log (world s1) = (log (world s) ++ evs)%list /\
    (List.length (dials evs) <= 1)%nat /\
    (List.length (dials evs)
     = failures evs + List.length (setConns evs))%nat /\
    invokes evs = [] /\ setVersions evs = [] /\
    (conn (plugin s) <> None -> evs = []) /\
    (forall c, In c (setConns evs) -> conn (plugin s1) = Some c).
Proof.
  intros O.
  destruct O as [c Hc|err d Hc Hd|d d' Hc Hd c w1 Hw|d d' Hc Hd c w1 Hw];
    cbn [plugin world name supportedAPI endpoint clientCallTimeout
         conn with_conn];
    repeat apply conj; try reflexivity.
  all: try (intros x Hx; congruence).
  all: try (intros x y E; inversion E; subst; first [assumption|reflexivity]).
  - intros x Hx. split; trivial. exists (supportedAPI (plugin s)). congruence.
  - exists []. rewrite app_nil_r. repeat split; trivial; simpl; try lia; try (intros x []).
  - eexists. split; [reflexivity|]. simpl.
    repeat split; trivial; try lia; try congruence; try (intros x []).
  - eexists. split; [simpl; rewrite <- app_assoc; reflexivity|]. simpl.
    repeat split; trivial; try lia; try congruence; try (intros x []).
  - eexists. split; [simpl; rewrite <- !app_assoc; reflexivity|]. simpl.
    repeat split; trivial; try lia; try congruence;
      try (intros x [<-|[]]; reflexivity).
Qed.

Lemma finalAttempt_app_nil (e1 e2 : list Ev) :
  invokes e1 = [] -> finalAttempt (e1 ++ e2) = finalAttempt e2.
Proof. unfold finalAttempt. intros H. now rewrite invokes_app, H. Qed.

(** What the negotiation does at most, and what it returns. *)
Lemma negotiate_effects (op : Operation) (c : ClientConn) (v : apiVersion)
  (ctx : Context) (req : Req) (s : St) :
  let r := negotiate fullMethod env op c v ctx req s in
  name (plugin (snd r)) = name (plugin s) /\
  conn (plugin (snd r)) = conn (plugin s) /\
  endpoint (plugin (snd r)) = endpoint (plugin s) /\
  clientCallTimeout (plugin (snd r)) = clientCallTimeout (plugin s) /\
  exists evs,
    log (world (snd r)) = (log (world s) ++ evs)%list /\
    dials evs = [] /\ setConns evs = [] /\ failures evs = 0%nat /\
    (1 <= List.length (invokes evs) <= 2)%nat /\
    (List.length (setVersions evs) <= 1)%nat /\
    (forall a, In a (invokes evs) -> at_conn a = c) /\
    exists a, finalAttempt evs = Some a /\ fst r = at_res a.
Proof.
  intros r. subst r. destruct (isUnknown v) eqn:Hv.
  - destruct (negotiate_unknown fullMethod env op c v ctx req s Hv)
      as (evs & L & D & C & F & _ & N).
    revert N. destruct (isUnimplemented _).
    + intros (I & R & N).
      assert (P : plugin (snd (negotiate fullMethod env op c v ctx req s))
                  = plugin s \/
                  plugin (snd (negotiate fullMethod env op c v ctx req s))
                  = with_version (plugin s) apiV1alpha4 /\
                  setVersions evs = [apiV1alpha4]).
      { revert N. destruct (isUnimplemented _); intros [V P]; auto. }
      assert (V : (List.length (setVersions evs) <= 1)%nat).
      { revert N. destruct (isUnimplemented _); intros [-> _]; simpl; lia. }
      split; [|split; [|split; [|split]]];
        try (destruct P as [->|[-> _]]; reflexivity).
      exists evs. rewrite I. unfold finalAttempt. rewrite I.
      repeat split; trivial; simpl; try lia.
      * intros a [<-|[<-|[]]]; reflexivity.
      * eexists. split; [reflexivity|exact R].
    + intros (I & R & V & P).
      rewrite P. repeat split; trivial.
      exists evs. rewrite I, V. unfold finalAttempt. rewrite I.
      repeat split; trivial; simpl; try lia.
      * intros a [<-|[]]; reflexivity.
      * eexists. split; [reflexivity|exact R].
  - destruct (isUnknown_confirmed _ Hv) as [svc <-].
    rewrite negotiate_confirmed. cbn [snd fst plugin world].
    destruct (attemptWorld_events fullMethod env c ctx svc op req (world s))
      as (evs & L & I & _ & V & D & C & F).
    repeat split; trivial.
    exists evs. rewrite I, V. unfold finalAttempt. rewrite I.
    repeat split; trivial; simpl; try lia.
    + intros a [<-|[]]; reflexivity.
    + eexists. split; reflexivity.
Qed.

(** One call in full: the connection part, then the negotiation. *)
Lemma dispatch_effects (op : Operation) (ctx : Context) (req : Req) (s : St) :
  let r := dispatch fullMethod env op ctx req s in
  name (plugin (snd r)) = name (plugin s) /\
  endpoint (plugin (snd r)) = endpoint (plugin s) /\
  clientCallTimeout (plugin (snd r)) = clientCallTimeout (plugin s) /\
  (forall c, conn (plugin s) = Some c -> conn (plugin (snd r)) = Some c) /\
  exists evs,
    log (world (snd r)) = (log (world s) ++ evs)%list /\
    (List.length (dials evs) <= 1)%nat /\
    (List.length (dials evs)
     = failures evs + List.length (setConns evs))%nat /\
    (List.length (invokes evs) <= 2)%nat /\
    (List.length (setVersions evs) <= 1)%nat /\
    (conn (plugin s) <> None -> dials evs = []) /\
    (forall c, In c (setConns evs) -> conn (plugin (snd r)) = Some c) /\
    (forall a, In a (invokes evs) ->
               conn (plugin (snd r)) = Some (at_conn a)) /\
    ((failures evs = 0%nat /\ (1 <= List.length (invokes evs))%nat /\
      exists a, finalAttempt evs = Some a /\ fst r = at_res a)
     \/
     (failures evs = 1%nat /\ invokes evs = [] /\ setVersions evs = [] /\
      plugin (snd r) = plugin s /\ conn (plugin s) = None /\
      exists err, fst r = (None, Some err))).
Proof.
  intros r. subst r. rewrite dispatch_eq.
  destruct (getOrCreateGRPCConn env s) as [[[c v]|err] s1] eqn:H;
    apply getOrCreateGRPCConn_cases in H.
  - pose proof (ConnOutcome_ok H) as (_ & _ & _ & _ & _ & _ & e0 & L0 & _ & _
                                      & _ & F0).
    destruct (ConnOutcome_effects H)
      as (N1 & _ & E1 & T1 & K1 & C1 & e1 & L1 & D1 & A1 & I1 & V1 & W1 & Q1).
    assert (e0 = e1) as <-
      by (rewrite L1 in L0; now apply app_inv_head in L0).
    specialize (C1 _ _ eq_refl).
    destruct (negotiate_effects op c v (callCtx ctx s1) req s1)
      as (N2 & C2 & E2 & T2 & e2 & L2 & D2 & S2 & F2 & I2 & V2 & A2 & a & G2
          & R2).
    rewrite N2, E2, T2, C2, C1.
    split; [exact N1|]. split; [exact E1|]. split; [exact T1|].
    split; [intros c0 Hc; destruct (K1 _ Hc) as [_ [v0 Q]]; congruence|].
    exists (e0 ++ e2)%list.
    rewrite L2, L1, <- app_assoc, dials_app, setConns_app, invokes_app,
      setVersions_app, failures_app, D2, S2, F2, I1, V1, !app_nil_r,
      (finalAttempt_app_nil _ _ I1), <- !plus_n_O.
    cbn [app]. repeat split; trivial; try lia.
    + intros Hc. now rewrite (W1 Hc).
    + intros c0 Hc. rewrite <- C1. now apply Q1.
    + intros a0 Ha. now rewrite (A2 _ Ha).
    + left. repeat split; trivial; try lia. now exists a.
  - destruct (ConnOutcome_err H)
      as (P & Hc & evs & L & I & _ & V & S & F & D).
    cbn [snd fst]. rewrite P.
    repeat split; trivial; try congruence.
    exists evs. rewrite I, V, S, F.
    assert (Dl : List.length (dials evs) = 1%nat)
      by (destruct D as [[-> _]|(c & x & d & -> & _)]; reflexivity).
    rewrite Dl. simpl.
    repeat split; trivial; try lia; try congruence; try (intros a []).
    right. repeat split; trivial. now exists err.
Qed.

Lemma runCalls_cons (call : Call Req) (calls : list (Call Req)) (s : St) :
  runCalls fullMethod env (call :: calls) s
  = (fst (dispatch fullMethod env (call_op call) (call_ctx call)
                   (call_req call) s)
     :: fst (runCalls fullMethod env calls
               (snd (dispatch fullMethod env (call_op call) (call_ctx call)
                              (call_req call) s))),
     snd (runCalls fullMethod env calls
            (snd (dispatch fullMethod env (call_op call) (call_ctx call)
                           (call_req call) s)))).
Proof.
  simpl. unfold bind, ret.
  destruct (dispatch fullMethod env (call_op call) (call_ctx call)
              (call_req call) s) as [res s1].
  cbn [fst snd]. now destruct (runCalls fullMethod env calls s1).
Qed.


(** Calls made one after the other: what they do to the Plugin and to the
    log, taken together. *)
Lemma runCalls_effects (calls : list (Call Req)) (s : St) :
  let r := runCalls fullMethod env calls s in
  List.length (fst r) = List.length calls /\
  name (plugin (snd r)) = name (plugin s) /\
  endpoint (plugin (snd r)) = endpoint (plugin s) /\
  clientCallTimeout (plugin (snd r)) = clientCallTimeout (plugin s) /\
  (forall c, conn (plugin s) = Some c -> conn (plugin (snd r)) = Some c) /\
  exists evs,
    log (world (snd r)) = (log (world s) ++ evs)%list /\
    (List.length (dials evs)
     = failures evs + List.length (setConns evs))%nat /\
    (List.length (setConns evs) <= 1)%nat /\
    (failures evs <= List.length calls)%nat /\
    (List.length calls <= failures evs + List.length (invokes evs))%nat /\
    (List.length (invokes evs) + 2 * failures evs
     <= 2 * List.length calls)%nat /\
    (conn (plugin s) <> None -> dials evs = []) /\
    (forall c, In c (setConns evs) -> conn (plugin (snd r)) = Some c) /\
    (forall a, In a (invokes evs) ->
               conn (plugin (snd r)) = Some (at_conn a)) /\
    (conn (plugin (snd r)) = None ->
     plugin (snd r) = plugin s /\ invokes evs = [] /\ setVersions evs = [] /\
     failures evs = List.length calls /\
     Forall (fun res => fst res = None /\ snd res <> None) (fst r)).
Proof.
  revert s. induction calls as [|call calls IH]; intros s.
  - simpl. repeat split; trivial.
    exists []. rewrite app_nil_r. simpl.
    repeat split; trivial; try lia; intros x [].
  - cbv zeta. rewrite runCalls_cons. cbn [fst snd].
    destruct (dispatch_effects (call_op call) (call_ctx call) (call_req call) s)
      as (N1 & E1 & T1 & K1 & e1 & L1 & B1 & A1 & I1 & V1 & W1 & Q1 & O1 & R1).
    set (s1 := snd (dispatch fullMethod env (call_op call) (call_ctx call)
                             (call_req call) s)) in *.
    destruct (IH s1)
      as (Len & N2 & E2 & T2 & K2 & e2 & L2 & A2 & S2 & F2 & G2 & J2 & W2 & Q2
          & O2 & Z2).
    set (r2 := runCalls fullMethod env calls s1) in *.
    assert (Keep : forall c, conn (plugin s1) = Some c ->
                             conn (plugin (snd r2)) = Some c /\ dials e2 = [])
      by (intros c Hc; split; [now apply K2|apply W2; congruence]).
    assert (S12 : (List.length (setConns e1) + List.length (setConns e2)
                   <= 1)%nat).
    { destruct (setConns e1) as [|c l] eqn:Es; [simpl; lia|].
      destruct (Keep c) as [_ D2]; [apply Q1; now left|].
      rewrite D2 in A2. simpl in A2. lia. }
    split; [simpl; now rewrite Len|].
    split; [congruence|]. split; [congruence|]. split; [congruence|].
    split; [intros c Hc; apply K2, K1, Hc|].
    exists (e1 ++ e2)%list.
    rewrite L2, L1, <- app_assoc, dials_app, setConns_app, invokes_app,
      setVersions_app, failures_app, !length_app.
    cbn [List.length].
    split; [reflexivity|]. split; [lia|]. split; [lia|].
    split; [destruct R1 as [(F & _)|(F & _)]; lia|].
    split; [destruct R1 as [(F & ? & _)|(F & I & _)]; try rewrite I; simpl;
            lia|].
    split; [destruct R1 as [(F & ? & _)|(F & I & _)]; try rewrite I; simpl;
            lia|].
    split.
    { intros Hc. rewrite (W1 Hc). destruct (conn (plugin s)) as [c|] eqn:C0;
        [|congruence].
      now destruct (Keep c (K1 _ eq_refl)) as [_ ->]. }
    split.
    { intros c Hc. apply in_app_or in Hc. destruct Hc as [Hc|Hc].
      - now apply Keep, Q1.
      - now apply Q2. }
    split.
    { intros a Ha. apply in_app_or in Ha. destruct Ha as [Ha|Ha].
      - now apply Keep, O1.
      - now apply O2. }
    intros Hn.
    assert (Hn1 : conn (plugin s1) = None).
    { destruct (conn (plugin s1)) as [c|] eqn:C1; trivial.
      destruct (Keep c eq_refl) as [X _]. congruence. }
    destruct (Z2 Hn) as (P2 & In2 & V2 & Fl2 & All2).
    destruct R1 as [(F & Pos & _)|(F & I & V & P & C0 & err & R)].
    + destruct (invokes e1) as [|a l] eqn:Ei; [simpl in Pos; lia|].
      specialize (O1 a (or_introl eq_refl)). congruence.
    + rewrite I, V, In2, V2, F, Fl2, P2, P. repeat split; trivial.
      constructor; trivial. rewrite R. simpl. split; congruence.
Qed.


(** With a stored connection and a confirmed version, a call is one attempt
    on the service of that version and leaves the Plugin alone. *)
Lemma dispatch_confirmed (op : Operation) (ctx : Context) (req : Req)
  (s : St) (c : ClientConn) (svc : Service) :
  conn (plugin s) = Some c -> supportedAPI (plugin s) = apiOf svc ->
  dispatch fullMethod env op ctx req s
  = (attemptResult env c (callCtx ctx s) svc op req (world s),
     mkState (plugin s)
       (attemptWorld fullMethod env c (callCtx ctx s) svc op req (world s))).
Proof.
  intros Hc Hv.
  rewrite (dispatch_ok fullMethod env op ctx req s
             (getOrCreateGRPCConn_reuse env s Hc)).
  rewrite Hv. apply negotiate_confirmed.
Qed.

Lemma runCalls_confirmed (calls : list (Call Req)) (s : St) (c : ClientConn)
  (svc : Service) :
  conn (plugin s) = Some c -> supportedAPI (plugin s) = apiOf svc ->
  let r := runCalls fullMethod env calls s in
  plugin (snd r) = plugin s /\
  exists evs,
    log (world (snd r)) = (log (world s) ++ evs)%list /\
    dials evs = [] /\ setConns evs = [] /\ setVersions evs = [] /\
    fst r = map (@at_res Req Resp) (invokes evs) /\
    map (fun a => (at_conn a, at_service a, at_op a, at_req a)) (invokes evs)
    = map (fun call => (c, svc, call_op call, call_req call)) calls.
Proof.
  revert s. induction calls as [|call calls IH]; intros s Hc Hv.
  - simpl. split; trivial. exists []. now rewrite app_nil_r.
  - cbv zeta. rewrite runCalls_cons.
    rewrite (@dispatch_confirmed (call_op call) (call_ctx call)
               (call_req call) s c svc Hc Hv).
    cbn [fst snd].
    destruct (attemptWorld_events fullMethod env c (callCtx (call_ctx call) s)
                svc (call_op call) (call_req call) (world s))
      as (e1 & L1 & I1 & _ & V1 & D1 & C1 & _).
    destruct (IH (mkState (plugin s)
                    (attemptWorld fullMethod env c (callCtx (call_ctx call) s)
                       svc (call_op call) (call_req call) (world s)))
                 Hc Hv) as (P2 & e2 & L2 & D2 & C2 & V2 & R2 & M2).
    cbn [plugin world] in *.
    split; [exact P2|].
    exists (e1 ++ e2)%list.
    rewrite L2, L1, <- app_assoc, dials_app, setConns_app, setVersions_app,
      invokes_app, D1, D2, C1, C2, V1, V2, I1, R2.
    cbn [app map at_res at_conn at_service at_op at_req attemptOn].
    now rewrite M2.
Qed.


(** X2.  Calls made one after the other return one result each and never touch
    the name, the endpoint or the call timeout of the Plugin; a connection that
    is stored stays stored, the same one, whatever the calls return. *)
Theorem runCalls_keeps_identity_and_connection
  (calls : list (Call Req)) (s : St) :
  let r := runCalls fullMethod env calls s in
  List.length (fst r) = List.length calls /\
  name (plugin (snd r)) = name (plugin s) /\
  endpoint (plugin (snd r)) = endpoint (plugin s) /\
  clientCallTimeout (plugin (snd r)) = clientCallTimeout (plugin s) /\
  forall c, conn (plugin s) = Some c -> conn (plugin (snd r)) = Some c.
Proof.
  intros r.
  destruct (runCalls_effects calls s) as (Len & N & E & T & K & _).
  now repeat split.
Qed.

(** X3.  The account of a sequence of calls.  Every dial either failed (the dial
    itself, or the wait after it) or gave the one connection that was stored; at
    most one connection is stored; at most one establishment fails per call, and
    the invocations are at least one and at most two for each of the other
    calls; a connection that was stored, and the connection of every invocation,
    is the connection the Plugin holds in the end. *)
Theorem runCalls_dials_and_invocations_account
  (calls : list (Call Req)) (s : St) :
  let r := runCalls fullMethod env calls s in
  exists evs,
    log (world (snd r)) = (log (world s) ++ evs)%list /\
    (List.length (dials evs)
     = failures evs + List.length (setConns evs))%nat /\
    (List.length (setConns evs) <= 1)%nat /\
    (failures evs <= List.length calls)%nat /\
    (List.length calls - failures evs <= List.length (invokes evs)
     <= 2 * (List.length calls - failures evs))%nat /\
    (forall c, In c (setConns evs) -> conn (plugin (snd r)) = Some c) /\
    (forall a, In a (invokes evs) ->
               conn (plugin (snd r)) = Some (at_conn a)).
Proof.
  intros r.
  destruct (runCalls_effects calls s)
    as (_ & _ & _ & _ & _ & evs & L & A & S & F & G & J & _ & Q & O & _).
  exists evs. repeat split; trivial; lia.
Qed.

(** X4.  On a Plugin that has its connection no call dials, whatever the calls
    return: every call makes its one or two invocations on that connection, and
    the connection is still the stored one at the end. *)
Theorem runCalls_on_stored_connection_never_dial
  (calls : list (Call Req)) (s : St) (c : ClientConn) :
  conn (plugin s) = Some c ->
  let r := runCalls fullMethod env calls s in
  conn (plugin (snd r)) = Some c /\
  exists evs,
    log (world (snd r)) = (log (world s) ++ evs)%list /\
    dials evs = [] /\ setConns evs = [] /\ failures evs = 0%nat /\
    (List.length calls <= List.length (invokes evs)
     <= 2 * List.length calls)%nat /\
    forall a, In a (invokes evs) -> at_conn a = c.
Proof.
  intros Hc r.
  destruct (runCalls_effects calls s)
    as (_ & _ & _ & _ & K & evs & L & A & S & F & G & J & W & Q & O & _).
  specialize (K _ Hc). split; [exact K|].
  assert (D : dials evs = []) by (apply W; congruence).
  rewrite D in A. simpl in A.
  assert (SC : setConns evs = [])
    by (destruct (setConns evs); [reflexivity|simpl in A; lia]).
  exists evs. repeat split; trivial; try lia.
  intros a Ha. specialize (O a Ha). congruence.
Qed.

(** X5.  When the Plugin has no connection after a sequence of calls, every one
    of the calls failed while getting one: each dialed once, none invoked
    anything, each returned a nil response with an error, and the Plugin is what
    it was before the first call. *)
Theorem runCalls_without_connection_every_call_failed
  (calls : list (Call Req)) (s : St) :
  let r := runCalls fullMethod env calls s in
  conn (plugin (snd r)) = None ->
  plugin (snd r) = plugin s /\
  Forall (fun res => fst res = None /\ snd res <> None) (fst r) /\
  exists evs,
    log (world (snd r)) = (log (world s) ++ evs)%list /\
    List.length (dials evs) = List.length calls /\
    failures evs = List.length calls /\
    invokes evs = [] /\ setConns evs = [] /\ setVersions evs = [].
Proof.
  intros r Hn.
  destruct (runCalls_effects calls s)
    as (_ & _ & _ & _ & _ & evs & L & A & S & F & G & J & _ & Q & _ & Z).
  destruct (Z Hn) as (P & I & V & Fl & All).
  assert (SC : setConns evs = []).
  { destruct (setConns evs) as [|c l] eqn:E; trivial.
    specialize (Q c (or_introl eq_refl)). fold r in Q. congruence. }
  split; [exact P|]. split; [exact All|].
  exists evs. rewrite SC in A. simpl in A. repeat split; trivial; lia.
Qed.

(** X6.  A confirmed version is never negotiated again.  On a Plugin that has
    its connection and a confirmed version, every call of a sequence makes
    exactly one invocation, on the service of that version and on that
    connection, and returns its outcome, whatever that outcome is (an
    Unimplemented error too); nothing is dialed, nothing is stored and the
    Plugin is left as it was. *)
Theorem confirmed_version_is_never_renegotiated
  (calls : list (Call Req)) (s : St) (c : ClientConn) (svc : Service) :
  conn (plugin s) = Some c -> supportedAPI (plugin s) = apiOf svc ->
  let r := runCalls fullMethod env calls s in
  plugin (snd r) = plugin s /\
  exists evs,
    log (world (snd r)) = (log (world s) ++ evs)%list /\
    dials evs = [] /\ setConns evs = [] /\ setVersions evs = [] /\
    fst r = map (@at_res Req Resp) (invokes evs) /\
    map (fun a => (at_conn a, at_service a, at_op a, at_req a)) (invokes evs)
    = map (fun call => (c, svc, call_op call, call_req call)) calls.
Proof.
  intros Hc Hv r.
  destruct (@runCalls_confirmed calls s c svc Hc Hv)
    as (P & evs & L & D & C & V & R & M).
  split; [exact P|]. now exists evs.
Qed.

(** X7.  The first answer decides.  When a call on a Plugin with an unknown
    version has got its connection and its v1beta1 attempt returns anything but
    Unimplemented (a response, or any other error, a timeout included), the call
    returns that outcome and v1beta1 is stored; every later call then makes one
    invocation, on v1beta1, and returns its outcome: v1alpha4 is never tried. *)
Theorem first_answer_decides_for_v1beta1
  (op : Operation) (ctx : Context) (req : Req) (s s1 : St) (c : ClientConn)
  (v : apiVersion) (calls : list (Call Req)) :
  isUnknown (supportedAPI (plugin s)) = true ->
  getOrCreateGRPCConn env s = (inl (c, v), s1) ->
  isUnimplemented
    (snd (attemptResult env c (callCtx ctx s1) drapbv1beta1 op req (world s1)))
  = false ->
  let r1 := dispatch fullMethod env op ctx req s in
  let r := runCalls fullMethod env calls (snd r1) in
  fst r1 = attemptResult env c (callCtx ctx s1) drapbv1beta1 op req (world s1)
  /\
  supportedAPI (plugin (snd r1)) = apiV1beta1 /\
  plugin (snd r) = plugin (snd r1) /\
  exists evs,
    log (world (snd r)) = (log (world (snd r1)) ++ evs)%list /\
    map (@at_service Req Resp) (invokes evs)
    = repeat drapbv1beta1 (List.length calls) /\
    fst r = map (@at_res Req Resp) (invokes evs).
Proof.
  intros Hu H Hb r1 r. subst r r1.
  rewrite (dispatch_ok fullMethod env op ctx req s H).
  apply getOrCreateGRPCConn_cases in H.
  pose proof (returned_version_unknown Hu H) as Hv.
  apply ConnOutcome_ok in H. destruct H as (Hc & _).
  destruct (negotiate_unknown fullMethod env op c v (callCtx ctx s1) req s1 Hv)
    as (e1 & _ & _ & _ & _ & _ & N).
  cbn [at_res attemptOn] in N. rewrite Hb in N.
  destruct N as (_ & R & _ & P).
  split; [exact R|]. rewrite P. split; [reflexivity|].
  assert (Hc' : conn (plugin (snd (negotiate fullMethod env op c v
                                     (callCtx ctx s1) req s1))) = Some c)
    by (now rewrite P).
  assert (Hv' : supportedAPI (plugin (snd (negotiate fullMethod env op c v
                                             (callCtx ctx s1) req s1)))
                = apiOf drapbv1beta1)
    by (now rewrite P).
  destruct (@runCalls_confirmed calls _ c drapbv1beta1 Hc' Hv')
    as (P2 & evs & L & _ & _ & _ & R2 & M).
  split; [now rewrite P2, P|].
  exists evs. split; [exact L|]. split; [|exact R2].
  apply (f_equal (map (fun x => snd (fst (fst x))))) in M.
  rewrite !map_map in M.
  transitivity (map (fun _ : Call Req => drapbv1beta1) calls); [exact M|].
  clear. induction calls; simpl; congruence.
Qed.

End SequentialMore.

(** * More about overlapping calls *)

Section ConcurrentMore.

Variables Req Resp : Type.
Variable fullMethod : Service -> Operation -> string.
Variable env : Env Req Resp.

Local Abbreviation St := (State Req Resp).
Local Abbreviation Ev := (Event Req Resp).
Local Abbreviation Cfg := (Config Req Resp).

Ltac branch_cases H :=
  repeat match type of H with
    | context [match ?x with _ => _ end] =>
        lazymatch x with
        | context [match _ with _ => _ end] => fail
        | _ => destruct x eqn:?
        end
    | Some _ = Some _ => inversion H; subst; clear H
    | None = Some _ => discriminate H
    end.

Lemma attemptWorld_waits (c : ClientConn) (ctx : Context) (svc : Service)
  (op : Operation) (req : Req) (w : World Req Resp) (new : list Ev) :
  log (attemptWorld fullMethod env c ctx svc op req w) = (log w ++ new)%list ->
  waits new = [].
Proof.
  rewrite attemptWorld_log. intros H. apply app_inv_head in H. subst new.
  cbn [waits flat_map waitsOf app].
  induction (rev (unaryInts (conn_dopts c))) as [|[n] l IH]; trivial.
Qed.

(** What one statement of a goroutine adds to the log and does to the
    cached version, and where the version it is about to store comes from. *)
Lemma stepThread_details (t : nat) (call : Call Req) (pc pc' : PC Resp)
  (mutex mutex' : option nat) (s s' : St) :
  stepThread fullMethod env t call pc mutex s = Some (pc', mutex', s') ->
  (forall v, pcVersion pc' = Some v ->
             pcVersion pc = Some v \/
             (v = apiV1alpha4 /\ atFallback pc = true) \/
             (v = apiV1beta1 /\
              exists c ctx,
                isUnimplemented
                  (snd (attemptResult env c ctx drapbv1beta1 (call_op call)
                          (call_req call) (world s))) = false)) /\
  (atFallback pc' = true ->
   exists c ctx,
     isUnimplemented
       (snd (attemptResult env c ctx drapbv1beta1 (call_op call)
               (call_req call) (world s))) = true) /\
  exists new,
    log (world s') = (log (world s) ++ new)%list /\
    (forall a, In a (invokes new) -> pcConn pc = Some (at_conn a)) /\
    (establishing pc = false ->
     dials new = [] /\ waits new = [] /\ setConns new = [] /\
     conn (plugin s') = conn (plugin s)) /\
    ((supportedAPI (plugin s') = supportedAPI (plugin s) /\
      setVersions new = [])
     \/ (pcVersion pc = Some (supportedAPI (plugin s')) /\
         setVersions new = [supportedAPI (plugin s')])).
Proof.
  intros H.
  destruct pc; cbn [stepThread] in H;
    try rewrite NodeClient_call_eq in H;
    unfold grpc_Dial, WaitForStateChange, set_conn, set_supportedAPI in H;
    branch_cases H.
  all: cbn [holdsLock establishing pcConn pcVersion inflightPC atFallback
            plugin world log record conn supportedAPI with_conn with_version].
  all: split; [intros v0 E; try discriminate E; injection E as <-; eauto 6|].
  all: split; [intros E; try discriminate E; eauto|].
  all: first
    [ match goal with
      | |- context [attemptWorld ?f ?e ?c ?ctx ?svc ?op ?req ?w] =>
          destruct (attemptWorld_events f e c ctx svc op req w)
            as (new & L & I & O & V & D & C & F);
          pose proof (@attemptWorld_waits _ _ _ _ _ _ _ L) as Wt;
          exists new; rewrite I, V, C, D, Wt; split; [exact L|]
      end
    | exists []; split; [now rewrite app_nil_r|]
    | eexists; split; [reflexivity|] ].
  all: simpl; intuition (subst; simpl; try congruence; eauto).
Qed.


(** The goroutines of the configuration after a statement of goroutine [t]. *)
Lemma step_threads (t : nat) (cfg cfg' : Cfg) :
  step fullMethod env t cfg = Some cfg' ->
  exists th pc',
    nth_error (c_threads cfg) t = Some th /\
    stepThread fullMethod env t (th_call th) (th_pc th) (c_mutex cfg)
               (mkState (c_plugin cfg) (c_world cfg))
    = Some (pc', c_mutex cfg', mkState (c_plugin cfg') (c_world cfg')) /\
    nth_error (c_threads cfg') t = Some (mkThread (th_call th) pc') /\
    (forall t0, t0 <> t ->
                nth_error (c_threads cfg') t0 = nth_error (c_threads cfg) t0) /\
    forall t0 th0,
      nth_error (c_threads cfg') t0 = Some th0 ->
      (t0 = t /\ th0 = mkThread (th_call th) pc') \/
      (t0 <> t /\ nth_error (c_threads cfg) t0 = Some th0).
Proof.
  intros H. apply step_inversion in H.
  destruct H as (th & pc' & Ht & Hs & Hth).
  exists th, pc'. rewrite Hth.
  split; [exact Ht|]. split; [exact Hs|].
  split; [now apply nth_error_updateNth_eq with (y := th)|].
  split; [intros t0 N; apply nth_error_updateNth_neq; congruence|].
  intros t0 th0 E. destruct (Nat.eq_dec t0 t) as [->|N].
  - rewrite (nth_error_updateNth_eq _ _ _ Ht) in E. left. split; congruence.
  - rewrite nth_error_updateNth_neq in E by congruence. now right.
Qed.

Lemma initial_threads (p : Plugin) (w : World Req Resp)
  (calls : list (Call Req)) t th :
  nth_error (c_threads (initial p w calls)) t = Some th -> th_pc th = pcLock.
Proof.
  simpl. rewrite nth_error_map.
  destruct (nth_error calls t); simpl; [|discriminate].
  intros E. now inversion E.
Qed.

(** ** The mutex *)

Lemma step_LockInv (t : nat) (cfg cfg' : Cfg) :
  LockInv cfg -> step fullMethod env t cfg = Some cfg' -> LockInv cfg'.
Proof.
  intros [IM IH] H. apply step_threads in H.
  destruct H as (th & pc' & Ht & Hs & Ht' & Hn & U).
  apply stepThread_summary in Hs. destruct Hs as (Hm & _).
  pose proof (IM _ _ Ht) as F1.
  split.
  - intros t0 th0 E. apply U in E. destruct E as [[-> ->]|[N E]]; simpl.
    + destruct Hm as [(L1 & L2 & M1 & M2)|[(L1 & L2 & M2)|(L & M)]].
      * rewrite L2, M2. tauto.
      * rewrite L2, M2. split; congruence.
      * rewrite L, M. exact F1.
    + pose proof (IM _ _ E) as F0.
      destruct Hm as [(L1 & L2 & M1 & M2)|[(L1 & L2 & M2)|(L & M)]].
      * rewrite M2. rewrite M1 in F0. split; intros X.
        -- apply F0 in X. discriminate.
        -- congruence.
      * apply F1 in L1. rewrite M2. rewrite L1 in F0. split; intros X.
        -- apply F0 in X. congruence.
        -- discriminate.
      * now rewrite M.
  - intros t0 E. destruct (Nat.eq_dec t0 t) as [->|N].
    + rewrite Ht'. discriminate.
    + rewrite (Hn _ N). apply IH.
      destruct Hm as [(_ & _ & _ & M)|[(_ & _ & M)|(_ & M)]]; congruence.
Qed.

Lemma initial_LockInv (p : Plugin) (w : World Req Resp)
  (calls : list (Call Req)) :
  LockInv (initial p w calls).
Proof.
  split.
  - intros t th E. rewrite (initial_threads _ _ _ _ E). simpl.
    split; discriminate.
  - discriminate.
Qed.

Lemma run_LockInv (sched : list nat) (cfg : Cfg) :
  LockInv cfg -> LockInv (run fullMethod env sched cfg).
Proof.
  revert cfg. induction sched as [|t sched IH]; intros cfg I; simpl; trivial.
  apply IH. destruct (step fullMethod env t cfg) eqn:E; trivial.
  eapply step_LockInv; eassumption.
Qed.

Lemma allDone_threads (cfg : Cfg) t th :
  allDone cfg = true -> nth_error (c_threads cfg) t = Some th ->
  isDone (th_pc th) = true.
Proof.
  unfold allDone. intros A E. apply nth_error_In in E.
  rewrite forallb_forall in A. now apply A.
Qed.

Lemma isDone_not_holdsLock (pc : PC Resp) :
  isDone pc = true -> holdsLock pc = false.
Proof. now destruct pc. Qed.

Lemma LockInv_progress (cfg : Cfg) :
  LockInv cfg -> allDone cfg = false ->
  exists t, step fullMethod env t cfg <> None.
Proof.
  intros [IM IH] H. apply not_allDone in H. destruct H as (t & th & Ht & D).
  destruct (c_mutex cfg) as [t1|] eqn:M.
  - pose proof (IH _ eq_refl) as X.
    destruct (nth_error (c_threads cfg) t1) as [th1|] eqn:E1; [|congruence].
    exists t1. apply stepThread_enabled_step with (th := th1); trivial.
    rewrite M. apply holder_enabled. now apply (IM _ _ E1).
  - exists t. apply stepThread_enabled_step with (th := th); trivial.
    rewrite M. apply free_enabled; trivial.
    destruct (holdsLock (th_pc th)) eqn:L; trivial.
    apply (IM _ _ Ht) in L. congruence.
Qed.

Lemma LockInv_completion (cfg : Cfg) :
  LockInv cfg ->
  exists sched, allDone (run fullMethod env sched cfg) = true.
Proof.
  remember (remainingAll cfg) as n eqn:N. revert cfg N.
  induction n as [n IH] using lt_wf_ind. intros cfg N I.
  destruct (allDone cfg) eqn:D.
  - now exists [].
  - destruct (LockInv_progress I D) as [t P].
    destruct (step fullMethod env t cfg) as [cfg'|] eqn:E; [|congruence].
    pose proof (step_decreases _ _ _ _ E) as L.
    destruct (IH (remainingAll cfg')) with (cfg := cfg') as [sched S];
      try lia; trivial.
    + eapply step_LockInv; eassumption.
    + exists (t :: sched). simpl. now rewrite E.
Qed.


(** ** Goroutines on a Plugin that has its connection *)

Lemma step_WarmInv (c0 : ClientConn) (l0 : list Ev) (t : nat)
  (cfg cfg' : Cfg) :
  WarmInv c0 l0 cfg -> step fullMethod env t cfg = Some cfg' ->
  WarmInv c0 l0 cfg'.
Proof.
  intros (IC & IT & evs & L & D & Wt & SC & IN) H. apply step_threads in H.
  destruct H as (th & pc' & Ht & Hs & Ht' & Hn & U).
  destruct (IT _ _ Ht) as [E0 P0].
  pose proof (stepThread_summary _ _ _ _ _ _ _ Hs) as (_ & He & Hc & _).
  apply stepThread_details in Hs.
  destruct Hs as (_ & _ & new & Hl & Hi & Hq & _).
  cbn [plugin world] in *.
  destruct (Hq E0) as (D1 & W1 & S1 & C1).
  assert (IC' : conn (c_plugin cfg') = Some c0) by congruence.
  split; [exact IC'|]. split.
  - intros t0 th0 E. apply U in E. destruct E as [[-> ->]|[N E]]; simpl.
    + split.
      * destruct (establishing pc') eqn:X; trivial.
        destruct (He eq_refl) as [Y|[_ Y]]; congruence.
      * intros c X. destruct (Hc _ X) as [Y|Y]; [now apply P0|congruence].
    + now apply IT with (t := t0).
  - exists (evs ++ new)%list.
    rewrite Hl, L, app_assoc, dials_app, waits_app, setConns_app, D, D1, Wt,
      W1, SC, S1.
    repeat split; trivial.
    intros a X. rewrite invokes_app in X. apply in_app_or in X.
    destruct X as [X|X]; [now apply IN|].
    apply P0. now apply Hi.
Qed.

Lemma initial_WarmInv (p : Plugin) (w : World Req Resp)
  (calls : list (Call Req)) (c0 : ClientConn) :
  conn p = Some c0 -> WarmInv c0 (log w) (initial p w calls).
Proof.
  intros Hc. split; [exact Hc|]. split.
  - intros t th E. rewrite (initial_threads _ _ _ _ E). simpl.
    split; [reflexivity|discriminate].
  - exists []. rewrite app_nil_r. repeat split; trivial. intros a [].
Qed.

Lemma run_WarmInv (c0 : ClientConn) (l0 : list Ev) (sched : list nat)
  (cfg : Cfg) :
  WarmInv c0 l0 cfg -> WarmInv c0 l0 (run fullMethod env sched cfg).
Proof.
  revert cfg. induction sched as [|t sched IH]; intros cfg I; simpl; trivial.
  apply IH. destruct (step fullMethod env t cfg) eqn:E; trivial.
  eapply step_WarmInv; eassumption.
Qed.

(** ** Goroutines against a remote side that answers consistently *)

Lemma step_AgreeInv (b : bool) (v0 : apiVersion) (l0 : list Ev) (t : nat)
  (cfg cfg' : Cfg) :
  answersV1beta1 env b ->
  AgreeInv b v0 l0 cfg -> step fullMethod env t cfg = Some cfg' ->
  AgreeInv b v0 l0 cfg'.
Proof.
  intros A (IV & IT & evs & L & SV) H. apply step_threads in H.
  destruct H as (th & pc' & Ht & Hs & Ht' & Hn & U).
  destruct (IT _ _ Ht) as [V0 F0].
  apply stepThread_details in Hs.
  destruct Hs as (Hv & Hf & new & Hl & _ & _ & Hw).
  cbn [plugin world] in *.
  split; [|split].
  - destruct Hw as [[-> _]|[X _]]; [exact IV|]. right. now apply V0.
  - intros t0 th0 E. apply U in E. destruct E as [[-> ->]|[N E]]; simpl.
    + split.
      * intros v X.
        destruct (Hv _ X) as [Y|[[-> Y]|(-> & c & ctx & Y)]].
        -- now apply V0.
        -- now rewrite (F0 Y).
        -- rewrite (A (c_world cfg) c ctx (call_op (th_call th))
                       (call_req (th_call th))) in Y.
           now subst b.
      * intros X. destruct (Hf X) as (c & ctx & Y).
        now rewrite (A (c_world cfg) c ctx (call_op (th_call th))
                       (call_req (th_call th))) in Y.
    + now apply IT with (t := t0).
  - exists (evs ++ new)%list. split; [now rewrite Hl, L, app_assoc|].
    intros v X. rewrite setVersions_app in X. apply in_app_or in X.
    destruct X as [X|X]; [now apply SV|].
    destruct Hw as [[_ Y]|[Y Z]]; rewrite ?Y, ?Z in X; simpl in X.
    + destruct X.
    + destruct X as [<-|[]]. now apply V0.
Qed.

Lemma initial_AgreeInv (b : bool) (p : Plugin) (w : World Req Resp)
  (calls : list (Call Req)) :
  AgreeInv b (supportedAPI p) (log w) (initial p w calls).
Proof.
  split; [now left|]. split.
  - intros t th E. rewrite (initial_threads _ _ _ _ E). simpl.
    split; discriminate.
  - exists []. rewrite app_nil_r. split; trivial. intros v [].
Qed.

Lemma run_AgreeInv (b : bool) (v0 : apiVersion) (l0 : list Ev)
  (sched : list nat) (cfg : Cfg) :
  answersV1beta1 env b ->
  AgreeInv b v0 l0 cfg -> AgreeInv b v0 l0 (run fullMethod env sched cfg).
Proof.
  intros A. revert cfg.
  induction sched as [|t sched IH]; intros cfg I; simpl; trivial.
  apply IH. destruct (step fullMethod env t cfg) eqn:E; trivial.
  eapply step_AgreeInv; eassumption.
Qed.


(** ** Goroutines on a Plugin with a confirmed version *)

Lemma Service_eqb_eq (a b : Service) : Service_eqb a b = true -> a = b.
Proof. destruct a, b; simpl; congruence. Qed.

Lemma stepThread_confirmed (svc : Service) (c0 : ClientConn) (t : nat)
  (call : Call Req) (pc pc' : PC Resp) (mutex mutex' : option nat)
  (s s' : St) :
  conn (plugin s) = Some c0 -> supportedAPI (plugin s) = apiOf svc ->
  directOnly svc pc = true ->
  (forall c, pcConn pc = Some c -> c = c0) ->
  stepThread fullMethod env t call pc mutex s = Some (pc', mutex', s') ->
  plugin s' = plugin s /\
  directOnly svc pc' = true /\
  (forall c, pcConn pc' = Some c -> c = c0) /\
  exists new,
    log (world s') = (log (world s) ++ new)%list /\
    dials new = [] /\ setConns new = [] /\ setVersions new = [] /\
    forall a, In a (invokes new) -> at_conn a = c0 /\ at_service a = svc.
Proof.
  intros Hc Hv D P H.
  destruct pc as [| | | | |[[c v]|err]|c v|svc' c ctx| | | | | |res];
    try discriminate D; cbn [stepThread] in H.
  - (* Lock *)
    destruct mutex; [discriminate|]. inversion H; subst; clear H.
    repeat split; trivial. exists []. rewrite app_nil_r.
    repeat split; trivial; destruct H.
  - (* the check of the stored connection *)
    rewrite Hc in H. inversion H; subst; clear H.
    split; [reflexivity|]. split; [simpl; rewrite Hv; apply String.eqb_refl|].
    split; [simpl; congruence|].
    exists []. rewrite app_nil_r. repeat split; trivial; destruct H.
  - (* Unlock *)
    destruct mutex; [|discriminate]. inversion H; subst; clear H.
    split; [reflexivity|]. split; [exact D|]. split; [exact P|].
    exists []. rewrite app_nil_r. repeat split; trivial; destruct H.
  - (* the switch on the version *)
    simpl in D. apply String.eqb_eq in D. subst v.
    assert (X : pc' = pcCallDirect svc c
                        (context_WithTimeout (call_ctx call)
                           (clientCallTimeout (plugin s)) (now (world s)))
                /\ mutex' = mutex /\ s' = s)
      by (destruct svc; simpl in H; inversion H; auto).
    destruct X as (-> & -> & ->).
    split; [reflexivity|].
    split; [simpl; now destruct svc|]. split; [exact P|].
    exists []. rewrite app_nil_r. repeat split; trivial; destruct H0.
  - (* the call *)
    simpl in D. apply Service_eqb_eq in D. subst svc'.
    rewrite NodeClient_call_eq in H. inversion H; subst; clear H.
    cbn [plugin world].
    split; [reflexivity|]. split; [reflexivity|].
    split; [simpl; discriminate|].
    destruct (attemptWorld_events fullMethod env c ctx svc (call_op call)
                (call_req call) (world s))
      as (new & L & I & _ & V & Dl & C & _).
    exists new. rewrite I. repeat split; trivial;
      destruct H as [<-|[]]; simpl; trivial.
    apply P. reflexivity.
  - discriminate H.
Qed.

Lemma step_ConfirmedInv (svc : Service) (c0 : ClientConn) (p : Plugin)
  (l0 : list Ev) (t : nat) (cfg cfg' : Cfg) :
  conn p = Some c0 -> supportedAPI p = apiOf svc ->
  ConfirmedInv svc c0 p l0 cfg -> step fullMethod env t cfg = Some cfg' ->
  ConfirmedInv svc c0 p l0 cfg'.
Proof.
  intros Hc Hv (IP & IT & evs & L & D & SC & SV & IN) H.
  apply step_threads in H.
  destruct H as (th & pc' & Ht & Hs & Ht' & Hn & U).
  destruct (IT _ _ Ht) as [D0 P0].
  assert (Hc' : conn (c_plugin cfg) = Some c0) by congruence.
  assert (Hv' : supportedAPI (c_plugin cfg) = apiOf svc) by congruence.
  pose proof (@stepThread_confirmed svc c0 _ _ _ _ _ _
                (mkState (c_plugin cfg) (c_world cfg)) _ Hc' Hv' D0 P0 Hs)
    as (P1 & D1 & C1 & new & Hl & Dn & Cn & Vn & In1).
  cbn [plugin world] in *.
  split; [congruence|]. split.
  - intros t0 th0 E. apply U in E. destruct E as [[-> ->]|[N E]]; simpl.
    + now split.
    + now apply IT with (t := t0).
  - exists (evs ++ new)%list.
    rewrite Hl, L, app_assoc, dials_app, setConns_app, setVersions_app, D, Dn,
      SC, Cn, SV, Vn.
    repeat split; trivial;
      rewrite invokes_app in H; apply in_app_or in H;
      destruct H as [H|H]; first [now apply IN|now apply In1].
Qed.

Lemma initial_ConfirmedInv (svc : Service) (c0 : ClientConn) (p : Plugin)
  (w : World Req Resp) (calls : list (Call Req)) :
  ConfirmedInv svc c0 p (log w) (initial p w calls).
Proof.
  split; [reflexivity|]. split.
  - intros t th E. rewrite (initial_threads _ _ _ _ E). simpl.
    split; [reflexivity|discriminate].
  - exists []. rewrite app_nil_r. repeat split; trivial; destruct H.
Qed.

Lemma run_ConfirmedInv (svc : Service) (c0 : ClientConn) (p : Plugin)
  (l0 : list Ev) (sched : list nat) (cfg : Cfg) :
  conn p = Some c0 -> supportedAPI p = apiOf svc ->
  ConfirmedInv svc c0 p l0 cfg ->
  ConfirmedInv svc c0 p l0 (run fullMethod env sched cfg).
Proof.
  intros Hc Hv. revert cfg.
  induction sched as [|t sched IH]; intros cfg I; simpl; trivial.
  apply IH. destruct (step fullMethod env t cfg) eqn:E; trivial.
  eapply step_ConfirmedInv; eassumption.
Qed.

Lemma atCall_enabled (t : nat) (call : Call Req) (pc : PC Resp)
  (mutex : option nat) (s : St) :
  atCall pc = true ->
  holdsLock pc = false /\
  stepThread fullMethod env t call pc mutex s <> None.
Proof.
  intros H. destruct pc; try discriminate H; split; trivial;
    cbn [stepThread]; rewrite NodeClient_call_eq;
    repeat match goal with
      | |- context [match ?x with _ => _ end] =>
          lazymatch x with
          | context [match _ with _ => _ end] => fail
          | _ => destruct x
          end
      end; discriminate.
Qed.

Lemma atLock_blocked (t : nat) (call : Call Req) (pc : PC Resp)
  (mutex : option nat) (s : St) :
  atLock pc = true ->
  holdsLock pc = false /\
  (stepThread fullMethod env t call pc mutex s = None <-> mutex <> None).
Proof.
  intros H. destruct pc; try discriminate H; split; trivial;
    cbn [stepThread]; destruct mutex; split; congruence.
Qed.

Lemma step_None (t : nat) (cfg : Cfg) th :
  nth_error (c_threads cfg) t = Some th ->
  (step fullMethod env t cfg = None <->
   stepThread fullMethod env t (th_call th) (th_pc th) (c_mutex cfg)
              (mkState (c_plugin cfg) (c_world cfg)) = None).
Proof.
  intros Ht. unfold step. rewrite Ht.
  destruct (stepThread fullMethod env t (th_call th) (th_pc th) (c_mutex cfg)
              (mkState (c_plugin cfg) (c_world cfg)))
    as [[[pc' m'] s']|]; split; congruence.
Qed.

(** X8.  The mutex of the Plugin, whatever the Plugin was at the start and
    however the goroutines are scheduled: two goroutines are never both between
    a Lock and its Unlock; the mutex is held exactly while one of them is; once
    all goroutines have returned the mutex is free; and from wherever the
    goroutines have got to, some schedule lets all of them return. *)
Theorem the_mutex_holds_one_goroutine_and_is_released
  (p : Plugin) (w : World Req Resp) (calls : list (Call Req))
  (sched : list nat) :
  let cfg := run fullMethod env sched (initial p w calls) in
  (forall t t' th th',
      nth_error (c_threads cfg) t = Some th ->
      nth_error (c_threads cfg) t' = Some th' ->
      holdsLock (th_pc th) = true -> holdsLock (th_pc th') = true ->
      t = t') /\
  (forall t, c_mutex cfg = Some t <->
             exists th, nth_error (c_threads cfg) t = Some th /\
                        holdsLock (th_pc th) = true) /\
  (allDone cfg = true -> c_mutex cfg = None) /\
  exists sched', allDone (run fullMethod env sched' cfg) = true.
Proof.
  intros cfg.
  assert (I : LockInv cfg) by apply run_LockInv, initial_LockInv.
  pose proof (LockInv_completion I) as Cmp.
  destruct I as [IM IH].
  split; [|split; [|split]]; trivial.
  - intros t t' th th' E E' L L'.
    apply (IM _ _ E) in L. apply (IM _ _ E') in L'. congruence.
  - intros t. split.
    + intros M. pose proof (IH _ M) as X.
      destruct (nth_error (c_threads cfg) t) as [th|] eqn:E; [|congruence].
      exists th. split; trivial. now apply (IM _ _ E).
    + intros (th & E & L). now apply (IM _ _ E).
  - intros A. destruct (c_mutex cfg) as [t|] eqn:M; trivial.
    pose proof (IH _ eq_refl) as X.
    destruct (nth_error (c_threads cfg) t) as [th|] eqn:E; [|congruence].
    pose proof (allDone_threads _ _ A E) as D.
    apply isDone_not_holdsLock in D.
    destruct (IM _ _ E) as [_ Y]. rewrite (Y eq_refl) in D. discriminate.
Qed.

(** X9.  A goroutine that is about to make a remote call does not hold the
    mutex, and it can make the call whoever holds the mutex at that moment. *)
Theorem remote_calls_are_made_outside_the_mutex
  (p : Plugin) (w : World Req Resp) (calls : list (Call Req))
  (sched : list nat) (t : nat) (th : Thread Req Resp) :
  let cfg := run fullMethod env sched (initial p w calls) in
  nth_error (c_threads cfg) t = Some th ->
  atCall (th_pc th) = true ->
  c_mutex cfg <> Some t /\ step fullMethod env t cfg <> None.
Proof.
  intros cfg E A.
  assert (I : LockInv cfg) by apply run_LockInv, initial_LockInv.
  destruct I as [IM _].
  destruct (@atCall_enabled t (th_call th) (th_pc th) (c_mutex cfg)
              (mkState (c_plugin cfg) (c_world cfg)) A) as [L S].
  split.
  - intros M. apply (IM _ _ E) in M. congruence.
  - now apply stepThread_enabled_step with (th := th).
Qed.

(** X10.  A goroutine that asks for the mutex, on entering [getOrCreateGRPCConn]
    or to store the version, waits exactly as long as another goroutine is
    between a Lock and its Unlock; so it waits throughout the dial and the wait
    for the connection of another goroutine. *)
Theorem Lock_waits_for_the_goroutine_in_the_critical_section
  (p : Plugin) (w : World Req Resp) (calls : list (Call Req))
  (sched : list nat) (t : nat) (th : Thread Req Resp) :
  let cfg := run fullMethod env sched (initial p w calls) in
  nth_error (c_threads cfg) t = Some th ->
  atLock (th_pc th) = true ->
  (step fullMethod env t cfg = None <->
   exists t' th', t' <> t /\ nth_error (c_threads cfg) t' = Some th' /\
                  holdsLock (th_pc th') = true) /\
  (forall t' th', nth_error (c_threads cfg) t' = Some th' ->
                  establishing (th_pc th') = true ->
                  step fullMethod env t cfg = None).
Proof.
  intros cfg E A.
  assert (I : LockInv cfg) by apply run_LockInv, initial_LockInv.
  destruct I as [IM IH].
  destruct (@atLock_blocked t (th_call th) (th_pc th) (c_mutex cfg)
              (mkState (c_plugin cfg) (c_world cfg)) A) as [L B].
  assert (Q : step fullMethod env t cfg = None <->
              exists t' th', t' <> t /\
                             nth_error (c_threads cfg) t' = Some th' /\
                             holdsLock (th_pc th') = true).
  { rewrite (step_None _ _ E), B. split.
    - intros M. destruct (c_mutex cfg) as [t'|] eqn:M'; [|congruence].
      pose proof (IH _ eq_refl) as X.
      destruct (nth_error (c_threads cfg) t') as [th'|] eqn:E'; [|congruence].
      assert (L' : holdsLock (th_pc th') = true) by now apply (IM _ _ E').
      exists t', th'. repeat split; trivial. congruence.
    - intros (t' & th' & _ & E' & L').
      apply (IM _ _ E') in L'. congruence. }
  split; [exact Q|].
  intros t' th' E' X. apply Q. exists t', th'.
  apply establishing_holdsLock in X. repeat split; trivial. congruence.
Qed.

(** X11.  Overlapping calls on a Plugin that has its connection: whatever the
    schedule, nothing is dialed or waited for and no connection is stored; the
    Plugin keeps its connection, every goroutine gets that connection and every
    invocation is made on it. *)
Theorem overlapping_calls_on_a_stored_connection_never_dial
  (p : Plugin) (w : World Req Resp) (calls : list (Call Req))
  (sched : list nat) (c0 : ClientConn) :
  conn p = Some c0 ->
  let cfg := run fullMethod env sched (initial p w calls) in
  conn (c_plugin cfg) = Some c0 /\
  (forall t th c, nth_error (c_threads cfg) t = Some th ->
                  pcConn (th_pc th) = Some c -> c = c0) /\
  (forall t th, nth_error (c_threads cfg) t = Some th ->
                establishing (th_pc th) = false) /\
  exists evs,
    log (c_world cfg) = (log w ++ evs)%list /\
    dials evs = [] /\ waits evs = [] /\ setConns evs = [] /\
    forall a, In a (invokes evs) -> at_conn a = c0.
Proof.
  intros Hc cfg.
  assert (I : WarmInv c0 (log w) cfg)
    by (apply run_WarmInv, initial_WarmInv; exact Hc).
  destruct I as (IC & IT & evs & L & D & Wt & SC & IN).
  split; [exact IC|]. split; [|split].
  - intros t th c E. now apply (IT _ _ E).
  - intros t th E. now apply (IT _ _ E).
  - now exists evs.
Qed.

(** X12.  Against a remote side that answers every v1beta1 invocation the same
    way (always Unimplemented, or never), overlapping calls agree: whatever the
    schedule, every version that is stored is the same one, v1alpha4 in the
    first case and v1beta1 in the second, and the cached version is that one or
    still what it was at the start. *)
Theorem overlapping_calls_store_the_same_version
  (b : bool) (p : Plugin) (w : World Req Resp) (calls : list (Call Req))
  (sched : list nat) :
  answersV1beta1 env b ->
  let cfg := run fullMethod env sched (initial p w calls) in
  (supportedAPI (c_plugin cfg) = supportedAPI p \/
   supportedAPI (c_plugin cfg) = storedFor b) /\
  (forall t th v, nth_error (c_threads cfg) t = Some th ->
                  pcVersion (th_pc th) = Some v -> v = storedFor b) /\
  exists evs,
    log (c_world cfg) = (log w ++ evs)%list /\
    forall v, In v (setVersions evs) -> v = storedFor b.
Proof.
  intros A cfg.
  assert (I : AgreeInv b (supportedAPI p) (log w) cfg)
    by (apply run_AgreeInv, initial_AgreeInv; exact A).
  destruct I as (IV & IT & evs & L & SV).
  split; [exact IV|]. split.
  - intros t th v E. now apply (IT _ _ E).
  - now exists evs.
Qed.


(** X13.  Overlapping calls on a Plugin that has its connection and a confirmed
    version: whatever the schedule, the Plugin is never written (the version
    stays what it was), nothing is dialed, every invocation is made on the
    service of that version and on the stored connection, and no goroutine comes
    to the fallback or to the store of a version. *)
Theorem overlapping_calls_keep_a_confirmed_version
  (svc : Service) (c0 : ClientConn) (p : Plugin) (w : World Req Resp)
  (calls : list (Call Req)) (sched : list nat) :
  conn p = Some c0 -> supportedAPI p = apiOf svc ->
  let cfg := run fullMethod env sched (initial p w calls) in
  c_plugin cfg = p /\
  (forall t th, nth_error (c_threads cfg) t = Some th ->
                atFallback (th_pc th) = false /\
                pcVersion (th_pc th) = None) /\
  exists evs,
    log (c_world cfg) = (log w ++ evs)%list /\
    dials evs = [] /\ setConns evs = [] /\ setVersions evs = [] /\
    forall a, In a (invokes evs) -> at_conn a = c0 /\ at_service a = svc.
Proof.
  intros Hc Hv cfg.
  assert (I : ConfirmedInv svc c0 p (log w) cfg)
    by (apply run_ConfirmedInv; trivial; apply initial_ConfirmedInv).
  destruct I as (IP & IT & evs & L & D & SC & SV & IN).
  split; [exact IP|]. split.
  - intros t th E. destruct (IT _ _ E) as [X _].
    destruct (th_pc th) as [| | | | |[[c v]|err]| | | | | | | |];
      try discriminate X; now split.
  - now exists evs.
Qed.

End ConcurrentMore.

(** * The lookup of a registered plugin *)

Section LookupProperties.

Variable Handle : Type.
Variable draPlugins_get : string -> option Handle.

(** X1.  [NewDRAPluginClient] returns a plugin exactly when the name is not
    empty and the registry has an entry for it, and then it returns that very
    entry.  The empty name is refused before the registry is asked, so even an
    entry registered under the empty name is never handed out; a name that is
    not registered gives the error that quotes the name. *)
Theorem NewDRAPluginClient_returns_the_registered_plugin (pluginName : string) :
  (forall h, NewDRAPluginClient draPlugins_get pluginName = inl h
             <-> (pluginName <> "" /\ draPlugins_get pluginName = Some h)) /\
  (pluginName = "" ->
   NewDRAPluginClient draPlugins_get pluginName
   = inr (errors_New "plugin name is empty")) /\
  (pluginName <> "" -> draPlugins_get pluginName = None ->
   NewDRAPluginClient draPlugins_get pluginName
   = inr (errors_New ("plugin name " ++ pluginName
                      ++ " not found in the list of registered DRA plugins"))).
Proof.
  unfold NewDRAPluginClient.
  destruct (pluginName =? "")%string eqn:E.
  - apply String.eqb_eq in E. subst.
    split; [|split]; [|reflexivity|congruence].
    intros h. split; [discriminate|]. now intros [[] _].
  - apply String.eqb_neq in E.
    split; [|split]; [|congruence|].
    + intros h. destruct (draPlugins_get pluginName) as [p|]; split.
      * intros Q. split; congruence.
      * intros [_ Q]. congruence.
      * discriminate.
      * intros [_ Q]. discriminate.
    + intros _ ->. reflexivity.
Qed.

End LookupProperties.

(** * The cache of node usage *)

Section CacheProperties.

Variable float64 : Type.

Local Abbreviation Cache := (dynamicweight.NodeUsageCache).
Local Abbreviation Heap := (dynamicweight.Heap float64).

(** X14.  Set, then Get.  [Set] with a pointer that is not nil never fails;
    after it, [Get] for the same node gives back that very pointer (the caller's
    object, not a copy) for as long as less than the timeout has passed since
    the [Set], and nil from then on.  [Set] has written the time into the
    caller's object and has changed nothing else in it, nor any other object. *)
Theorem Set_then_Get_until_the_timeout (c : Cache) (h : Heap) (t : Time)
  (node : string) (usage : dynamicweight.addr) :
  exists c' h',
    dynamicweight.NodeUsageCache_Set c h t node (Some usage) = Some (c', h') /\
    dynamicweight.timeout c' = dynamicweight.timeout c /\
    (forall t',
        dynamicweight.Get c' h' t' node
        = if t' - t <? dynamicweight.timeout c then Some usage else None) /\
    dynamicweight.Timestamp (h' usage) = t /\
    dynamicweight.CPU (h' usage) = dynamicweight.CPU (h usage) /\
    dynamicweight.Memory (h' usage) = dynamicweight.Memory (h usage) /\
    dynamicweight.DiskIO (h' usage) = dynamicweight.DiskIO (h usage) /\
    dynamicweight.Network (h' usage) = dynamicweight.Network (h usage) /\
    (forall a, a <> usage -> h' a = h a).
Proof.
  eexists. eexists. split; [reflexivity|].
  unfold dynamicweight.Get, dynamicweight.store, dynamicweight.stamp.
  cbn [dynamicweight.data dynamicweight.timeout].
  rewrite String.eqb_refl, Nat.eqb_refl.
  cbn [dynamicweight.Timestamp dynamicweight.CPU dynamicweight.Memory
       dynamicweight.DiskIO dynamicweight.Network].
  repeat split; trivial.
  intros a N. apply Nat.eqb_neq in N. now rewrite N.
Qed.

(** X15.  What a [Set] does to the other nodes.  An entry of another node that
    points to a different object is answered by [Get] as before.  An entry of
    another node that points to the same object shares its time stamp: it is as
    fresh as the entry just set, even when it had expired. *)
Theorem Set_and_the_entries_of_other_nodes (c : Cache) (h : Heap) (t : Time)
  (node other : string) (usage : dynamicweight.addr) (c' : Cache)
  (h' : Heap) :
  dynamicweight.NodeUsageCache_Set c h t node (Some usage) = Some (c', h') ->
  other <> node ->
  forall t',
    (dynamicweight.data c other <> Some usage ->
     dynamicweight.Get c' h' t' other = dynamicweight.Get c h t' other) /\
    (dynamicweight.data c other = Some usage ->
     dynamicweight.Get c' h' t' other = dynamicweight.Get c' h' t' node).
Proof.
  intros E N t'. inversion E; subst; clear E.
  apply String.eqb_neq in N.
  unfold dynamicweight.Get, dynamicweight.store, dynamicweight.stamp.
  cbn [dynamicweight.data dynamicweight.timeout].
  rewrite N, String.eqb_refl. split.
  - intros D. destruct (dynamicweight.data c other) as [e|]; trivial.
    destruct (Nat.eqb e usage) eqn:Q; trivial.
    apply Nat.eqb_eq in Q. congruence.
  - intros ->. reflexivity.
Qed.

(** X16.  A timeout that is zero or negative is accepted by [NewNodeUsageCache]
    and makes a cache that never answers: whatever was set, a [Get] at the time
    of the [Set] or later returns nil. *)
Theorem cache_without_positive_timeout_never_answers (timeout : Duration)
  (h : Heap) (t t' : Time) (node asked : string) (usage : dynamicweight.addr)
  (c' : Cache) (h' : Heap) :
  timeout <= 0 -> t <= t' ->
  dynamicweight.NodeUsageCache_Set
    (dynamicweight.NewNodeUsageCache timeout) h t node (Some usage)
  = Some (c', h') ->
  dynamicweight.Get c' h' t' asked = None.
Proof.
  intros T L E. inversion E; subst; clear E.
  unfold dynamicweight.Get, dynamicweight.store, dynamicweight.stamp,
    dynamicweight.NewNodeUsageCache.
  cbn [dynamicweight.data dynamicweight.timeout].
  destruct (asked =? node)%string; trivial.
  rewrite Nat.eqb_refl. cbn [dynamicweight.Timestamp].
  destruct (t' - t <? timeout) eqn:Q; trivial.
  apply Z.ltb_lt in Q. lia.
Qed.

End CacheProperties.

(** * The further theorems at work on concrete plugins *)

Module MoreExamples.
Import Scenario.
Import MoreScenario.

(** Three calls on the connected driver: three results, and the connection
    is still the stored one. *)
Lemma runCalls_keeps_identity_and_connection_witness :
  conn (plugin sWarm) = Some conn0 /\
  conn (plugin (snd (runCalls methodName alphaOnly threeCallers sWarm)))
  = Some conn0 /\
  List.length (fst (runCalls methodName alphaOnly threeCallers sWarm))
  = 3%nat.
Proof.
  destruct (runCalls_keeps_identity_and_connection methodName alphaOnly
              threeCallers sWarm) as (Len & _ & _ & _ & K).
  split; [reflexivity|]. split; [apply K; reflexivity|exact Len].
Defined.

(** Three calls on the cold driver whose first dial fails: the dials are the
    one failure and the one stored connection. *)
Lemma runCalls_dials_and_invocations_account_witness :
  exists evs,
    log (world (snd (runCalls methodName downOnce threeCallers s0)))
    = (log w0 ++ evs)%list /\
    (List.length (dials evs)
     = failures evs + List.length (setConns evs))%nat /\
    (List.length (setConns evs) <= 1)%nat.
Proof.
  destruct (runCalls_dials_and_invocations_account methodName downOnce
              threeCallers s0) as (evs & L & A & S & _).
  exists evs. split; [exact L|]. split; [exact A|exact S].
Defined.

(** Three calls on the connected driver: no dial, every invocation on the
    stored connection. *)
Lemma runCalls_on_stored_connection_never_dial_witness :
  conn (plugin sWarm) = Some conn0 /\
  exists evs,
    log (world (snd (runCalls methodName alphaOnly threeCallers sWarm)))
    = (log (world sWarm) ++ evs)%list /\
    dials evs = [] /\
    forall a, In a (invokes evs) -> at_conn a = conn0.
Proof.
  split; [reflexivity|].
  destruct (runCalls_on_stored_connection_never_dial methodName alphaOnly
              threeCallers sWarm eq_refl)
    as (_ & evs & L & D & _ & _ & _ & I).
  exists evs. split; [exact L|]. split; [exact D|exact I].
Defined.

(** Three calls at an endpoint at which nothing listens: the Plugin is as
    cold as before and every call returned an error without a response. *)
Lemma runCalls_without_connection_every_call_failed_witness :
  conn (plugin (snd (runCalls methodName down threeCallers s0))) = None /\
  plugin (snd (runCalls methodName down threeCallers s0)) = plugin s0 /\
  Forall (fun res => fst res = None /\ snd res <> None)
         (fst (runCalls methodName down threeCallers s0)).
Proof.
  split; [reflexivity|].
  destruct (runCalls_without_connection_every_call_failed methodName down
              threeCallers s0 eq_refl) as (P & F & _).
  split; [exact P|exact F].
Defined.

(** The driver that has v1alpha4 cached is asked on v1alpha4 only, also by a
    remote side that would serve v1beta1. *)
Lemma confirmed_version_is_never_renegotiated_witness :
  conn (plugin sAlpha) = Some conn0 /\
  supportedAPI (plugin sAlpha) = apiOf drapbv1alpha4 /\
  plugin (snd (runCalls methodName betaOK threeCallers sAlpha))
  = plugin sAlpha /\
  exists evs,
    log (world (snd (runCalls methodName betaOK threeCallers sAlpha)))
    = (log (world sAlpha) ++ evs)%list /\
    setVersions evs = [] /\
    map (fun a => (at_conn a, at_service a, at_op a, at_req a)) (invokes evs)
    = map (fun call => (conn0, drapbv1alpha4, call_op call, call_req call))
          threeCallers.
Proof.
  split; [reflexivity|]. split; [reflexivity|].
  destruct (confirmed_version_is_never_renegotiated methodName betaOK
              threeCallers sAlpha drapbv1alpha4 eq_refl eq_refl)
    as (P & evs & L & _ & _ & V & _ & M).
  split; [exact P|]. exists evs. split; [exact L|]. split; [exact V|exact M].
Defined.

(** A first call whose context has expired fails with DeadlineExceeded on
    v1beta1; v1beta1 is stored, and the calls after it ask the driver, which
    serves only v1alpha4, on v1beta1. *)
Lemma first_answer_decides_for_v1beta1_witness :
  let s1 := snd (getOrCreateGRPCConn alphaOnlyWithDeadlines s0) in
  let r1 := dispatch methodName alphaOnlyWithDeadlines OpPrepare
                     (call_ctx prepareExpired) "claim-2" s0 in
  let r := runCalls methodName alphaOnlyWithDeadlines twoCallers (snd r1) in
  isUnknown (supportedAPI (plugin s0)) = true /\
  getOrCreateGRPCConn alphaOnlyWithDeadlines s0 = (inl (conn0, ""), s1) /\
  isUnimplemented
    (snd (attemptResult alphaOnlyWithDeadlines conn0
            (callCtx (call_ctx prepareExpired) s1) drapbv1beta1 OpPrepare
            "claim-2" (world s1))) = false /\
  supportedAPI (plugin (snd r1)) = apiV1beta1 /\
  exists evs,
    log (world (snd r)) = (log (world (snd r1)) ++ evs)%list /\
    map (@at_service _ _) (invokes evs) = [drapbv1beta1; drapbv1beta1].
Proof.
  intros s1 r1 r.
  split; [reflexivity|]. split; [reflexivity|]. split; [reflexivity|].
  destruct (@first_answer_decides_for_v1beta1 _ _ methodName
              alphaOnlyWithDeadlines OpPrepare (call_ctx prepareExpired)
              "claim-2" s0 s1 conn0 "" twoCallers eq_refl eq_refl eq_refl)
    as (_ & V & _ & evs & L & M & _).
  split; [exact V|]. exists evs. split; [exact L|exact M].
Defined.

(** Two callers one after the other on the cold driver: both have returned
    and the mutex is free. *)
Lemma the_mutex_holds_one_goroutine_and_is_released_witness :
  let cfg := run methodName betaOK oneAfterTheOther
                 (initial driverA w0 twoCallers) in
  allDone cfg = true /\ c_mutex cfg = None.
Proof.
  intros cfg. split; [reflexivity|].
  destruct (the_mutex_holds_one_goroutine_and_is_released methodName
              betaOK driverA w0 twoCallers oneAfterTheOther)
    as (_ & _ & F & _).
  apply F. reflexivity.
Defined.

(** The first caller is about to invoke v1beta1 while the second holds the
    mutex: the first caller can go on. *)
Lemma remote_calls_are_made_outside_the_mutex_witness :
  let cfg := run methodName alphaOnly secondLocksDuringCall
                 (initial driverA w0 twoCallers) in
  exists th,
    nth_error (c_threads cfg) 0 = Some th /\
    atCall (th_pc th) = true /\
    c_mutex cfg = Some 1%nat /\
    c_mutex cfg <> Some 0%nat /\
    step methodName alphaOnly 0 cfg <> None.
Proof.
  intros cfg.
  destruct (nth_error (c_threads cfg) 0) as [th|] eqn:E;
    [|vm_compute in E; discriminate E].
  exists th. split; [reflexivity|].
  assert (A : atCall (th_pc th) = true)
    by (vm_compute in E; injection E as <-; reflexivity).
  split; [exact A|]. split; [reflexivity|].
  exact (remote_calls_are_made_outside_the_mutex methodName alphaOnly driverA
           w0 twoCallers secondLocksDuringCall 0 E A).
Defined.

(** The first caller waits for its connection to become ready; the second,
    which asks for the mutex, cannot move. *)
Lemma Lock_waits_for_the_goroutine_in_the_critical_section_witness :
  let cfg := run methodName alphaOnly firstDials
                 (initial driverA w0 twoCallers) in
  exists th th',
    nth_error (c_threads cfg) 1 = Some th /\
    atLock (th_pc th) = true /\
    nth_error (c_threads cfg) 0 = Some th' /\
    establishing (th_pc th') = true /\
    step methodName alphaOnly 1 cfg = None.
Proof.
  intros cfg.
  destruct (nth_error (c_threads cfg) 1) as [th|] eqn:E;
    [|vm_compute in E; discriminate E].
  destruct (nth_error (c_threads cfg) 0) as [th'|] eqn:E';
    [|vm_compute in E'; discriminate E'].
  assert (A : atLock (th_pc th) = true)
    by (vm_compute in E; injection E as <-; reflexivity).
  assert (B : establishing (th_pc th') = true)
    by (vm_compute in E'; injection E' as <-; reflexivity).
  exists th, th'. split; [reflexivity|]. split; [exact A|].
  split; [reflexivity|]. split; [exact B|].
  exact (proj2 (Lock_waits_for_the_goroutine_in_the_critical_section
                  methodName alphaOnly driverA w0 twoCallers firstDials 1 E A)
               0%nat th' E' B).
Defined.

(** Three callers in turn on the connected driver: nothing is dialed. *)
Lemma overlapping_calls_on_a_stored_connection_never_dial_witness :
  let cfg := run methodName alphaOnly roundRobin
                 (initial (plugin sWarm) (world sWarm) threeCallers) in
  conn (plugin sWarm) = Some conn0 /\
  conn (c_plugin cfg) = Some conn0 /\
  exists evs,
    log (c_world cfg) = (log (world sWarm) ++ evs)%list /\
    dials evs = [] /\
    forall a, In a (invokes evs) -> at_conn a = conn0.
Proof.
  intros cfg. split; [reflexivity|].
  destruct (overlapping_calls_on_a_stored_connection_never_dial methodName
              alphaOnly (plugin sWarm) (world sWarm) threeCallers roundRobin
              eq_refl) as (C & _ & _ & evs & L & D & _ & _ & I).
  split; [exact C|]. exists evs. split; [exact L|]. split; [exact D|exact I].
Defined.

(** The driver that serves only v1alpha4 answers every v1beta1 invocation
    with Unimplemented: two overlapping callers store v1alpha4 only. *)
Lemma overlapping_calls_store_the_same_version_witness :
  let cfg := run methodName alphaOnly bothReadFirst
                 (initial driverA w0 twoCallers) in
  answersV1beta1 alphaOnly true /\
  exists evs,
    log (c_world cfg) = (log w0 ++ evs)%list /\
    forall v, In v (setVersions evs) -> v = apiV1alpha4.
Proof.
  intros cfg.
  assert (A : answersV1beta1 alphaOnly true)
    by (intros w c ctx op req; reflexivity).
  split; [exact A|].
  destruct (overlapping_calls_store_the_same_version methodName driverA w0
              twoCallers bothReadFirst A) as (_ & _ & evs & L & V).
  exists evs. split; [exact L|exact V].
Defined.

(** Three callers in turn on the driver that has v1alpha4 cached, against a
    remote side that would serve v1beta1: the Plugin is not written and
    every invocation is on v1alpha4. *)
Lemma overlapping_calls_keep_a_confirmed_version_witness :
  let cfg := run methodName betaOK roundRobin
                 (initial (plugin sAlpha) (world sAlpha) threeCallers) in
  conn (plugin sAlpha) = Some conn0 /\
  supportedAPI (plugin sAlpha) = apiOf drapbv1alpha4 /\
  c_plugin cfg = plugin sAlpha /\
  exists evs,
    log (c_world cfg) = (log (world sAlpha) ++ evs)%list /\
    setVersions evs = [] /\
    forall a, In a (invokes evs) ->
              at_conn a = conn0 /\ at_service a = drapbv1alpha4.
Proof.
  intros cfg. split; [reflexivity|]. split; [reflexivity|].
  destruct (@overlapping_calls_keep_a_confirmed_version _ _ methodName betaOK
              drapbv1alpha4 conn0 (plugin sAlpha) (world sAlpha) threeCallers
              roundRobin eq_refl eq_refl)
    as (P & _ & evs & L & _ & _ & V & I).
  split; [exact P|]. exists evs. split; [exact L|]. split; [exact V|exact I].
Defined.

(** The registry that has a plugin under the empty name: the empty name is
    refused all the same, and the registered driver is handed out. *)
Lemma NewDRAPluginClient_returns_the_registered_plugin_witness :
  registry "" = Some staleAlpha /\
  NewDRAPluginClient registry "" = inr (errors_New "plugin name is empty") /\
  NewDRAPluginClient registry "driver-A" = inl driverA.
Proof.
  split; [reflexivity|]. split.
  - exact (proj1 (proj2 (NewDRAPluginClient_returns_the_registered_plugin
                           registry "")) eq_refl).
  - apply (proj1 (NewDRAPluginClient_returns_the_registered_plugin
                    registry "driver-A")).
    split; [discriminate|reflexivity].
Defined.

(** An entry set at second 1 with a timeout of five minutes is handed out
    one nanosecond before second 301 and no longer at second 301. *)
Lemma Set_then_Get_until_the_timeout_witness :
  exists c' h',
    dynamicweight.NodeUsageCache_Set
      (dynamicweight.NewNodeUsageCache fiveMinutes) usageHeap time_Second
      "node-1" (Some 1%nat) = Some (c', h') /\
    dynamicweight.Get c' h' (301 * time_Second - 1) "node-1" = Some 1%nat /\
    dynamicweight.Get c' h' (301 * time_Second) "node-1" = None.
Proof.
  destruct (Set_then_Get_until_the_timeout
              (dynamicweight.NewNodeUsageCache fiveMinutes) usageHeap
              time_Second "node-1" 1%nat)
    as (c' & h' & E & _ & G & _).
  exists c', h'. split; [exact E|]. split.
  - rewrite G. reflexivity.
  - rewrite G. reflexivity.
Defined.

(** One object set for two nodes: the second [Set], after the first entry
    has expired, makes the first entry fresh again. *)
Lemma Set_and_the_entries_of_other_nodes_witness :
  let c0 := dynamicweight.NewNodeUsageCache fiveMinutes in
  let c1 := dynamicweight.store c0 "node-2" 1%nat in
  let h1 := dynamicweight.stamp usageHeap 1%nat 0 in
  let c2 := dynamicweight.store c1 "node-1" 1%nat in
  let h2 := dynamicweight.stamp h1 1%nat (400 * time_Second) in
  dynamicweight.NodeUsageCache_Set c0 usageHeap 0 "node-2" (Some 1%nat)
  = Some (c1, h1) /\
  dynamicweight.NodeUsageCache_Set c1 h1 (400 * time_Second) "node-1"
    (Some 1%nat) = Some (c2, h2) /\
  "node-2" <> "node-1" /\
  dynamicweight.Get c1 h1 (400 * time_Second) "node-2" = None /\
  dynamicweight.Get c2 h2 (401 * time_Second) "node-2" = Some 1%nat.
Proof.
  intros c0 c1 h1 c2 h2.
  assert (N : "node-2" <> "node-1") by discriminate.
  split; [reflexivity|]. split; [reflexivity|]. split; [exact N|].
  split; [reflexivity|].
  destruct (@Set_and_the_entries_of_other_nodes nat c1 h1
              (400 * time_Second) "node-1" "node-2" 1%nat c2 h2 eq_refl N
              (401 * time_Second)) as [_ S].
  rewrite S; reflexivity.
Defined.

(** A cache made with the timeout zero answers nil at the very time of the
    [Set]. *)
Lemma cache_without_positive_timeout_never_answers_witness :
  let c1 := dynamicweight.store (dynamicweight.NewNodeUsageCache 0) "node-1"
              1%nat in
  let h1 := dynamicweight.stamp usageHeap 1%nat 5 in
  0 <= 0 /\ 5 <= 5 /\
  dynamicweight.NodeUsageCache_Set (dynamicweight.NewNodeUsageCache 0)
    usageHeap 5 "node-1" (Some 1%nat) = Some (c1, h1) /\
  dynamicweight.Get c1 h1 5 "node-1" = None.
Proof.
  intros c1 h1.
  assert (T : 0 <= 0) by lia. assert (L : 5 <= 5) by lia.
  split; [exact T|]. split; [exact L|]. split; [reflexivity|].
  exact (@cache_without_positive_timeout_never_answers nat 0 usageHeap 5 5
           "node-1" "node-1" 1%nat c1 h1 T L eq_refl).
Defined.

End MoreExamples.
